(** * Equation Builder (superstudent.jsx): the puzzle engine

    A shallow embedding of the game logic of [src/superstudent.jsx]: the
    tokenizer, [safeEval] and the JavaScript it hands its text to, the random
    expression generator, the round generator, the token pool with its
    equation sequence, the checker and [revealSolution]; and of what goes
    on around a round: the countdown, [nextLevel], [replayCurrentQuestion]
    and the hints.

    Conventions.
    - A JavaScript string is a [string]; a character is a code unit below 256.
    - A JavaScript Number is a binary64 [float] (the kernel's primitive
      floats: the same IEEE 754 arithmetic as the host's). Integers that only
      count or index (levels, lengths, array indices, the generated operands)
      are in [Z] or [nat]: they stay far below 2^53, where Numbers are exact.
    - [Math.random()] is read from an explicit stream of draws, each a
      rational in [0, 1). Where a draw is scaled to an integer, the product
      floored is the exact one; the binary64 product, which the code floors,
      can differ from it where it is within rounding of an integer, and the
      statements on the value a draw gives keep a margin for that.
    - React state is a record; an event handler is a function on it. *)

From Stdlib Require Import ZArith QArith Qround String Ascii List Floats Lia.
From Stdlib Require Import DecimalString Permutation.
From stdpp Require Import base list strings.
Import ListNotations.

Close Scope Q_scope.

(** ** Characters *)

(** [\d] *)
Definition is_digit (c : ascii) : bool :=
  (48 <=? nat_of_ascii c)%nat && (nat_of_ascii c <=? 57)%nat.

(** [\+|\-|\*|\/|\(|\)] *)
Definition is_symbol (c : ascii) : bool :=
  existsb (Ascii.eqb c) ["+"; "-"; "*"; "/"; "("; ")"]%char.

(** [[0-9+\-*/()]] *)
Definition is_allowed (c : ascii) : bool := is_digit c || is_symbol c.

(** [\s], on code units below 256: tab, line feed, vertical tab, form feed,
    carriage return, space, no-break space. *)
Definition is_space (c : ascii) : bool :=
  existsb (Nat.eqb (nat_of_ascii c)) [9; 10; 11; 12; 13; 32; 160]%nat.

Fixpoint string_forall (p : ascii -> bool) (s : string) : bool :=
  match s with
  | EmptyString => true
  | String c rest => p c && string_forall p rest
  end.

Fixpoint string_filter (p : ascii -> bool) (s : string) : string :=
  match s with
  | EmptyString => EmptyString
  | String c rest =>
      if p c then String c (string_filter p rest) else string_filter p rest
  end.

(** [/^[0-9+\-*/()]+$/.test(s)] *)
Definition allowed_text (s : string) : bool :=
  match s with
  | EmptyString => false
  | _ => string_forall is_allowed s
  end.

(** [s.replace(/\s+/g, '')] *)
Definition strip_spaces (s : string) : string :=
  string_filter (fun c => negb (is_space c)) s.

(** [arr.join('')] *)
Definition join (l : list string) : string := String.concat "" l.

(** ** Numbers of the host *)

(** The Number nearest to an integer, ties to even: the value of a decimal
    literal. *)
Definition Z2float (z : Z) : float :=
  SF2Prim (binary_normalize prec emax z 0 false).

(** [Math.round]: the nearest integral Number, a tie going up; [-0] for an
    argument in [[-0.5, 0)]. *)
Definition Math_round (x : float) : float :=
  match Prim2SF x with
  | S754_finite s m e =>
      if (0 <=? e)%Z then x
      else
        let d := (2 ^ (- e))%Z in
        let n := ((cond_Zopp s (Zpos m) * 2 + d) / (2 * d))%Z in
        if (n =? 0)%Z then (if s then neg_zero else zero) else Z2float n
  | _ => x
  end.

Definition Math_abs (x : float) : float := abs x.

(** [Math.abs(x - Math.round(x)) > 1e-9]; the constant is the Number that
    [1e-9] denotes. The comparison is false when the difference is [NaN]. *)
Definition off_integer (x : float) : bool :=
  (0x1.12e0be826d695p-30 <? Math_abs (x - Math_round x))%float.

(** The values an expression over the sixteen characters can have: a Number,
    a RegExp object (from a regular expression literal), or a String (from
    [+] with a RegExp or a String operand; such a String always contains the
    [/] of a RegExp's text, so it converts to [NaN]). *)
Inductive value : Type :=
  | VNum (x : float)
  | VRegExp
  | VString.

Definition ToNumber (v : value) : float :=
  match v with
  | VNum x => x
  | VRegExp | VString => nan
  end.

(** [Number.isFinite]: no conversion, so [false] on what is not a Number. *)
Definition Number_isFinite (v : value) : bool :=
  match v with
  | VNum x => is_finite x
  | VRegExp | VString => false
  end.

(** What ECMAScript leaves to the implementation. [Number_exponentiate] is
    the [**] operator ("implementation-approximated" outside its special
    cases); [Number_toString36] is [x.toString(36)] of a fraction. *)
Class Host : Type := {
  Number_exponentiate : float -> float -> float;
  Number_toString36 : Q -> string
}.

(** Exceptions: the [Error("Unsafe expression")] of [safeEval], and whatever
    the host raises (a SyntaxError from [new Function], a TypeError). *)
Inductive error : Type :=
  | Unsafe
  | HostError.

Inductive completion (A : Type) : Type :=
  | Return (a : A)
  | Throw (e : error).
Arguments Return {A} a.
Arguments Throw {A} e.

(** ** The host reading [return (<text>);] in strict mode

    Over the sixteen characters the host's lexical grammar has decimal
    literals, the punctuators [+ - * / ** ( ) ++ --], both kinds of comment,
    and regular expression literals. *)

Inductive jstoken : Type :=
  | TNum (n : Z)
  | TRegExp
  | TPlus | TMinus | TStar | TSlash | TStarStar
  | TLParen | TRParen.

Fixpoint digits_value (acc : Z) (ds : string) : Z :=
  match ds with
  | EmptyString => acc
  | String c rest =>
      digits_value (10 * acc + Z.of_nat (nat_of_ascii c - 48)) rest
  end.

(** A decimal literal; with a leading zero and more digits it is an octal-like
    literal, a SyntaxError in strict mode. *)
Definition numeric_literal (ds : string) : option jstoken :=
  match ds with
  | String "0" (String _ _) => None
  | _ => Some (TNum (digits_value 0 ds))
  end.

(** The body of a regular expression literal, as a pattern: digits and [-]
    match themselves, [*] and [+] quantify the atom before them, parentheses
    group. [depth] counts the open groups; [atom] says that a quantifier may
    follow. *)
Fixpoint valid_pattern (depth : nat) (atom : bool) (body : string) : bool :=
  match body with
  | EmptyString => Nat.eqb depth 0
  | String c rest =>
      if Ascii.eqb c "(" then valid_pattern (S depth) false rest
      else if Ascii.eqb c ")" then
        match depth with
        | O => false
        | S d => valid_pattern d true rest
        end
      else if Ascii.eqb c "*" || Ascii.eqb c "+" then
        atom && valid_pattern depth false rest
      else valid_pattern depth true rest
  end.

Definition starts_with (p : ascii -> bool) (s : string) : bool :=
  match s with
  | String c _ => p c
  | EmptyString => false
  end.

(** Where the scanner is: between tokens, inside a decimal literal, inside a
    block comment, or inside the body of a regular expression literal. *)
Inductive lexmode : Type :=
  | LCode
  | LNum (digits : string)
  | LComment
  | LRegExp (body : string).

Definition opt_cons {A} (o : option A) (k : option (list A)) : option (list A) :=
  match o, k with
  | Some a, Some l => Some (a :: l)
  | _, _ => None
  end.

(** [operand]: the last token ended an operand, so that a [/] divides; after
    an operator or an opening parenthesis it opens a regular expression
    literal. [None] is a SyntaxError. A line comment runs to the end of the
    line, which is the end of the text. [++] and [--] need an assignable
    operand, which these characters cannot spell. A digit right after a
    regular expression literal would be one of its flags, and is none. *)
Fixpoint lex (mode : lexmode) (operand : bool) (s : string)
  : option (list jstoken) :=
  match s with
  | EmptyString =>
      match mode with
      | LCode => Some []
      | LNum ds => opt_cons (numeric_literal ds) (Some [])
      | LComment | LRegExp _ => None
      end
  | String c rest =>
      match mode with
      | LComment =>
          match rest with
          | String c' rest' =>
              if Ascii.eqb c "*" && Ascii.eqb c' "/"
              then lex LCode operand rest'
              else lex LComment operand rest
          | EmptyString => None
          end
      | LRegExp body =>
          if Ascii.eqb c "/" then
            if starts_with is_digit rest || negb (valid_pattern 0 false body)
            then None
            else opt_cons (Some TRegExp) (lex LCode true rest)
          else lex (LRegExp (body +:+ String c "")) operand rest
      | LNum ds =>
          let ds' := ds +:+ String c "" in
          if starts_with is_digit rest then lex (LNum ds') operand rest
          else opt_cons (numeric_literal ds') (lex LCode true rest)
      | LCode =>
          if is_digit c then
            if starts_with is_digit rest
            then lex (LNum (String c "")) operand rest
            else opt_cons (numeric_literal (String c "")) (lex LCode true rest)
          else if Ascii.eqb c "(" then
            opt_cons (Some TLParen) (lex LCode false rest)
          else if Ascii.eqb c ")" then
            opt_cons (Some TRParen) (lex LCode true rest)
          else if Ascii.eqb c "+" then
            if starts_with (Ascii.eqb "+") rest then None
            else opt_cons (Some TPlus) (lex LCode false rest)
          else if Ascii.eqb c "-" then
            if starts_with (Ascii.eqb "-") rest then None
            else opt_cons (Some TMinus) (lex LCode false rest)
          else if Ascii.eqb c "*" then
            match rest with
            | String "*" rest' =>
                opt_cons (Some TStarStar) (lex LCode false rest')
            | _ => opt_cons (Some TStar) (lex LCode false rest)
            end
          else if Ascii.eqb c "/" then
            match rest with
            | String "/" _ => Some []
            | String "*" rest' => lex LComment operand rest'
            | _ =>
                if operand
                then opt_cons (Some TSlash) (lex LCode false rest)
                else lex (LRegExp "") operand rest
            end
          else None
      end
  end.

(** The expressions these tokens can form. A call [f(x)] is left out: no
    value here is callable, so a text with a call raises an exception whether
    or not the rest of it parses. *)
Inductive binop : Type := Add | Sub | Mul | Div | Pow.

Inductive jsexpr : Type :=
  | ENum (n : Z)
  | ERegExp
  | EUnary (negate : bool) (e : jsexpr)
  | EBinary (b : binop) (l r : jsexpr).

(** Operator-precedence parsing with two stacks. An entry of the operator
    stack is an open parenthesis, a prefix [+] or [-], or a binary operator
    waiting for its right operand. *)
Inductive stackop : Type :=
  | SParen
  | SUnary (negate : bool)
  | SBinary (b : binop).

Definition precedence (b : binop) : nat :=
  match b with
  | Add | Sub => 1
  | Mul | Div => 2
  | Pow => 3
  end.

Definition apply_top (o : stackop) (operands : list jsexpr)
  : option (list jsexpr) :=
  match o, operands with
  | SUnary u, e :: es => Some (EUnary u e :: es)
  | SBinary b, r :: l :: es => Some (EBinary b l r :: es)
  | _, _ => None
  end.

(** Is the stacked operator [o] applied before the incoming [b]? A prefix
    operator always is; a binary one when it binds at least as tightly,
    except that [**] associates to the right. *)
Definition applies_before (o : stackop) (b : binop) : bool :=
  match o, b with
  | SParen, _ => false
  | _, Pow => false
  | SUnary _, _ => true
  | SBinary b', _ => (precedence b <=? precedence b')%nat
  end.

Fixpoint reduce_for (b : binop) (ops : list stackop) (operands : list jsexpr)
  : option (list stackop * list jsexpr) :=
  match ops with
  | o :: ops' =>
      if applies_before o b then
        match apply_top o operands with
        | Some operands' => reduce_for b ops' operands'
        | None => None
        end
      else Some (ops, operands)
  | [] => Some ([], operands)
  end.

(** A closing parenthesis applies everything back to its opening one. *)
Fixpoint reduce_to_paren (ops : list stackop) (operands : list jsexpr)
  : option (list stackop * list jsexpr) :=
  match ops with
  | SParen :: ops' => Some (ops', operands)
  | o :: ops' =>
      match apply_top o operands with
      | Some operands' => reduce_to_paren ops' operands'
      | None => None
      end
  | [] => None
  end.

Fixpoint reduce_all (ops : list stackop) (operands : list jsexpr)
  : option jsexpr :=
  match ops with
  | SParen :: _ => None
  | o :: ops' =>
      match apply_top o operands with
      | Some operands' => reduce_all ops' operands'
      | None => None
      end
  | [] =>
      match operands with
      | [e] => Some e
      | _ => None
      end
  end.

Definition binary_token (t : jstoken) : option binop :=
  match t with
  | TPlus => Some Add
  | TMinus => Some Sub
  | TStar => Some Mul
  | TSlash => Some Div
  | TStarStar => Some Pow
  | _ => None
  end.

(** [operand = true]: an operand is expected next. A prefix operator may not
    stand right before the base of [**] (as in [-2**2]): a SyntaxError. An
    opening parenthesis after an operand would be a call. *)
Fixpoint parse (ts : list jstoken) (operand : bool) (ops : list stackop)
    (operands : list jsexpr) : option jsexpr :=
  match ts with
  | [] => if operand then None else reduce_all ops operands
  | t :: ts' =>
      if operand then
        match t with
        | TNum n => parse ts' false ops (ENum n :: operands)
        | TRegExp => parse ts' false ops (ERegExp :: operands)
        | TLParen => parse ts' true (SParen :: ops) operands
        | TPlus => parse ts' true (SUnary false :: ops) operands
        | TMinus => parse ts' true (SUnary true :: ops) operands
        | _ => None
        end
      else
        match t, binary_token t with
        | _, Some b =>
            match b, ops with
            | Pow, SUnary _ :: _ => None
            | _, _ =>
                match reduce_for b ops operands with
                | Some (ops', operands') =>
                    parse ts' true (SBinary b :: ops') operands'
                | None => None
                end
            end
        | TRParen, _ =>
            match reduce_to_paren ops operands with
            | Some (ops', operands') => parse ts' false ops' operands'
            | None => None
            end
        | _, _ => None
        end
  end.

Section WithHost.

Context {host : Host}.

(** Evaluation. [+] concatenates as soon as one side is not a Number; every
    other operator converts both sides to Numbers. *)
Fixpoint eval (e : jsexpr) : value :=
  match e with
  | ENum n => VNum (Z2float n)
  | ERegExp => VRegExp
  | EUnary negate e1 =>
      let x := ToNumber (eval e1) in
      VNum (if negate then (- x)%float else x)
  | EBinary Add l r =>
      match eval l, eval r with
      | VNum x, VNum y => VNum (x + y)%float
      | _, _ => VString
      end
  | EBinary b l r =>
      let x := ToNumber (eval l) in
      let y := ToNumber (eval r) in
      VNum match b with
           | Add => x + y
           | Sub => x - y
           | Mul => x * y
           | Div => x / y
           | Pow => Number_exponentiate x y
           end%float
  end.

(** [new Function('"use strict"; return (' + text + ');')()], for a [text]
    over the sixteen characters (the only texts [safeEval] lets through). The
    host reads the parentheses around [text] together with it. *)
Definition Function_return (text : string) : completion value :=
  match lex LCode false ("(" +:+ text +:+ ")") with
  | Some ts =>
      match parse ts true [] [] with
      | Some e => Return (eval e)
      | None => Throw HostError
      end
  | None => Throw HostError
  end.

(** ** Utils of the component *)

Definition safeEval (expr : string) : completion value :=
  if negb (allowed_text expr) then Throw Unsafe
  else Function_return expr.


(** [tokenize]: [expr.match(/(\d+|\+|\-|\*|\/|\(|\))/g) || []]. The global
    match scans left to right; [run] holds the digits of the match in
    progress. A character that starts no match is passed over. *)
Definition flush (run : string) : list string :=
  match run with
  | EmptyString => []
  | _ => [run]
  end.

Fixpoint match_all (run : string) (s : string) : list string :=
  match s with
  | EmptyString => flush run
  | String c rest =>
      if is_digit c then match_all (run +:+ String c "") rest
      else
        flush run ++ (if is_symbol c then [String c ""] else [])
          ++ match_all "" rest
  end.

Definition tokenize (expr : string) : list string := match_all "" expr.

(** [balancedParens]: [c] is the running count of open parentheses. *)
Fixpoint balanced_from (c : Z) (s : string) : bool :=
  match s with
  | EmptyString => (c =? 0)%Z
  | String ch rest =>
      if Ascii.eqb ch "(" then balanced_from (c + 1) rest
      else if Ascii.eqb ch ")" then
        if (c - 1 <? 0)%Z then false else balanced_from (c - 1) rest
      else balanced_from c rest
  end.

Definition balancedParens (s : string) : bool := balanced_from 0 s.

(** ** Randomness

    The draws [Math.random()] will return, in order. A computation reads
    them one by one; [None] means that a [while] loop was cut off by its
    fuel. *)
Definition stream : Type := nat -> Q.

Definition valid_stream (s : stream) : Prop :=
  forall n, (0 <= s n)%Q /\ (s n < 1)%Q.

Definition Rand (A : Type) : Type := stream -> option (A * stream).

#[global] Instance Rand_ret : MRet Rand := fun A a s => Some (a, s).

#[global] Instance Rand_bind : MBind Rand := fun A B k m s =>
  match m s with
  | Some (a, s') => k a s'
  | None => None
  end.

Definition out_of_fuel {A} : Rand A := fun _ => None.

Definition Math_random : Rand Q :=
  fun s => Some (s 0%nat, fun n => s (S n)).

Definition Qltb (x y : Q) : bool := negb (Qle_bool y x).

(** [Math.floor(Math.random() * (b - a + 1)) + a] *)
Definition randInt (a b : Z) : Rand Z :=
  r ← Math_random;
  mret (Qfloor (r * inject_Z (b - a + 1)) + a)%Z.

(** [Math.random().toString(36).slice(2, 9)] *)
Definition genId : Rand string :=
  r ← Math_random;
  mret (substring 2 7 (Number_toString36 r)).

(** [[newArr[i], newArr[j]] = [newArr[j], newArr[i]]]. Both indices are
    inside the array whenever [shuffleArray] swaps. *)
Definition swap {A} (arr : list A) (i j : nat) : list A :=
  match arr !! i, arr !! j with
  | Some x, Some y => <[j := x]> (<[i := y]> arr)
  | _, _ => arr
  end.

(** The [for] loop of [shuffleArray], from index [i] down to 1. *)
Fixpoint shuffle_from {A} (i : nat) (newArr : list A) : Rand (list A) :=
  match i with
  | O => mret newArr
  | S i' =>
      r ← Math_random;
      let j := Z.to_nat (Qfloor (r * inject_Z (Z.of_nat i + 1))) in
      shuffle_from i' (swap newArr i j)
  end.

Definition shuffleArray {A} (arr : list A) : Rand (list A) :=
  shuffle_from (length arr - 1) arr.

(** [arr[i]] for a Number [i] that is an integer. *)
Definition index {A} (arr : list A) (i : Z) : option A :=
  if (i <? 0)%Z then None else arr !! Z.to_nat i.

(** ** Difficulty *)

Definition OPS : list string := ["+"; "-"; "*"; "/"].

(** The exact value of a finite Number. *)
Definition Q_of_float (x : float) : Q :=
  match Prim2SF x with
  | S754_finite s m e =>
      if (0 <=? e)%Z then inject_Z (cond_Zopp s (Zpos m) * 2 ^ e)
      else Qmake (cond_Zopp s (Zpos m)) (Z.to_pos (2 ^ (- e)))
  | _ => 0%Q
  end.

(** [getOperatorWeights]: the entries of the object, in insertion order. *)
Definition getOperatorWeights (level : Z) : list (string * float) :=
  if (level <=? 3)%Z then
    [("+", 0.5); ("-", 0x1.3333333333333p-2); ("*", 0x1.3333333333333p-3);
     ("/", 0x1.999999999999ap-5)]%float
  else if (level <=? 6)%Z then
    [("+", 0x1.3333333333333p-2); ("-", 0x1.999999999999ap-3);
     ("*", 0x1.6666666666666p-2); ("/", 0x1.3333333333333p-3)]%float
  else
    [("+", 0x1.999999999999ap-3); ("-", 0x1.3333333333333p-3);
     ("*", 0x1.3333333333333p-2); ("/", 0x1.6666666666666p-2)]%float.

(** The loop of [getWeightedRandomOperator]; the sum is the host's. *)
Fixpoint weighted_pick (random : Q) (cumulative : float)
    (entries : list (string * float)) : string :=
  match entries with
  | (op, weight) :: rest =>
      let cumulative' := (cumulative + weight)%float in
      if Qle_bool random (Q_of_float cumulative') then op
      else weighted_pick random cumulative' rest
  | [] => "+"
  end.

Definition getWeightedRandomOperator (weights : list (string * float))
  : Rand string :=
  random ← Math_random;
  mret (weighted_pick random 0%float weights).

Definition getTimerDurationForLevel (level : Z) : Z :=
  let baseTime := 60%Z in
  let timeBonus := Z.max 0 (10 - (level - 1) * 2) in
  Z.max 30 (baseTime + timeBonus).

(** ** The expression generator *)

(** [String(n)] for an integer Number below 2^53: its decimal digits. *)
Definition String_of (n : Z) : string := NilEmpty.string_of_int (Z.to_int n).

Record item : Type := { expr : string; val : value }.

(** [while (j === i) j = randInt(0, items.length - 1)] *)
Fixpoint pick_other (fuel : nat) (i j n : Z) : Rand Z :=
  if (j =? i)%Z then
    match fuel with
    | O => out_of_fuel
    | S fuel' => j' ← randInt 0 (n - 1); pick_other fuel' i j' n
    end
  else mret j.

(** [opsCopy.shift() ?? OPS[Math.floor(Math.random() * OPS.length)]]; the
    index is below 4 for a draw in [0, 1). *)
Definition next_op (opsCopy : list string) : Rand (string * list string) :=
  match opsCopy with
  | op :: rest => mret (op, rest)
  | [] =>
      r ← Math_random;
      let k := Z.to_nat (Qfloor (r * inject_Z (Z.of_nat (length OPS)))) in
      mret (nth k OPS "undefined", [])
  end.

Definition paren_expr (a b : item) (op : string) : string :=
  "(" +:+ expr a +:+ op +:+ expr b +:+ ")".

(** The [try] block up to its [throw]: the combined item, or [None] when
    control goes to the [catch]. *)
Definition try_reduce (a b : item) (op : string) : option item :=
  let newExpr := paren_expr a b op in
  match safeEval newExpr with
  | Return newVal =>
      if Number_isFinite newVal
      then Some {| expr := newExpr; val := newVal |}
      else None
  | Throw _ => None
  end.

(** One pass through the body of the [while] loop of [buildRandomExpr]. The
    flag tells which branch ran: [true] for a reduction, [false] for the
    [catch]. An index outside the array cannot be drawn; there [a.expr] would
    raise a TypeError, outside the [try]. *)
Definition reduce_once (fuel : nat) (items : list item) (opsCopy : list string)
  : Rand (completion (bool * list item * list string)) :=
  let n := Z.of_nat (length items) in
  i ← randInt 0 (n - 1);
  j0 ← randInt 0 (n - 1);
  j ← pick_other fuel i j0 n;
  '(op, opsCopy) ← next_op opsCopy;
  r ← Math_random;
  let leftFirst := Qltb r (1 # 2) in
  match index items i, index items j with
  | Some item_i, Some item_j =>
      let a := if leftFirst then item_i else item_j in
      let b := if leftFirst then item_j else item_i in
      match try_reduce a b op with
      | Some combined =>
          let spliced :=
            delete (Z.to_nat (Z.min i j)) (delete (Z.to_nat (Z.max i j)) items) in
          items' ← shuffleArray (spliced ++ [combined]);
          mret (Return (true, items', opsCopy))
      | None =>
          items' ← shuffleArray items;
          mret (Return (false, items', op :: opsCopy))
      end
  | _, _ => mret (Throw HostError)
  end.

(** The [while (items.length > 1)] loop and the [return items[0].expr]
    after it ([items[0]] is undefined for an empty list). [reductions] is a
    ghost counter of the passes that took the reducing branch; it is
    returned beside the expression. *)
Fixpoint reduce_loop (fuel : nat) (items : list item) (opsCopy : list string)
    (reductions : nat) : Rand (completion (string * nat)) :=
  if (length items <=? 1)%nat then
    mret match items with
         | it :: _ => Return (expr it, reductions)
         | [] => Throw HostError
         end
  else
    match fuel with
    | O => out_of_fuel
    | S fuel' =>
        c ← reduce_once fuel items opsCopy;
        match c with
        | Return (reduced, items', opsCopy') =>
            reduce_loop fuel' items' opsCopy'
              (if reduced : bool then S reductions else reductions)
        | Throw e => mret (Throw e)
        end
    end.

Definition initial_items (numbers : list Z) : list item :=
  map (fun n => {| expr := String_of n; val := VNum (Z2float n) |}) numbers.

Definition buildRandomExpr (fuel : nat) (numbers : list Z) (ops : list string)
  : Rand (completion string) :=
  c ← reduce_loop fuel (initial_items numbers) ops 0;
  mret match c with
       | Return (e, _) => Return e
       | Throw e => Throw e
       end.

(** ** State of the component *)

(** An entry of [availableTokens] and an entry of [equationTokens]. *)
Record pooltoken : Type := { id : string; token : string; used : bool }.
Record placed : Type := { placed_id : string; placed_token : string }.

Record game : Type := {
  currentLevel : Z;
  timeLeft : Z;
  targetValue : option float;
  originalExpr : string;
  originalTokens : list string;
  availableTokens : list pooltoken;
  equationTokens : list placed;
  solutionVisible : bool
}.

Definition set_board (pool : list pooltoken) (equation : list placed)
    (visible : bool) (g : game) : game :=
  {| currentLevel := currentLevel g;
     timeLeft := timeLeft g;
     targetValue := targetValue g;
     originalExpr := originalExpr g;
     originalTokens := originalTokens g;
     availableTokens := pool;
     equationTokens := equation;
     solutionVisible := visible |}.

Definition set_used (u : bool) (t : pooltoken) : pooltoken :=
  {| id := id t; token := token t; used := u |}.

(** ** The round generator *)

Definition ATTEMPT_LIMIT : nat := 400.

(** [Array.from({ length: n }, () => randInt(1, maxNumber))] *)
Fixpoint gen_numbers (n : nat) (maxNumber : Z) : Rand (list Z) :=
  match n with
  | O => mret []
  | S n' =>
      x ← randInt 1 maxNumber;
      rest ← gen_numbers n' maxNumber;
      mret (x :: rest)
  end.

(** [Array.from({ length: n }, () => getWeightedRandomOperator(opWeights))] *)
Fixpoint gen_ops (n : nat) (opWeights : list (string * float))
  : Rand (list string) :=
  match n with
  | O => mret []
  | S n' =>
      op ← getWeightedRandomOperator opWeights;
      rest ← gen_ops n' opWeights;
      mret (op :: rest)
  end.

(** [tokens.map(t => ({ id: genId(), token: t, used: false }))] *)
Fixpoint make_available (tokens : list string) : Rand (list pooltoken) :=
  match tokens with
  | [] => mret []
  | t :: rest =>
      i ← genId;
      more ← make_available rest;
      mret ({| id := i; token := t; used := false |} :: more)
  end.

(** The [try] block of an attempt up to its last [continue]: the rounded
    value when the expression is accepted. *)
Definition accept (expr : string) : option float :=
  match safeEval expr with
  | Return val =>
      if negb (Number_isFinite val) then None
      else if off_integer (ToNumber val) then None
      else
        let rounded := Math_round (ToNumber val) in
        if (1000 <? Math_abs rounded)%float then None else Some rounded
  | Throw _ => None
  end.

(** The state a round leaves: the puzzle, a fresh shuffled pool, an empty
    equation. *)
Definition start_round (expr : string) (target : float) (g : game)
  : Rand game :=
  let tokens := tokenize expr in
  available ← make_available tokens;
  pool ← shuffleArray available;
  mret {| currentLevel := currentLevel g;
          timeLeft := getTimerDurationForLevel (currentLevel g);
          targetValue := Some target;
          originalExpr := expr;
          originalTokens := tokens;
          availableTokens := pool;
          equationTokens := [];
          solutionVisible := false |}.

(** [count] of [newRound]: [numCount || Math.min(...)]. *)
Definition round_count (numCount : option Z) (level : Z) : Z :=
  match numCount with
  | Some n => if (n =? 0)%Z then Z.min (3 + (level - 1) / 3) 6 else n
  | None => Z.min (3 + (level - 1) / 3) 6
  end.

Definition max_number (level : Z) : Z := Z.min 9 (3 + level / 2).

(** What one attempt draws and builds, before its [try]. *)
Definition attempt_expr (fuel : nat) (level count : Z)
  : Rand (completion string) :=
  let maxNumber := max_number level in
  numbers ← gen_numbers (Z.to_nat count) maxNumber;
  let opWeights := getOperatorWeights level in
  ops ← gen_ops (Z.to_nat (count - 1)) opWeights;
  buildRandomExpr fuel numbers ops.

(** The [while (tries < ATTEMPT_LIMIT)] loop with [remaining] attempts to
    go, and the fallback after it. *)
Fixpoint newRound_loop (fuel : nat) (remaining : nat) (count : Z) (g : game)
  : Rand (completion game) :=
  match remaining with
  | O => g' ← start_round "(3+4)*2" 14%float g; mret (Return g')
  | S remaining' =>
      c ← attempt_expr fuel (currentLevel g) count;
      match c with
      | Return expr =>
          match accept expr with
          | Some rounded => g' ← start_round expr rounded g; mret (Return g')
          | None => newRound_loop fuel remaining' count g
          end
      | Throw e => mret (Throw e)
      end
  end.

Definition newRound (fuel : nat) (numCount : option Z) (g : game)
  : Rand (completion game) :=
  newRound_loop fuel ATTEMPT_LIMIT (round_count numCount (currentLevel g)) g.

(** ** The equation builder *)

(** [index] is an index of the array, as the click handlers pass it. *)
Definition addToEquation (index : nat) (g : game) : completion game :=
  match availableTokens g !! index with
  | None => Throw HostError
  | Some t =>
      if used t then Return g
      else
        Return
          (set_board (<[index := set_used true t]> (availableTokens g))
             (equationTokens g
                ++ [{| placed_id := id t; placed_token := token t |}])
             (solutionVisible g) g)
  end.

(** [removed.id] raises a TypeError when there is no entry at [index]; the
    callback of [map] reads it for the first pool token. *)
Definition removeFromEquation (index : nat) (g : game) : completion game :=
  match equationTokens g !! index, availableTokens g with
  | None, [] => Return g
  | None, _ :: _ => Throw HostError
  | Some removed, _ =>
      Return
        (set_board
           (map (fun t =>
                   if String.eqb (id t) (placed_id removed)
                   then set_used false t else t)
              (availableTokens g))
           (delete index (equationTokens g))
           (solutionVisible g) g)
  end.

Definition resetEquation (g : game) : game :=
  set_board (map (set_used false) (availableTokens g)) [] false g.

(** The state after an event: what the handler returned, or the state as it
    was when the handler raised an exception (the one array stored before
    an exception equals the one it replaces). *)
Definition after (c : completion game) (g : game) : game :=
  match c with
  | Return g' => g'
  | Throw _ => g
  end.

(** [newAvailable.findIndex(t => !t.used && t.token === tok)], with the
    entry found. *)
Fixpoint find_unused (tok : string) (pool : list pooltoken)
  : option (nat * pooltoken) :=
  match pool with
  | [] => None
  | t :: rest =>
      if negb (used t) && String.eqb (token t) tok then Some (O, t)
      else
        match find_unused tok rest with
        | Some (i, t') => Some (S i, t')
        | None => None
        end
  end.

(** The [forEach] of [revealSolution]. *)
Fixpoint reveal_each (toks : list string) (newAvailable : list pooltoken)
    (newEquation : list placed) : Rand (list pooltoken * list placed) :=
  match toks with
  | [] => mret (newAvailable, newEquation)
  | tok :: rest =>
      match find_unused tok newAvailable with
      | Some (idx, t) =>
          reveal_each rest (<[idx := set_used true t]> newAvailable)
            (newEquation ++ [{| placed_id := id t; placed_token := token t |}])
      | None =>
          i ← genId;
          reveal_each rest newAvailable
            (newEquation ++ [{| placed_id := i; placed_token := tok |}])
      end
  end.

Definition revealSolution (g : game) : Rand game :=
  let newAvailable := map (set_used false) (availableTokens g) in
  '(newAvailable, newEquation) ← reveal_each (originalTokens g) newAvailable [];
  mret (set_board newAvailable newEquation true g).

(** ** The checker *)

(** What [checkEquation] shows. With [Correct] the score grows by 10 and
    the popup is ['correct']; every other outcome opens the ['wrongAnswer']
    popup with a result and one of five messages:
    [InvalidGrammar] null, 'Invalid characters detected.';
    [UnbalancedParens] null, 'Parentheses are not balanced.';
    [EvaluationError] null, 'Cannot evaluate - check syntax.';
    [NotWholeNumber val] val, 'Must evaluate to a whole number.';
    [WrongAnswer rounded] rounded, 'Try rearranging the pieces!'. *)
Inductive outcome : Type :=
  | InvalidGrammar
  | UnbalancedParens
  | EvaluationError
  | NotWholeNumber (v : value)
  | WrongAnswer (rounded : float)
  | Correct.

(** [rounded === targetValue], the target being a Number or [null]. *)
Definition strict_equal (x : float) (target : option float) : bool :=
  match target with
  | Some t => (x =? t)%float
  | None => false
  end.

(** [checkEquation] on the text of the equation. *)
Definition check_text (exprStr : string) (target : option float) : outcome :=
  let cleanExprStr := strip_spaces exprStr in
  if negb (allowed_text cleanExprStr) then InvalidGrammar
  else if negb (balancedParens cleanExprStr) then UnbalancedParens
  else
    match safeEval cleanExprStr with
    | Return val =>
        let rounded := Math_round (ToNumber val) in
        if off_integer (ToNumber val) then NotWholeNumber val
        else if strict_equal rounded target then Correct
        else WrongAnswer rounded
    | Throw _ => EvaluationError
    end.

Definition checkEquation (g : game) : outcome :=
  check_text (join (map placed_token (equationTokens g))) (targetValue g).

(** ** The rest of the component *)

(** [equationTokens.length === availableTokens.length
    && equationTokens.length > 0]: with it, and the solution not shown, the
    "Check Solution" button is rendered. *)
Definition allTokensUsed (g : game) : bool :=
  (length (equationTokens g) =? length (availableTokens g))%nat
  && (0 <? length (equationTokens g))%nat.

(** The popups of [activePopup]. *)
Inductive popup : Type :=
  | welcome
  | timeUp
  | correct
  | wrongAnswer.

(** The countdown: [timeLeft], whether the interval of [timerRef] is
    running, and [activePopup] ([null] is [None]). *)
Record countdown : Type := {
  seconds : Z;
  running : bool;
  activePopup : option popup
}.

(** [startTimer(seconds)]: an interval that runs is cleared, the time is
    set, a new interval starts. *)
Definition startTimer (secs : Z) (c : countdown) : countdown :=
  {| seconds := secs; running := true; activePopup := activePopup c |}.

(** The callback of the interval, called once a second while it runs:
    [setTimeLeft(prev => ...)]. *)
Definition tick (c : countdown) : countdown :=
  if running c then
    if (seconds c <=? 1)%Z then
      {| seconds := 0; running := false; activePopup := Some timeUp |}
    else
      {| seconds := seconds c - 1; running := true;
         activePopup := activePopup c |}
  else c.

(** The level of a state. *)
Definition set_level (level : Z) (g : game) : game :=
  {| currentLevel := level;
     timeLeft := timeLeft g;
     targetValue := targetValue g;
     originalExpr := originalExpr g;
     originalTokens := originalTokens g;
     availableTokens := availableTokens g;
     equationTokens := equationTokens g;
     solutionVisible := solutionVisible g |}.

(** [nextLevel]: [setCurrentLevel(currentLevel + 1)], then [newRound()].
    The [newRound] called is the one of the render in which the button was
    clicked: its [currentLevel] is the level before the click. (The request
    of [saveProgress] is not part of the state.) *)
Definition nextLevel (fuel : nat) (g : game) : Rand (completion game) :=
  let next := (currentLevel g + 1)%Z in
  c ← newRound fuel None g;
  mret match c with
       | Return g' => Return (set_level next g')
       | Throw e => Throw e
       end.

(** [currentQuestionRef.current]: the puzzle that an accepted attempt of
    [newRound] records ([originalExpr], [originalTokens], [targetValue],
    [numCount]). *)
Record question : Type := {
  question_expr : string;
  question_tokens : list string;
  question_target : float;
  question_count : Z
}.

(** [newRound] with [currentQuestionRef] beside the state: the ref is
    assigned in the branch that accepts an attempt, and nowhere else. *)
Fixpoint newRound_ref_loop (fuel : nat) (remaining : nat) (count : Z)
    (g : game) (ref : option question)
  : Rand (completion (game * option question)) :=
  match remaining with
  | O => g' ← start_round "(3+4)*2" 14%float g; mret (Return (g', ref))
  | S remaining' =>
      c ← attempt_expr fuel (currentLevel g) count;
      match c with
      | Return expr =>
          match accept expr with
          | Some rounded =>
              g' ← start_round expr rounded g;
              mret (Return (g', Some {| question_expr := expr;
                                        question_tokens := tokenize expr;
                                        question_target := rounded;
                                        question_count := count |}))
          | None => newRound_ref_loop fuel remaining' count g ref
          end
      | Throw e => mret (Throw e)
      end
  end.

Definition newRound_ref (fuel : nat) (numCount : option Z) (g : game)
    (ref : option question) : Rand (completion (game * option question)) :=
  newRound_ref_loop fuel ATTEMPT_LIMIT (round_count numCount (currentLevel g))
    g ref.

(** [replayCurrentQuestion]: a new round when no question is recorded;
    otherwise the recorded puzzle with a new pool and the time of the
    level. *)
Definition replayCurrentQuestion (fuel : nat) (g : game)
    (ref : option question) : Rand (completion (game * option question)) :=
  match ref with
  | None => newRound_ref fuel None g ref
  | Some q =>
      available ← make_available (question_tokens q);
      pool ← shuffleArray available;
      mret (Return ({| currentLevel := currentLevel g;
                       timeLeft := getTimerDurationForLevel (currentLevel g);
                       targetValue := Some (question_target q);
                       originalExpr := question_expr q;
                       originalTokens := question_tokens q;
                       availableTokens := pool;
                       equationTokens := [];
                       solutionVisible := false |}, ref))
  end.

(** The hints of [showHintShort], by what they say: that parentheses are
    needed; the first operator (shown by a name of its own); how many of each
    of the four operators there are; that the expression starts with a
    parenthesis, or else its first piece ([None] for [undefined]); that it
    ends with a parenthesis. *)
Inductive hint : Type :=
  | HintParentheses
  | HintFirstOperator (op : string)
  | HintOperatorCounts (plus minus times divide : nat)
  | HintStartsWithParen
  | HintFirstPiece (tok : option string)
  | HintEndsWithParen.

(** [s.includes('(')] and [/[()]/.test(tok)]; the text of [undefined] has
    no parenthesis. *)
Definition includes_open (s : string) : bool :=
  negb (string_forall (fun c => negb (Ascii.eqb c "(")) s).

Definition has_paren (tok : option string) : bool :=
  match tok with
  | Some t =>
      negb (string_forall
              (fun c => negb (Ascii.eqb c "(" || Ascii.eqb c ")")) t)
  | None => false
  end.

(** [counts[op] || 0], for the [counts] that the [reduce] builds. *)
Definition count_op (op : string) (ops : list string) : nat :=
  length (List.filter (String.eqb op) ops).

(** The array [hints]. *)
Definition hint_candidates (g : game) : list hint :=
  let needsParens := includes_open (originalExpr g) in
  let ops :=
    List.filter (fun t => existsb (String.eqb t) OPS) (originalTokens g) in
  let firstTok := head (originalTokens g) in
  let lastTok := last (originalTokens g) in
  (if needsParens then [HintParentheses] else [])
  ++ match ops with
     | firstOp :: _ => [HintFirstOperator firstOp]
     | [] => []
     end
  ++ [HintOperatorCounts (count_op "+" ops) (count_op "-" ops)
        (count_op "*" ops) (count_op "/" ops)]
  ++ [if has_paren firstTok then HintStartsWithParen
      else HintFirstPiece firstTok]
  ++ (if has_paren lastTok then [HintEndsWithParen] else []).

(** [showHintShort] on the state [hint]: nothing without an expression;
    otherwise [hints[Math.floor(Math.random() * hints.length)]]. (The timer
    that clears the hint after ten seconds is left out.) *)
Definition showHintShort (g : game) (shown : option hint)
  : Rand (option hint) :=
  match originalExpr g with
  | EmptyString => mret shown
  | _ =>
      let hints := hint_candidates g in
      r ← Math_random;
      mret (index hints (Qfloor (r * inject_Z (Z.of_nat (length hints)))))
  end.

(** ** Notions used by the statements *)

(** A fully parenthesized expression over integer operands: every
    combination of two expressions is wrapped in its own parentheses. *)
Inductive tree : Type :=
  | Leaf (n : Z)
  | Node (l : tree) (op : string) (r : tree).

Fixpoint render (t : tree) : string :=
  match t with
  | Leaf n => String_of n
  | Node l op r => "(" +:+ render l +:+ op +:+ render r +:+ ")"
  end.

Fixpoint leaves (t : tree) : list Z :=
  match t with
  | Leaf n => [n]
  | Node l _ r => leaves l ++ leaves r
  end.

Fixpoint nodes (t : tree) : nat :=
  match t with
  | Leaf _ => 0
  | Node l _ r => S (nodes l + nodes r)
  end.

(** The player's moves on the board. *)
Inductive move : Type :=
  | Place (i : nat)
  | Unplace (j : nat)
  | Reset.

Definition play (g : game) (m : move) : game :=
  match m with
  | Place i => after (addToEquation i g) g
  | Unplace j => after (removeFromEquation j g) g
  | Reset => resetEquation g
  end.

Definition play_all (moves : list move) (g : game) : game :=
  fold_left play moves g.

(** The pool tokens marked consumed, and the texts of the others. *)
Definition consumed (pool : list pooltoken) : list pooltoken :=
  filter (fun t => used t = true) pool.

Definition available_texts (pool : list pooltoken) : list string :=
  map token (filter (fun t => used t = false) pool).

(** [n] attempts in a row, each building an expression that the filter of
    [newRound] rejects, take the draws from [s] to [s']. *)
Inductive rejected_attempts (fuel : nat) (level count : Z)
  : nat -> stream -> stream -> Prop :=
  | rejected_none (s : stream) : rejected_attempts fuel level count 0 s s
  | rejected_next (n : nat) (s s1 s2 : stream) (e : string) :
      attempt_expr fuel level count s = Some (Return e, s1) ->
      accept e = None ->
      rejected_attempts fuel level count n s1 s2 ->
      rejected_attempts fuel level count (S n) s s2.

End WithHost.

(** ** A host for the examples

    Powers: repeated squaring for the integral part of the exponent, repeated
    square roots for its fractional bits, after the cases ECMAScript fixes.
    [toString(36)]: the digits of the fraction, eleven at most. *)

Fixpoint pow_pos (x : float) (n : positive) : float :=
  match n with
  | xH => x
  | xO p => let y := pow_pos x p in (y * y)%float
  | xI p => let y := pow_pos x p in (x * (y * y))%float
  end.

Definition pow_Z (x : float) (n : Z) : float :=
  match n with
  | Z0 => 1%float
  | Zpos p => pow_pos x p
  | Zneg p => (1 / pow_pos x p)%float
  end.

(** A finite [y] as [n + f / 2^k] with [0 <= f < 2^k]. *)
Definition split_exponent (y : float) : option (Z * Z * nat) :=
  match Prim2SF y with
  | S754_zero _ => Some (0, 0, O)%Z
  | S754_finite s m e =>
      if (0 <=? e)%Z then Some (cond_Zopp s (Zpos m * 2 ^ e), 0, O)%Z
      else
        let d := (2 ^ (- e))%Z in
        let v := cond_Zopp s (Zpos m) in
        Some (v / d, v mod d, Z.to_nat (- e))%Z
  | _ => None
  end.

(** [x ^ (f / 2^k)]: the product of the roots [x ^ (1 / 2^i)] at the bits of
    [f]. *)
Fixpoint frac_pow (k : nat) (f : Z) (r : float) : float :=
  match k with
  | O => 1%float
  | S k' =>
      let r' := sqrt r in
      let rest := frac_pow k' f r' in
      if Z.testbit f (Z.of_nat k') then (r' * rest)%float else rest
  end.

Definition reference_pow (x y : float) : float :=
  if is_nan y then nan
  else if is_zero y then 1%float
  else if is_nan x then nan
  else
    match split_exponent y with
    | None =>
        if (Math_abs x =? 1)%float then nan
        else if Bool.eqb (1 <? Math_abs x)%float (0 <? y)%float then infinity
        else 0%float
    | Some (n, f, k) =>
        if (f =? 0)%Z then pow_Z x n
        else if is_zero x || is_infinity x then
          if Bool.eqb (is_zero x) (0 <? y)%float then 0%float else infinity
        else if (x <? 0)%float then nan
        else (pow_Z x n * frac_pow k f x)%float
    end.

Definition digit36 (d : Z) : ascii :=
  ascii_of_nat (Z.to_nat (if (d <? 10)%Z then 48 + d else 87 + d)).

Fixpoint fraction36 (n : nat) (r : Q) : string :=
  match n with
  | O => ""
  | S n' =>
      if Qeq_bool r 0 then ""
      else
        let x := Qred (r * 36) in
        String (digit36 (Qfloor x)) (fraction36 n' (x - inject_Z (Qfloor x)))
  end.

Definition reference_toString36 (r : Q) : string :=
  if Qeq_bool r 0 then "0" else "0." +:+ fraction36 11 r.

Definition reference_host : Host :=
  {| Number_exponentiate := reference_pow;
     Number_toString36 := reference_toString36 |}.

(** Streams for the examples: a list of draws, then [rest] forever. *)
Definition draws (l : list Q) (rest : Q) : stream := fun n => nth n l rest.

(** ** Notions used by the proofs *)

(** The id and text of a pool token and of an equation entry. *)
Definition pool_entry (t : pooltoken) : string * string := (id t, token t).
Definition placed_entry (p : placed) : string * string :=
  (placed_id p, placed_token p).

(** The board invariant: the equation sequence lists, in some order, the
    id and text of every pool token marked consumed, and the pool keeps the
    ids and texts it was built with, in their order. *)
Definition board_ok (pool0 : list pooltoken) (g : game) : Prop :=
  map pool_entry (availableTokens g) = map pool_entry pool0
  /\ map pool_entry (consumed (availableTokens g))
     ≡ₚ map placed_entry (equationTokens g).


(** ** Notions used by the further statements *)

(** The draws of [s'] are those of [s] after some of them were read. *)
Definition advances (s s' : stream) : Prop :=
  exists k : nat, forall n : nat, s' n = s (k + n)%nat.

(** A computation that only reads draws. *)
Definition advancing {A} (m : Rand A) : Prop :=
  forall (s s' : stream) (a : A), m s = Some (a, s') -> advances s s'.

(** How many more parentheses a text opens than it closes. *)
Fixpoint count_char (c : ascii) (s : string) : Z :=
  match s with
  | EmptyString => 0
  | String x rest => (if Ascii.eqb x c then 1 else 0) + count_char c rest
  end.

Definition depth (s : string) : Z := count_char "(" s - count_char ")" s.

(** A token of [tokenize]: a run of digits, or one operator or parenthesis. *)
Definition is_number_token (t : string) : Prop :=
  t <> "" /\ string_forall is_digit t = true.

Definition is_symbol_token (t : string) : Prop :=
  exists c : ascii, is_symbol c = true /\ t = String c "".

(** The cumulative weights of a level as [getWeightedRandomOperator] adds
    them in binary64, for the first three operators, and the decimal
    fractions, in percent, that they stand for. *)
Definition operator_cuts (level : Z) : Q * Q * Q :=
  if (level <=? 3)%Z then
    (1 # 2, 3602879701896397 # 4503599627370496,
     8556839292003943 # 9007199254740992)%Q
  else if (level <=? 6)%Z then
    (5404319552844595 # 18014398509481984, 1 # 2,
     7656119366529843 # 9007199254740992)%Q
  else
    (3602879701896397 # 18014398509481984,
     3152519739159347 # 9007199254740992,
     1463669878895411 # 2251799813685248)%Q.

Definition operator_percents (level : Z) : Z * Z * Z :=
  if (level <=? 3)%Z then (50, 80, 95)%Z
  else if (level <=? 6)%Z then (30, 50, 85)%Z
  else (20, 35, 65)%Z.

(** The operator for a draw [r], by cuts of the unit interval. *)
Definition cut_operator (r : Q) (cuts : Q * Q * Q) : string :=
  if Qle_bool r cuts.1.1 then "+"
  else if Qle_bool r cuts.1.2 then "-"
  else if Qle_bool r cuts.2 then "*"
  else "/".

(** [c] is within 10^-15 of [p] percent. *)
Definition near_percent (c : Q) (p : Z) : Prop :=
  ((p # 100) - (1 # 1000000000000000) <= c)%Q
  /\ (c <= (p # 100) + (1 # 1000000000000000))%Q.

(** The operators of a fully parenthesized expression, from left to right,
    and its tokens. *)
Fixpoint tree_ops (t : tree) : list string :=
  match t with
  | Leaf _ => []
  | Node l op r => tree_ops l ++ op :: tree_ops r
  end.

Fixpoint tree_tokens (t : tree) : list string :=
  match t with
  | Leaf n => [String_of n]
  | Node l op r => "(" :: tree_tokens l ++ op :: tree_tokens r ++ [")"]
  end.

(** The items are fully parenthesized expressions over the operands, each
    operand in exactly one of them, and their operators are [used]. *)
Definition items_using (numbers : list Z) (used : list string)
    (items : list item) : Prop :=
  exists ts : list tree,
    Forall2 (fun it t => expr it = render t) items ts
    /\ concat (map leaves ts) ≡ₚ numbers
    /\ concat (map tree_ops ts) ≡ₚ used.

(** A text without parentheses. *)
Definition no_parens (s : string) : bool :=
  string_forall (fun c => negb (Ascii.eqb c "(" || Ascii.eqb c ")")) s.

(** The pool tokens that are not marked consumed. *)
Definition unused (pool : list pooltoken) : list pooltoken :=
  filter (fun t => used t = false) pool.

(** Every entry of the equation has the id and text of a pool token. *)
Definition from_pool (pool : list pooltoken) (equation : list placed) : Prop :=
  Forall (fun p => placed_entry p ∈ map pool_entry pool) equation.

(** The clicks on the pool that spell [toks]: for each token the first pool
    token not yet taken that shows it. *)
Fixpoint solution_clicks (toks : list string) (pool : list pooltoken)
  : list nat :=
  match toks with
  | [] => []
  | tok :: rest =>
      match find_unused tok pool with
      | Some (idx, t) =>
          idx :: solution_clicks rest (<[idx := set_used true t]> pool)
      | None => solution_clicks rest pool
      end
  end.

(** The Number a fully parenthesized expression denotes, each operator
    being the binary64 operation of the host, and the way the host reads the
    expression: its tokens and its syntax tree. *)
Definition binop_of (op : string) : option binop :=
  if String.eqb op "+" then Some Add
  else if String.eqb op "-" then Some Sub
  else if String.eqb op "*" then Some Mul
  else if String.eqb op "/" then Some Div
  else None.

Fixpoint tree_value (t : tree) : float :=
  match t with
  | Leaf n => Z2float n
  | Node l op r =>
      match binop_of op with
      | Some Add => tree_value l + tree_value r
      | Some Sub => tree_value l - tree_value r
      | Some Mul => tree_value l * tree_value r
      | Some Div => tree_value l / tree_value r
      | _ => nan
      end%float
  end.

Definition binop_token (b : binop) : jstoken :=
  match b with
  | Add => TPlus
  | Sub => TMinus
  | Mul => TStar
  | Div => TSlash
  | Pow => TStarStar
  end.

Fixpoint tree_jstokens (t : tree) : list jstoken :=
  match t with
  | Leaf n => [TNum n]
  | Node l op r =>
      match binop_of op with
      | Some b =>
          TLParen :: tree_jstokens l ++ binop_token b :: tree_jstokens r
            ++ [TRParen]
      | None => []
      end
  end.

Fixpoint tree_jsexpr (t : tree) : jsexpr :=
  match t with
  | Leaf n => ENum n
  | Node l op r =>
      match binop_of op with
      | Some b => EBinary b (tree_jsexpr l) (tree_jsexpr r)
      | None => ERegExp
      end
  end.

(** Every sub-expression has a finite value: no quotient by zero, no
    overflow. *)
Fixpoint all_finite (t : tree) : bool :=
  match t with
  | Leaf n => is_finite (Z2float n)
  | Node l op r => is_finite (tree_value t) && all_finite l && all_finite r
  end.

(** Tokens before the tokens of the rest, when the rest has tokens. *)
Definition opt_app {A} (l : list A) (o : option (list A)) : option (list A) :=
  match o with
  | Some l' => Some (l ++ l')
  | None => None
  end.

(** The items are generated expressions with the values the host gives
    them, every sub-expression finite. *)
Definition items_valued (numbers : list Z) (used : list string)
    (items : list item) : Prop :=
  exists ts : list tree,
    Forall2 (fun it t => expr it = render t
                         /\ val it = VNum (tree_value t)
                         /\ all_finite t = true) items ts
    /\ concat (map leaves ts) ≡ₚ numbers
    /\ concat (map tree_ops ts) ≡ₚ used.

(** No divisor in the expression has the value zero. *)
Fixpoint no_zero_divisor (t : tree) : bool :=
  match t with
  | Leaf _ => true
  | Node l op r =>
      (if String.eqb op "/" then negb (tree_value r =? 0)%float else true)
      && no_zero_divisor l && no_zero_divisor r
  end.

(** The state of a completion, without the ref. *)
Definition state_of (c : completion (game * option question))
  : completion game :=
  match c with
  | Return (g, _) => Return g
  | Throw e => Throw e
  end.

(** The question that records the puzzle of [g]. *)
Definition question_of (g : game) (count : Z) : option question :=
  match targetValue g with
  | Some target =>
      Some {| question_expr := originalExpr g;
              question_tokens := originalTokens g;
              question_target := target;
              question_count := count |}
  | None => None
  end.

Fixpoint last_char (s : string) : option ascii :=
  match s with
  | EmptyString => None
  | String c EmptyString => Some c
  | String _ rest => last_char rest
  end.

(** The board with the [hint] state beside it. Of the three moves only
    [resetEquation] touches the hint, by its [setHint(null)]. *)
Record board_view : Type := { view_game : game; view_hint : option hint }.

Definition is_reset (m : move) : bool :=
  match m with
  | Reset => true
  | _ => false
  end.

Definition play_view (v : board_view) (m : move) : board_view :=
  {| view_game := play (view_game v) m;
     view_hint := if is_reset m then None else view_hint v |}.

Definition play_all_view (moves : list move) (v : board_view) : board_view :=
  fold_left play_view moves v.

(** 2^-49: a binary64 product of a draw and a cap up to 9 is this close to
    the exact product, and the integers up to 9 less 2^-49 are Numbers. *)
Definition product_margin : Q := 1 # 562949953421312.

(** The draw [r] makes [randInt(1, cap)] return [x]: [r * cap] is in
    [[x - 1, x)], short of [x] by the margin at least. *)
Definition draw_gives (cap : Z) (r : Q) (x : Z) : Prop :=
  (inject_Z (x - 1) <= r * inject_Z cap)%Q
  /\ (r * inject_Z cap <= inject_Z x - product_margin)%Q.

(** What the operand [x] says of the draw [r] that [randInt(1, cap)] made
    it of: [r * cap] is below [x], and not below [x - 1] by more than the
    margin. *)
Definition operand_of_draw (cap : Z) (r : Q) (x : Z) : Prop :=
  (inject_Z (x - 1) - product_margin <= r * inject_Z cap)%Q
  /\ (r * inject_Z cap < inject_Z x)%Q.

(** ** Data of the examples *)

(** The state of the component before its first round. *)
Definition initial_game : game :=
  {| currentLevel := 1;
     timeLeft := 60;
     targetValue := None;
     originalExpr := "";
     originalTokens := [];
     availableTokens := [];
     equationTokens := [];
     solutionVisible := false |}.

Definition two_token_game (id1 id2 : string) (used2 : bool) : game :=
  set_board
    [{| id := id1; token := "1"; used := false |};
     {| id := id2; token := "2"; used := used2 |}]
    (if used2 then [{| placed_id := id2; placed_token := "2" |}] else [])
    false initial_game.

Definition round_draws : list Q :=
  [1 # 3; 2 # 3; 1 # 10; 1 # 7; 6 # 7; 1 # 4; 1 # 5; 4 # 5; 1 # 11; 3 # 4;
   5 # 6; 2 # 9; 1 # 3; 2 # 3; 2 # 3; 1 # 7; 6 # 7; 1 # 4; 1 # 5; 4 # 5;
   1 # 2; 1 # 9; 3 # 10; 7 # 10; 9 # 10; 1 # 12; 5 # 12; 7 # 12; 11 # 12;
   1 # 13; 2 # 13; 3 # 13; 1 # 3; 2 # 3; 2 # 3; 1 # 7; 6 # 7; 1 # 4; 1 # 5;
   4 # 5]%Q.



Definition pool_draws : list Q :=
  [1 # 2; 1 # 3; 1 # 4; 1 # 5; 1 # 6; 1 # 7; 1 # 8; 3 # 4; 1 # 10; 2 # 3]%Q.

Definition some_moves : list move :=
  [Place 0; Place 3; Unplace 0; Place 5; Reset; Place 2; Unplace 7].

Definition in_unit_interval (r : Q) : bool := Qle_bool 0 r && Qltb r 1.

Ltac settle_check :=
  repeat match goal with
         | |- _ <-> _ => split
         | |- forall _, _ => intro
         end;
  repeat match goal with
         | H : _ /\ _ |- _ => destruct H
         | H : exists _, _ |- _ => destruct H
         end;
  try discriminate;
  repeat match goal with
         | H : Return _ = Return _ |- _ => injection H as H
         | H : NotWholeNumber _ = NotWholeNumber _ |- _ => injection H as H
         | H : WrongAnswer _ = WrongAnswer _ |- _ => injection H as H
         end;
  subst; try congruence;
  repeat match goal with
         | |- _ /\ _ => split
         | |- exists _, _ => eexists
         end;
  try reflexivity; try eassumption; try congruence.

(** * Properties *)

Section Properties.

Context {host : Host}.

(** ** Strings *)

Lemma append_cons (c : ascii) (s t : string) :
  String c s +:+ t = String c (s +:+ t).
Proof. reflexivity. Qed.

Lemma append_nil_l (s : string) : "" +:+ s = s.
Proof. reflexivity. Qed.

Lemma append_nil_r (s : string) : s +:+ "" = s.
Proof.
  induction s as [|c s IH]; [reflexivity | now rewrite append_cons, IH].
Qed.

Lemma append_assoc (a b c : string) : (a +:+ b) +:+ c = a +:+ (b +:+ c).
Proof.
  induction a as [|x a IH]; [reflexivity | now rewrite !append_cons, IH].
Qed.

Lemma join_cons (x : string) (l : list string) : join (x :: l) = x +:+ join l.
Proof.
  unfold join. destruct l as [|y l]; simpl.
  - now rewrite append_nil_r.
  - reflexivity.
Qed.

Lemma join_app (l1 l2 : list string) : join (l1 ++ l2) = join l1 +:+ join l2.
Proof.
  induction l1 as [|x l1 IH].
  - reflexivity.
  - rewrite <- app_comm_cons, !join_cons, IH. now rewrite append_assoc.
Qed.

Lemma is_symbol_not_digit (c : ascii) : is_symbol c = true -> is_digit c = false.
Proof.
  unfold is_symbol. simpl. rewrite !orb_true_iff, !Ascii.eqb_eq.
  intros H. repeat (destruct H as [H | H]; [subst c; reflexivity |]).
  discriminate.
Qed.

Lemma string_filter_id (p : ascii -> bool) (s : string) :
  string_forall p s = true -> string_filter p s = s.
Proof.
  induction s as [|c s IH]; simpl; [reflexivity |].
  rewrite andb_true_iff. intros [Hc Hs]. rewrite Hc. now rewrite IH.
Qed.

(** ** The tokenizer *)

Lemma flush_join (run : string) : join (flush run) = run.
Proof. destruct run; reflexivity. Qed.

Lemma match_all_symbol (a b : string) (c : ascii) (run : string) :
  is_symbol c = true ->
  match_all run (a +:+ String c b)
  = match_all run a ++ [String c ""] ++ match_all "" b.
Proof.
  intros Hc. revert run.
  induction a as [|x a IH]; intros run;
    rewrite ?append_nil_l, ?append_cons; simpl.
  - now rewrite (is_symbol_not_digit c Hc), Hc.
  - destruct (is_digit x).
    + apply IH.
    + rewrite IH. now rewrite <- !app_assoc.
Qed.

Lemma match_all_skip (a b : string) (c : ascii) (run : string) :
  is_allowed c = false ->
  match_all run (a +:+ String c b) = match_all run a ++ match_all "" b.
Proof.
  unfold is_allowed. rewrite orb_false_iff. intros [Hd Hs]. revert run.
  induction a as [|x a IH]; intros run;
    rewrite ?append_nil_l, ?append_cons; simpl.
  - now rewrite Hd, Hs.
  - destruct (is_digit x).
    + apply IH.
    + rewrite IH. now rewrite <- !app_assoc.
Qed.

Lemma match_all_digits (ds run : string) :
  string_forall is_digit ds = true -> run +:+ ds <> "" ->
  match_all run ds = [run +:+ ds].
Proof.
  revert run. induction ds as [|c ds IH]; intros run Hall Hne; simpl.
  - rewrite append_nil_r in *. destruct run; [congruence | reflexivity].
  - simpl in Hall. apply andb_true_iff in Hall as [Hc Hds]. rewrite Hc.
    rewrite IH; [| assumption |].
    + now rewrite append_assoc.
    + rewrite append_assoc, append_cons. destruct run; discriminate.
Qed.

Lemma match_all_join (s run : string) :
  join (match_all run s) = run +:+ string_filter is_allowed s.
Proof.
  revert run. induction s as [|c s IH]; intros run; simpl.
  - now rewrite flush_join, append_nil_r.
  - unfold is_allowed. destruct (is_digit c) eqn:Hd; simpl.
    + rewrite IH. now rewrite append_assoc.
    + rewrite !join_app, flush_join, IH.
      destruct (is_symbol c); reflexivity.
Qed.

(** C10. [tokenize] returns, in order, the maximal digit runs and the single
    operator and parenthesis characters of its input, and passes over every
    other character wherever it stands: a text of digits is one token; an
    operator or parenthesis is a token of its own between the tokens of what
    precedes and what follows it; any other character only separates them;
    the tokens joined are the input without the characters passed over. So
    ["3+4a"] gives ["3"; "+"; "4"], which does not spell the input. *)
Theorem tokenize_runs_and_symbols :
  tokenize "" = []
  /\ (forall ds : string,
        ds <> "" -> string_forall is_digit ds = true -> tokenize ds = [ds])
  /\ (forall (a b : string) (c : ascii),
        is_symbol c = true ->
        tokenize (a +:+ String c b) = tokenize a ++ [String c ""] ++ tokenize b)
  /\ (forall (a b : string) (c : ascii),
        is_allowed c = false ->
        tokenize (a +:+ String c b) = tokenize a ++ tokenize b)
  /\ (forall s : string, join (tokenize s) = string_filter is_allowed s)
  /\ tokenize "3+4a" = ["3"; "+"; "4"]
  /\ join (tokenize "3+4a") <> "3+4a".
Proof.
  unfold tokenize. repeat split.
  - intros ds Hne Hall. now apply match_all_digits.
  - intros a b c Hc. now apply match_all_symbol.
  - intros a b c Hc. now apply match_all_skip.
  - intros s. now rewrite match_all_join.
  - discriminate.
Qed.

(** ** Randomness *)

Lemma bind_some {A B} (m : Rand A) (k : A -> Rand B) (s s' : stream) (b : B) :
  (m ≫= k) s = Some (b, s') ->
  exists (a : A) (s1 : stream), m s = Some (a, s1) /\ k a s1 = Some (b, s').
Proof.
  unfold mbind, Rand_bind. destruct (m s) as [[a s1]|]; [| discriminate].
  intros H. now exists a, s1.
Qed.

Lemma ret_some {A} (a b : A) (s s' : stream) :
  (mret a : Rand A) s = Some (b, s') -> b = a /\ s' = s.
Proof. unfold mret, Rand_ret. intros H. now injection H as <- <-. Qed.

Lemma swap_perm {A} (arr : list A) (i j : nat) : swap arr i j ≡ₚ arr.
Proof.
  unfold swap. destruct (arr !! i) as [x|] eqn:Hi; [| reflexivity].
  destruct (arr !! j) as [y|] eqn:Hj; [| reflexivity].
  now apply Permutation_insert_swap.
Qed.

Lemma shuffle_from_perm {A} (i : nat) (arr arr' : list A) (s s' : stream) :
  shuffle_from i arr s = Some (arr', s') -> arr' ≡ₚ arr.
Proof.
  revert arr s s'. induction i as [|i IH]; intros arr s s' H; simpl in H.
  - apply ret_some in H as [-> _]. reflexivity.
  - apply bind_some in H as (r & s1 & _ & H).
    apply IH in H. rewrite H. apply swap_perm.
Qed.

Lemma shuffleArray_perm {A} (arr arr' : list A) (s s' : stream) :
  shuffleArray arr s = Some (arr', s') -> arr' ≡ₚ arr.
Proof. apply shuffle_from_perm. Qed.

Lemma shuffle_from_total {A} (i : nat) (arr : list A) (s : stream) :
  exists arr' s', shuffle_from i arr s = Some (arr', s').
Proof.
  revert arr s. induction i as [|i IH]; intros arr s; simpl.
  - now exists arr, s.
  - unfold mbind, Rand_bind, Math_random. apply IH.
Qed.

(** ** Pool and equation *)

Lemma map_fmap {A B} (f : A -> B) (l : list A) : map f l = f <$> l.
Proof. reflexivity. Qed.

Lemma make_available_fresh (tokens : list string) (av : list pooltoken)
    (s s' : stream) :
  make_available tokens s = Some (av, s') ->
  map token av = tokens /\ Forall (fun t => used t = false) av.
Proof.
  revert av s s'.
  induction tokens as [|t tokens IH]; intros av s s' H; simpl in H.
  - apply ret_some in H as [-> _]. now split.
  - apply bind_some in H as (i & s1 & _ & H).
    apply bind_some in H as (more & s2 & Hmore & H).
    apply ret_some in H as [-> _]. apply IH in Hmore as [Htok Hun].
    split; simpl; [now f_equal | now constructor].
Qed.

Lemma consumed_none (pool : list pooltoken) :
  Forall (fun t => used t = false) pool -> consumed pool = [].
Proof.
  unfold consumed. induction 1 as [|t pool Ht _ IH]; [reflexivity |].
  rewrite filter_cons_False; [exact IH | congruence].
Qed.

Lemma consumed_reset (pool : list pooltoken) :
  consumed (map (set_used false) pool) = [].
Proof.
  apply consumed_none. induction pool; simpl; now constructor.
Qed.

Lemma entries_reset (pool : list pooltoken) :
  map pool_entry (map (set_used false) pool) = map pool_entry pool.
Proof. induction pool as [|a pool IH]; simpl; [reflexivity | now rewrite IH]. Qed.

Lemma entries_insert (pool : list pooltoken) (i : nat) (t : pooltoken) (u : bool) :
  pool !! i = Some t ->
  map pool_entry (<[i := set_used u t]> pool) = map pool_entry pool.
Proof.
  revert i. induction pool as [|a pool IH]; intros [|i] Hi; simpl in *;
    try discriminate.
  - now injection Hi as ->.
  - now rewrite IH.
Qed.

Lemma consumed_insert (pool : list pooltoken) (i : nat) (t : pooltoken) :
  pool !! i = Some t -> used t = false ->
  map pool_entry (consumed (<[i := set_used true t]> pool))
  ≡ₚ pool_entry t :: map pool_entry (consumed pool).
Proof.
  unfold consumed. revert i.
  induction pool as [|a pool IH]; intros [|i] Hi Hu; simpl in *;
    try discriminate.
  - injection Hi as ->.
    rewrite (filter_cons_False _ t) by congruence. reflexivity.
  - rewrite !(filter_cons _ a). destruct (decide (used a = true)); simpl.
    + rewrite IH by assumption. apply perm_swap.
    + now apply IH.
Qed.

Lemma entries_unuse (x : string) (pool : list pooltoken) :
  map pool_entry
    (map (fun t => if String.eqb (id t) x then set_used false t else t) pool)
  = map pool_entry pool.
Proof.
  induction pool as [|a pool IH]; simpl; [reflexivity |].
  rewrite IH. now destruct (String.eqb (id a) x).
Qed.

Lemma consumed_unuse (x : string) (pool : list pooltoken) :
  map pool_entry
    (consumed
       (map (fun t => if String.eqb (id t) x then set_used false t else t) pool))
  = filter (fun e => e.1 <> x) (map pool_entry (consumed pool)).
Proof.
  unfold consumed. induction pool as [|a pool IH]; simpl; [reflexivity |].
  rewrite (filter_cons _ a).
  destruct (String.eqb_spec (id a) x) as [E | E].
  - rewrite filter_cons_False by (simpl; congruence). rewrite IH.
    destruct (decide (used a = true)); simpl; [| reflexivity].
    rewrite filter_cons_False; [reflexivity | simpl; tauto].
  - rewrite (filter_cons _ a).
    destruct (decide (used a = true)); simpl; [| exact IH].
    rewrite filter_cons_True by exact E. now rewrite IH.
Qed.

Lemma filter_all {A} (P : A -> Prop) `{forall x, Decision (P x)} (l : list A) :
  Forall P l -> filter P l = l.
Proof.
  induction 1 as [|x l Hx _ IH]; [reflexivity |].
  now rewrite filter_cons_True, IH.
Qed.

Lemma delete_is_filter (l : list (string * string)) (j : nat) (e : string * string) :
  NoDup (map fst l) -> l !! j = Some e ->
  delete j l = filter (fun e' => e'.1 <> e.1) l.
Proof.
  revert j. induction l as [|a l IH]; intros [|j] Hnd Hj; simpl in *;
    try discriminate; apply NoDup_cons in Hnd as [Ha Hnd].
  - injection Hj as ->. rewrite filter_cons_False by tauto.
    symmetry. apply filter_all.
    apply Forall_forall. intros e' He' E. apply Ha. rewrite <- E.
    rewrite map_fmap. now apply list_elem_of_fmap_2.
  - rewrite filter_cons_True.
    + f_equal. now apply IH.
    + intros E. apply Ha. rewrite E. rewrite map_fmap.
      apply list_elem_of_fmap_2. now apply list_elem_of_lookup_2 with j.
Qed.

Lemma consumed_ids_NoDup (pool : list pooltoken) :
  NoDup (map id pool) -> NoDup (map fst (map pool_entry (consumed pool))).
Proof.
  unfold consumed. induction pool as [|a pool IH]; simpl; intros Hnd.
  - constructor.
  - apply NoDup_cons in Hnd as [Ha Hnd]. rewrite filter_cons.
    destruct (decide (used a = true)); simpl; [| now apply IH].
    apply NoDup_cons. split; [| now apply IH].
    intros Hin. apply Ha. rewrite !map_fmap in *.
    apply list_elem_of_fmap in Hin as (en & -> & He).
    apply list_elem_of_fmap in He as (t & -> & Ht).
    apply list_elem_of_filter in Ht as [_ Ht].
    now apply (list_elem_of_fmap_2 id).
Qed.

Lemma ids_of_entries (pool : list pooltoken) :
  map id pool = map fst (map pool_entry pool).
Proof. now rewrite map_map. Qed.

Lemma texts_of_entries (pool : list pooltoken) :
  map token pool = map snd (map pool_entry pool).
Proof. now rewrite map_map. Qed.

Lemma texts_of_placed (equation : list placed) :
  map placed_token equation = map snd (map placed_entry equation).
Proof. now rewrite map_map. Qed.

Lemma play_keeps_board (pool0 : list pooltoken) (g : game) (m : move) :
  NoDup (map id pool0) -> board_ok pool0 g -> board_ok pool0 (play g m).
Proof.
  intros Hnd Hg. pose proof Hg as [Hsame Hperm].
  assert (Hids : NoDup (map id (availableTokens g))).
  { now rewrite ids_of_entries, Hsame, <- ids_of_entries. }
  destruct m as [i | j |]; simpl.
  - unfold addToEquation.
    destruct (availableTokens g !! i) as [t|] eqn:Hi; [| exact Hg].
    destruct (used t) eqn:Hu; [exact Hg |].
    split; simpl.
    + rewrite entries_insert by assumption. exact Hsame.
    + rewrite consumed_insert by assumption. rewrite map_app. simpl.
      rewrite Hperm. apply (Permutation_cons_append _ (pool_entry t)).
  - unfold removeFromEquation.
    destruct (equationTokens g !! j) as [r|] eqn:Hj.
    + split; simpl.
      * rewrite entries_unuse. exact Hsame.
      * rewrite consumed_unuse, Hperm.
        rewrite !map_fmap, list_fmap_delete, <- !map_fmap.
        rewrite (delete_is_filter _ j (placed_entry r)); [reflexivity | |].
        -- rewrite <- Hperm. now apply consumed_ids_NoDup.
        -- rewrite map_fmap, list_lookup_fmap, Hj. reflexivity.
    + destruct (availableTokens g); exact Hg.
  - split; simpl.
    + rewrite entries_reset. exact Hsame.
    + now rewrite consumed_reset.
Qed.

Lemma play_all_keeps_board (pool0 : list pooltoken) (moves : list move) (g : game) :
  NoDup (map id pool0) -> board_ok pool0 g -> board_ok pool0 (play_all moves g).
Proof.
  intros Hnd. revert g. unfold play_all.
  induction moves as [|m moves IH]; intros g Hg; simpl; [assumption |].
  apply IH. now apply play_keeps_board.
Qed.

Lemma board_ok_conserves (pool0 : list pooltoken) (g : game) :
  board_ok pool0 g ->
  length (equationTokens g) = length (consumed (availableTokens g))
  /\ available_texts (availableTokens g) ++ map placed_token (equationTokens g)
     ≡ₚ map token pool0.
Proof.
  intros [Hsame Hperm]. split.
  - apply Permutation_length in Hperm. now rewrite !length_map in Hperm.
  - rewrite texts_of_placed, <- Hperm, <- texts_of_entries.
    rewrite (texts_of_entries pool0), <- Hsame, <- texts_of_entries.
    unfold available_texts, consumed. rewrite <- map_app.
    apply Permutation_map. rewrite Permutation_app_comm.
    rewrite <- (filter_app_complement (fun t => used t = true)
                  (availableTokens g)) at 3.
    apply Permutation_app_head.
    erewrite list_filter_iff; [reflexivity |].
    intros t. simpl. destruct (used t); split; congruence.
Qed.

(** ** The equation builder *)

Lemma set_used_same (t : pooltoken) : set_used (used t) t = t.
Proof. now destruct t. Qed.

Lemma map_other_ids (x : string) (u : bool) (pool : list pooltoken) :
  x ∉ map id pool ->
  map (fun t => if String.eqb (id t) x then set_used u t else t) pool = pool.
Proof.
  induction pool as [|a pool IH]; simpl; intros Hx; [reflexivity |].
  apply not_elem_of_cons in Hx as [Ha Hx].
  destruct (String.eqb_spec (id a) x) as [E | _]; [congruence |].
  now rewrite IH.
Qed.

Lemma restore_pool (pool : list pooltoken) (i : nat) (t : pooltoken) :
  NoDup (map id pool) -> pool !! i = Some t -> used t = false ->
  map (fun t' => if String.eqb (id t') (id t) then set_used false t' else t')
      (<[i := set_used true t]> pool)
  = pool.
Proof.
  revert i. induction pool as [|a pool IH]; intros i Hnd Hi Hu; [discriminate |].
  simpl in Hnd. apply NoDup_cons in Hnd as [Ha Hnd].
  destruct i as [|i]; simpl in *.
  - injection Hi as ->. rewrite String.eqb_refl.
    rewrite map_other_ids by assumption.
    f_equal. destruct t; simpl in *; now subst.
  - destruct (String.eqb_spec (id a) (id t)) as [E | _].
    + exfalso. apply Ha. rewrite E.
      apply list_elem_of_In, in_map, list_elem_of_In.
      now apply list_elem_of_lookup_2 with i.
    + f_equal. now apply IH.
Qed.

Lemma delete_last {A} (l : list A) (x : A) : delete (length l) (l ++ [x]) = l.
Proof. induction l as [|a l IH]; simpl; [reflexivity | now rewrite IH]. Qed.

Lemma lookup_last {A} (l : list A) (x : A) : (l ++ [x]) !! length l = Some x.
Proof. induction l as [|a l IH]; simpl; [reflexivity | exact IH]. Qed.

(** C7 (amended). In a pool whose ids are pairwise distinct, placing an
    available token and then removing the entry just appended gives back the
    state as it was: the pool with its flags, order and ids, and the equation
    sequence. *)
Theorem place_then_unplace (g : game) (i : nat) (t : pooltoken) :
  NoDup (map id (availableTokens g)) ->
  availableTokens g !! i = Some t ->
  used t = false ->
  exists g1 : game,
    addToEquation i g = Return g1
    /\ removeFromEquation (length (equationTokens g)) g1 = Return g.
Proof.
  intros Hnd Hi Hu. unfold addToEquation. rewrite Hi, Hu.
  eexists. split; [reflexivity |].
  destruct g as [lvl time target oexpr otoks pool equation visible].
  unfold removeFromEquation, set_board. simpl in *.
  rewrite lookup_last. simpl.
  rewrite restore_pool by assumption.
  now rewrite delete_last.
Qed.

Lemma start_round_fields (e : string) (target : float) (g0 g : game)
    (s s' : stream) :
  start_round e target g0 s = Some (g, s') ->
  originalExpr g = e
  /\ originalTokens g = tokenize e
  /\ targetValue g = Some target
  /\ timeLeft g = getTimerDurationForLevel (currentLevel g0)
  /\ currentLevel g = currentLevel g0
  /\ equationTokens g = []
  /\ Forall (fun t => used t = false) (availableTokens g)
  /\ map token (availableTokens g) ≡ₚ tokenize e.
Proof.
  unfold start_round. intros H.
  apply bind_some in H as (av & s1 & Hav & H).
  apply bind_some in H as (pool & s2 & Hpool & H).
  apply ret_some in H as [-> _]. simpl.
  apply make_available_fresh in Hav as [Htok Hun].
  apply shuffleArray_perm in Hpool.
  repeat split; try reflexivity.
  - now rewrite Hpool.
  - rewrite Hpool. now rewrite Htok.
Qed.

Lemma start_round_total (e : string) (target : float) (g0 : game) (s : stream) :
  exists g s', start_round e target g0 s = Some (g, s').
Proof.
  unfold start_round, mbind, Rand_bind.
  assert (Hav : forall tokens s0, exists av s1,
             make_available tokens s0 = Some (av, s1)).
  { induction tokens as [|t tokens IH]; intros s0; simpl.
    - now exists [], s0.
    - unfold mbind, Rand_bind, genId, Math_random. simpl.
      destruct (IH (fun n => s0 (S n))) as (av & s1 & ->). simpl.
      now eexists _, _. }
  destruct (Hav (tokenize e) s) as (av & s1 & ->).
  destruct (shuffle_from_total (length av - 1) av s1) as (pool & s2 & Hp).
  unfold shuffleArray. rewrite Hp. now eexists _, _.
Qed.

(** C4 (amended). Start from the pool and the empty equation of a new round,
    the ids drawn for the pool being pairwise distinct. After any finite
    sequence of place, unplace and reset moves (so after each move of a
    sequence), the equation sequence is as long as the number of pool tokens
    marked consumed, and the texts of the available tokens together with the
    texts in the equation sequence are, as a multiset, the tokens of the
    puzzle. *)
Theorem moves_conserve_tokens (e : string) (target : float) (g0 g : game)
    (s s' : stream) (moves : list move) :
  start_round e target g0 s = Some (g, s') ->
  NoDup (map id (availableTokens g)) ->
  length (equationTokens (play_all moves g))
  = length (consumed (availableTokens (play_all moves g)))
  /\ available_texts (availableTokens (play_all moves g))
       ++ map placed_token (equationTokens (play_all moves g))
     ≡ₚ originalTokens g.
Proof.
  intros Hstart Hnd.
  apply start_round_fields in Hstart
    as (_ & Htoks & _ & _ & _ & Heq & Hun & Hperm).
  assert (Hok : board_ok (availableTokens g) g).
  { split; [reflexivity |]. rewrite Heq. now rewrite consumed_none. }
  apply (play_all_keeps_board _ moves) in Hok; [| assumption].
  apply board_ok_conserves in Hok as [Hlen Htexts].
  split; [exact Hlen |]. now rewrite Htexts, Htoks.
Qed.

(** ** revealSolution *)

Lemma find_unused_spec (tok : string) (pool : list pooltoken) (idx : nat)
    (t : pooltoken) :
  find_unused tok pool = Some (idx, t) ->
  pool !! idx = Some t /\ used t = false /\ token t = tok
  /\ forall k t', (k < idx)%nat -> pool !! k = Some t' ->
                  used t' = true \/ token t' <> tok.
Proof.
  revert idx. induction pool as [|a pool IH]; intros idx H; simpl in H;
    [discriminate |].
  destruct (negb (used a) && String.eqb (token a) tok) eqn:Ha.
  - injection H as <- <-. apply andb_true_iff in Ha as [Hu Ht].
    apply negb_true_iff in Hu. apply String.eqb_eq in Ht.
    repeat split; try assumption. intros k t' Hk. lia.
  - destruct (find_unused tok pool) as [[i t']|] eqn:Hf; [| discriminate].
    injection H as <- <-. destruct (IH i eq_refl) as (Hi & Hu & Ht & Hfirst).
    repeat split; try assumption.
    intros [|k] t'' Hk Hlook; simpl in Hlook.
    + injection Hlook as <-. apply andb_false_iff in Ha as [Ha | Ha].
      * left. now apply negb_false_iff in Ha.
      * right. now apply String.eqb_neq in Ha.
    + apply (Hfirst k); [lia | assumption].
Qed.

Lemma find_unused_none (tok : string) (pool : list pooltoken) :
  find_unused tok pool = None ->
  forall t, t ∈ pool -> used t = false -> token t <> tok.
Proof.
  induction pool as [|a pool IH]; intros H t Ht Hu; simpl in H.
  - now apply elem_of_nil in Ht.
  - destruct (negb (used a) && String.eqb (token a) tok) eqn:Ha;
      [discriminate |].
    destruct (find_unused tok pool) as [[i t']|] eqn:Hf; [discriminate |].
    apply elem_of_cons in Ht as [-> | Ht]; [| now apply IH].
    rewrite Hu in Ha. simpl in Ha. now apply String.eqb_neq in Ha.
Qed.

Lemma reveal_each_texts (toks : list string) (pool pool' : list pooltoken)
    (equation equation' : list placed) (s s' : stream) :
  reveal_each toks pool equation s = Some ((pool', equation'), s') ->
  map placed_token equation' = map placed_token equation ++ toks.
Proof.
  revert pool equation s.
  induction toks as [|tok toks IH]; intros pool equation s H; simpl in H.
  - apply ret_some in H as [H _]. injection H as -> ->.
    now rewrite app_nil_r.
  - destruct (find_unused tok pool) as [[idx t]|] eqn:Hf.
    + apply find_unused_spec in Hf as (_ & _ & Ht & _).
      apply IH in H. rewrite H, map_app. simpl. rewrite Ht.
      now rewrite <- app_assoc.
    + apply bind_some in H as (i & s1 & _ & H).
      apply IH in H. rewrite H, map_app. simpl.
      now rewrite <- app_assoc.
Qed.

Lemma reveal_each_total (toks : list string) (pool : list pooltoken)
    (equation : list placed) (s : stream) :
  exists r s', reveal_each toks pool equation s = Some (r, s').
Proof.
  revert pool equation s.
  induction toks as [|tok toks IH]; intros pool equation s; simpl.
  - now eexists _, _.
  - destruct (find_unused tok pool) as [[idx t]|]; [apply IH |].
    unfold mbind, Rand_bind, genId, Math_random. simpl. apply IH.
Qed.

Lemma accept_sound (e : string) (rounded : float) :
  accept e = Some rounded ->
  exists x : float,
    safeEval e = Return (VNum x)
    /\ is_finite x = true
    /\ off_integer x = false
    /\ rounded = Math_round x
    /\ (1000 <? Math_abs rounded)%float = false.
Proof.
  unfold accept. destruct (safeEval e) as [v | err]; [| discriminate].
  destruct (Number_isFinite v) eqn:Hfin; [| discriminate]. simpl.
  destruct (off_integer (ToNumber v)) eqn:Hoff; [discriminate |].
  destruct (1000 <? Math_abs (Math_round (ToNumber v)))%float eqn:Hbig;
    [discriminate |].
  intros H. injection H as <-.
  destruct v as [x | |]; try discriminate.
  exists x. now repeat split.
Qed.

Lemma safeEval_allowed (e : string) (v : value) :
  safeEval e = Return v -> allowed_text e = true.
Proof.
  unfold safeEval. destruct (allowed_text e); [reflexivity | discriminate].
Qed.

Lemma allowed_text_forall (e : string) :
  allowed_text e = true -> string_forall is_allowed e = true.
Proof. destruct e; [discriminate | trivial]. Qed.

Lemma newRound_loop_result (fuel n : nat) (count : Z) (g g' : game)
    (s s' : stream) :
  newRound_loop fuel n count g s = Some (Return g', s') ->
  (exists (k : nat) (s1 s2 : stream) (e : string) (r : float),
      (k < n)%nat
      /\ rejected_attempts fuel (currentLevel g) count k s s1
      /\ attempt_expr fuel (currentLevel g) count s1 = Some (Return e, s2)
      /\ accept e = Some r
      /\ start_round e r g s2 = Some (g', s'))
  \/ (exists s1 : stream,
        rejected_attempts fuel (currentLevel g) count n s s1
        /\ start_round "(3+4)*2" 14%float g s1 = Some (g', s')).
Proof.
  revert s. induction n as [|n IH]; intros s H; simpl in H.
  - right. apply bind_some in H as (g1 & s1 & Hstart & H).
    apply ret_some in H as [H ->]. injection H as ->.
    exists s. split; [constructor | assumption].
  - apply bind_some in H as (c & s1 & Hatt & H).
    destruct c as [e | err]; [| apply ret_some in H as [H _]; discriminate].
    destruct (accept e) as [r|] eqn:Hacc.
    + left. apply bind_some in H as (g1 & s2 & Hstart & H).
      apply ret_some in H as [H ->]. injection H as ->.
      exists 0%nat, s, s1, e, r. repeat split; try assumption; [lia | constructor].
    + apply IH in H as [(k & s2 & s3 & e' & r & Hk & Hrej & Hatt' & Hacc' & Hst)
                       | (s2 & Hrej & Hst)].
      * left. exists (S k), s2, s3, e', r.
        repeat split; try assumption; [lia |].
        now apply rejected_next with s1 e.
      * right. exists s2. split; [| assumption].
        now apply rejected_next with s1 e.
Qed.

Lemma newRound_loop_fallback (fuel n : nat) (count : Z) (g : game)
    (s s1 : stream) :
  rejected_attempts fuel (currentLevel g) count n s s1 ->
  newRound_loop fuel n count g s
  = (g' ← start_round "(3+4)*2" 14%float g; mret (Return g')) s1.
Proof.
  induction 1 as [s | n s s1 s2 e Hatt Hacc _ IH]; simpl; [reflexivity |].
  unfold mbind at 1, Rand_bind at 1. rewrite Hatt, Hacc. exact IH.
Qed.

Lemma newRound_loop_accepts (fuel k m : nat) (count : Z) (g : game)
    (s s1 s2 : stream) (e : string) (r : float) :
  rejected_attempts fuel (currentLevel g) count k s s1 ->
  attempt_expr fuel (currentLevel g) count s1 = Some (Return e, s2) ->
  accept e = Some r ->
  newRound_loop fuel (k + S m) count g s
  = (g' ← start_round e r g; mret (Return g')) s2.
Proof.
  intros Hrej Hatt Hacc.
  induction Hrej as [s | n s s1 s3 e' Hatt' Hacc' _ IH]; simpl.
  - unfold mbind at 1, Rand_bind at 1. now rewrite Hatt, Hacc.
  - unfold mbind at 1, Rand_bind at 1. rewrite Hatt', Hacc'. now apply IH.
Qed.

Lemma newRound_puzzle (fuel : nat) (numCount : option Z) (g g' : game)
    (s s' : stream) :
  newRound fuel numCount g s = Some (Return g', s') ->
  originalTokens g' = tokenize (originalExpr g')
  /\ string_forall is_allowed (originalExpr g') = true.
Proof.
  unfold newRound. intros H.
  apply newRound_loop_result in H
    as [(k & s1 & s2 & e & r & _ & _ & _ & Hacc & Hst) | (s1 & _ & Hst)];
    apply start_round_fields in Hst as (-> & -> & _); split; try reflexivity.
  apply accept_sound in Hacc as (x & Hev & _).
  now apply allowed_text_forall, safeEval_allowed with (VNum x).
Qed.


(** ** Draws *)

Lemma Qfloor_eq (x : Q) (m : Z) :
  Qfloor x = m <-> (inject_Z m <= x)%Q /\ (x < inject_Z (m + 1))%Q.
Proof.
  split.
  - intros <-. split; [apply Qfloor_le | apply Qlt_floor].
  - intros [Hlo Hhi]. apply Z.le_antisymm.
    + apply Z.lt_succ_r. rewrite Zlt_Qlt.
      apply Qle_lt_trans with x; [apply Qfloor_le | exact Hhi].
    + rewrite <- (Qfloor_Z m). now apply Qfloor_resp_le.
Qed.

Lemma valid_tail (s : stream) :
  valid_stream s -> valid_stream (fun n => s (S n)).
Proof. intros H n. apply H. Qed.

Lemma scaled_draw (r : Q) (n : Z) :
  (0 <= r)%Q -> (r < 1)%Q -> (0 < n)%Z ->
  (0 <= Qfloor (r * inject_Z n) < n)%Z.
Proof.
  intros H0 H1 Hn.
  assert (Hn' : (0 < inject_Z n)%Q) by (unfold Qlt; simpl; lia).
  split.
  - rewrite <- (Qfloor_Z 0). apply Qfloor_resp_le.
    apply Qmult_le_0_compat; [assumption | now apply Qlt_le_weak].
  - rewrite Zlt_Qlt. apply Qle_lt_trans with (r * inject_Z n)%Q.
    + apply Qfloor_le.
    + rewrite <- (Qmult_1_l (inject_Z n)) at 2.
      apply Qmult_lt_compat_r; assumption.
Qed.

Lemma randInt_range (a b : Z) (s : stream) :
  valid_stream s -> (a <= b)%Z ->
  exists k : Z,
    randInt a b s = Some (k, fun n => s (S n)) /\ (a <= k <= b)%Z.
Proof.
  intros Hs Hab. unfold randInt, mbind, Rand_bind, Math_random.
  eexists. split; [reflexivity |].
  destruct (Hs 0%nat) as [H0 H1].
  pose proof (scaled_draw (s 0%nat) (b - a + 1) H0 H1 ltac:(lia)). lia.
Qed.

Lemma gen_numbers_range (n : nat) (maxNumber : Z) (s : stream) :
  valid_stream s -> (1 <= maxNumber)%Z ->
  exists (numbers : list Z) (s' : stream),
    gen_numbers n maxNumber s = Some (numbers, s')
    /\ length numbers = n
    /\ Forall (fun x => 1 <= x <= maxNumber)%Z numbers
    /\ valid_stream s'.
Proof.
  intros Hs Hmax. revert s Hs. induction n as [|n IH]; intros s Hs; simpl.
  - exists [], s.
    split; [reflexivity | split; [reflexivity | split; [constructor | exact Hs]]].
  - destruct (randInt_range 1 maxNumber s Hs Hmax) as (k & Hk & Hrange).
    destruct (IH _ (valid_tail s Hs)) as (numbers & s' & Hnum & Hlen & Hall & Hs').
    exists (k :: numbers), s'. unfold mbind, Rand_bind. rewrite Hk, Hnum.
    split; [reflexivity | split; [simpl; now f_equal |]].
    split; [now constructor | exact Hs'].
Qed.

(** C3. An attempt of the round generator is accepted only when its
    expression evaluates to a finite Number x for which
    [Math.abs(x - Math.round(x)) > 1e-9] is false and whose rounding r has
    [Math.abs(r) > 1000] false; the round then has that expression and the
    target r. A round is either such an accepted attempt, after fewer than
    400 rejected ones, or, after exactly 400 rejected attempts, the puzzle
    [(3+4)*2] with target 14. Conversely an attempt that passes the filter
    after fewer than 400 rejected ones is the round, and 400 rejected
    attempts always end in the fallback puzzle, which itself passes the
    filter. *)
Theorem newRound_filter_and_fallback :
  (forall (fuel : nat) (numCount : option Z) (g g' : game) (s s' : stream),
      newRound fuel numCount g s = Some (Return g', s') ->
      let count := round_count numCount (currentLevel g) in
      (exists (k : nat) (s1 : stream) (x : float),
          (k < 400)%nat
          /\ rejected_attempts fuel (currentLevel g) count k s s1
          /\ safeEval (originalExpr g') = Return (VNum x)
          /\ is_finite x = true
          /\ off_integer x = false
          /\ (1000 <? Math_abs (Math_round x))%float = false
          /\ targetValue g' = Some (Math_round x)
          /\ originalTokens g' = tokenize (originalExpr g'))
      \/ (exists s1 : stream,
            rejected_attempts fuel (currentLevel g) count 400 s s1
            /\ originalExpr g' = "(3+4)*2"
            /\ targetValue g' = Some 14%float
            /\ originalTokens g' = ["("; "3"; "+"; "4"; ")"; "*"; "2"]))
  /\ (forall (fuel k : nat) (numCount : option Z) (g : game)
        (s s1 s2 : stream) (e : string) (r : float),
        (k < 400)%nat ->
        rejected_attempts fuel (currentLevel g)
          (round_count numCount (currentLevel g)) k s s1 ->
        attempt_expr fuel (currentLevel g)
          (round_count numCount (currentLevel g)) s1 = Some (Return e, s2) ->
        accept e = Some r ->
        exists (g' : game) (s' : stream),
          newRound fuel numCount g s = Some (Return g', s')
          /\ originalExpr g' = e
          /\ targetValue g' = Some r
          /\ originalTokens g' = tokenize e)
  /\ (forall (fuel : nat) (numCount : option Z) (g : game) (s s1 : stream),
        rejected_attempts fuel (currentLevel g)
          (round_count numCount (currentLevel g)) 400 s s1 ->
        exists (g' : game) (s' : stream),
          newRound fuel numCount g s = Some (Return g', s')
          /\ originalExpr g' = "(3+4)*2"
          /\ targetValue g' = Some 14%float
          /\ originalTokens g' = ["("; "3"; "+"; "4"; ")"; "*"; "2"])
  /\ accept "(3+4)*2" = Some 14%float.
Proof.
  split; [| split; [| split]].
  - intros fuel numCount g g' s s' H count. unfold newRound in H.
    apply newRound_loop_result in H
      as [(k & s1 & s2 & e & r & Hk & Hrej & _ & Hacc & Hst) | (s1 & Hrej & Hst)];
      apply start_round_fields in Hst as (He & Ht & Htarget & _).
    + left. apply accept_sound in Hacc as (x & Hev & Hfin & Hoff & -> & Hbig).
      exists k, s1, x. rewrite He, Ht. now repeat split.
    + right. exists s1. rewrite He, Ht. now repeat split.
  - intros fuel k numCount g s s1 s2 e r Hk Hrej Hatt Hacc.
    unfold newRound, ATTEMPT_LIMIT.
    replace 400%nat with (k + S (399 - k))%nat by lia.
    rewrite (newRound_loop_accepts _ _ _ _ _ _ _ _ _ _ Hrej Hatt Hacc).
    destruct (start_round_total e r g s2) as (g' & s' & Hst).
    exists g', s'. unfold mbind, Rand_bind. rewrite Hst.
    apply start_round_fields in Hst as (He & Ht & Htarget & _).
    rewrite He, Ht. now repeat split.
  - intros fuel numCount g s s1 Hrej. unfold newRound, ATTEMPT_LIMIT.
    rewrite (newRound_loop_fallback _ _ _ _ _ _ Hrej).
    destruct (start_round_total "(3+4)*2" 14%float g s1) as (g' & s' & Hst).
    exists g', s'. unfold mbind, Rand_bind. rewrite Hst.
    apply start_round_fields in Hst as (He & Ht & Htarget & _).
    rewrite He, Ht. now repeat split.
  - reflexivity.
Qed.

Lemma is_allowed_chars (c : ascii) :
  is_allowed c = true <-> In c (list_ascii_of_string "0123456789+-*/()").
Proof.
  destruct c as [[] [] [] [] [] [] [] []]; vm_compute; split; intros H;
    try discriminate; try reflexivity;
    try (repeat (try (left; reflexivity); right); fail);
    repeat (destruct H as [H | H]; [discriminate |]); contradiction.
Qed.

Lemma string_forall_In (p : ascii -> bool) (s : string) :
  string_forall p s = true <->
  forall c, In c (list_ascii_of_string s) -> p c = true.
Proof.
  induction s as [|x s IH]; simpl.
  - split; [intros _ c [] | reflexivity].
  - rewrite andb_true_iff, IH. split.
    + intros [Hx Hs] c [<- | Hc]; auto.
    + intros H. split; [apply H; now left | intros c Hc; apply H; now right].
Qed.

(** C2 (amended). [safeEval] is closed over its alphabet, not over a
    grammar: it raises "Unsafe expression" exactly for the empty text and for
    a text with a character outside [0-9 + - * / ( )], and hands every other
    text unchanged to the host's [Function] constructor, returning or raising
    what the host does with it. *)
Theorem safeEval_closed_alphabet (e : string) :
  (safeEval e = Throw Unsafe <-> allowed_text e = false)
  /\ (allowed_text e = true -> safeEval e = Function_return e)
  /\ (allowed_text e = true <->
      e <> ""
      /\ forall c, In c (list_ascii_of_string e) ->
                   In c (list_ascii_of_string "0123456789+-*/()")).
Proof.
  unfold safeEval. split; [| split].
  - destruct (allowed_text e); simpl; [| now split].
    split; [| discriminate].
    unfold Function_return.
    destruct (lex _ _ _) as [ts|]; [| discriminate].
    destruct (parse _ _ _ _); discriminate.
  - now intros ->.
  - destruct e as [|x e]; [simpl; split; [discriminate | now intros [[] _]] |].
    unfold allowed_text. rewrite string_forall_In. split.
    + intros H. split; [discriminate |].
      intros c Hc. now apply is_allowed_chars, H.
    + intros [_ H] c Hc. now apply is_allowed_chars, H.
Qed.

(** C1 (amended). On a text it lets through, [safeEval] returns what the
    host computes, and a division by zero is no exception there:
    [safeEval("1/0")] is [Infinity] and [safeEval("0/0")] is [NaN]. It is the
    generator that rejects a value that is not finite: such a result makes
    the reduction of [buildRandomExpr] go to its [catch], and makes
    [newRound] reject the attempt. *)
Theorem safeEval_returns_non_finite :
  safeEval "1/0" = Return (VNum infinity)
  /\ safeEval "0/0" = Return (VNum nan)
  /\ (forall (e : string) (v : value),
        safeEval e = Return v -> Number_isFinite v = false ->
        accept e = None)
  /\ (forall (a b : item) (op : string) (v : value),
        safeEval (paren_expr a b op) = Return v ->
        Number_isFinite v = false ->
        try_reduce a b op = None)
  /\ (forall (a b : item) (op : string) (combined : item),
        try_reduce a b op = Some combined ->
        expr combined = paren_expr a b op
        /\ safeEval (paren_expr a b op) = Return (val combined)
        /\ Number_isFinite (val combined) = true).
Proof.
  split; [reflexivity | split; [reflexivity |]].
  split; [| split].
  - intros e v Hev Hfin. unfold accept. now rewrite Hev, Hfin.
  - intros a b op v Hev Hfin. unfold try_reduce. now rewrite Hev, Hfin.
  - intros a b op combined. unfold try_reduce.
    destruct (safeEval (paren_expr a b op)) as [v | err]; [| discriminate].
    destruct (Number_isFinite v) eqn:Hfin; [| discriminate].
    intros H. injection H as <-. now repeat split.
Qed.

Lemma check_text_decisions (text : string) (target : option float) :
  let clean := strip_spaces text in
  (check_text text target = InvalidGrammar <-> allowed_text clean = false)
  /\ (check_text text target = UnbalancedParens <->
      allowed_text clean = true /\ balancedParens clean = false)
  /\ (check_text text target = EvaluationError <->
      allowed_text clean = true /\ balancedParens clean = true
      /\ exists err, safeEval clean = Throw err)
  /\ (forall v : value,
        check_text text target = NotWholeNumber v <->
        allowed_text clean = true /\ balancedParens clean = true
        /\ safeEval clean = Return v /\ off_integer (ToNumber v) = true)
  /\ (forall r : float,
        check_text text target = WrongAnswer r <->
        allowed_text clean = true /\ balancedParens clean = true
        /\ exists v : value,
             safeEval clean = Return v /\ off_integer (ToNumber v) = false
             /\ r = Math_round (ToNumber v) /\ strict_equal r target = false)
  /\ (check_text text target = Correct <->
      allowed_text clean = true /\ balancedParens clean = true
      /\ exists v : value,
           safeEval clean = Return v /\ off_integer (ToNumber v) = false
           /\ strict_equal (Math_round (ToNumber v)) target = true).
Proof.
  intros clean. unfold check_text. fold clean.
  destruct (allowed_text clean) eqn:Hallowed; cbn [negb];
    [destruct (balancedParens clean) eqn:Hbal; cbn [negb];
     [destruct (safeEval clean) as [v | err] eqn:Hev;
      [destruct (off_integer (ToNumber v)) eqn:Hoff;
       [| destruct (strict_equal (Math_round (ToNumber v)) target) eqn:Heq] |] |] |];
    (split; [| split; [| split; [| split; [| split]]]]); settle_check.
Qed.

(** A quotient by zero passes every check but the last: its value is not
    finite, the difference to its rounding is [NaN], and no comparison with
    [NaN] holds. Against the target 14 it is the wrong answer [Infinity]. *)
Lemma check_text_division_by_zero :
  check_text "1/0" (Some 14%float) = WrongAnswer infinity.
Proof. vm_compute. reflexivity. Qed.


Lemma pick_other_spec (fuel : nat) (i j n k : Z) (s s' : stream) :
  pick_other fuel i j n s = Some (k, s') -> k <> i.
Proof.
  revert j s. induction fuel as [|fuel IH]; intros j s H; simpl in H.
  - destruct (Z.eqb_spec j i) as [E | E]; [discriminate |].
    apply ret_some in H as [-> _]. exact E.
  - destruct (Z.eqb_spec j i) as [E | E].
    + apply bind_some in H as (j' & s1 & _ & H). now apply IH in H.
    + apply ret_some in H as [-> _]. exact E.
Qed.




Lemma next_op_spec (ops : list string) (op : string) (rest : list string)
    (s s' : stream) :
  next_op ops s = Some ((op, rest), s') ->
  ops = op :: rest \/ (ops = [] /\ rest = []).
Proof.
  destruct ops as [|o ops]; simpl; intros H.
  - right. apply bind_some in H as (r & s1 & _ & H).
    apply ret_some in H as [H _]. injection H as _ ->. now split.
  - left. apply ret_some in H as [H _]. now injection H as -> ->.
Qed.

Lemma index_Some {A} (l : list A) (i : Z) (x : A) :
  index l i = Some x -> (0 <= i)%Z /\ l !! Z.to_nat i = Some x.
Proof.
  unfold index. destruct (Z.ltb_spec i 0); [discriminate |]. now split.
Qed.

Lemma splice_two {A} (l : list A) (i j : Z) (x y : A) :
  index l i = Some x -> index l j = Some y -> j <> i ->
  l ≡ₚ x :: y :: delete (Z.to_nat (Z.min i j)) (delete (Z.to_nat (Z.max i j)) l).
Proof.
  intros Hi Hj Hne.
  apply index_Some in Hi as [Hi0 Hi]. apply index_Some in Hj as [Hj0 Hj].
  destruct (Z.lt_ge_cases i j) as [Hlt | Hge].
  - rewrite Z.min_l, Z.max_r by lia.
    transitivity (y :: delete (Z.to_nat j) l);
      [now apply delete_Permutation |].
    transitivity (y :: x :: delete (Z.to_nat i) (delete (Z.to_nat j) l));
      [| apply perm_swap].
    apply perm_skip, delete_Permutation.
    rewrite list_lookup_delete_lt by lia. exact Hi.
  - rewrite Z.min_r, Z.max_l by lia.
    transitivity (x :: delete (Z.to_nat i) l);
      [now apply delete_Permutation |].
    apply perm_skip, delete_Permutation.
    rewrite list_lookup_delete_lt by lia. exact Hj.
Qed.

(** What a pass of the loop does, read off its result. *)
Lemma reduce_once_spec (fuel : nat) (items items' : list item)
    (ops ops' : list string) (reduced : bool) (s s' : stream) :
  reduce_once fuel items ops s = Some (Return (reduced, items', ops'), s') ->
  exists (a b : item) (op : string) (rest : list string) (others : list item),
    items ≡ₚ a :: b :: others
    /\ (ops = op :: rest \/ (ops = [] /\ rest = []))
    /\ if reduced
       then exists combined : item,
              try_reduce a b op = Some combined
              /\ items' ≡ₚ others ++ [combined] /\ ops' = rest
       else try_reduce a b op = None
            /\ items' ≡ₚ items /\ ops' = op :: rest.
Proof.
  unfold reduce_once. intros H.
  apply bind_some in H as (i & s1 & _ & H).
  apply bind_some in H as (j0 & s2 & _ & H).
  apply bind_some in H as (j & s3 & Hj & H).
  apply pick_other_spec in Hj.
  apply bind_some in H as ([op rest] & s4 & Hop & H).
  apply next_op_spec in Hop.
  apply bind_some in H as (r & s5 & _ & H).
  destruct (index items i) as [item_i|] eqn:Hi;
    [| apply ret_some in H as [H _]; discriminate].
  destruct (index items j) as [item_j|] eqn:Hjj;
    [| apply ret_some in H as [H _]; discriminate].
  pose proof (splice_two items i j item_i item_j Hi Hjj Hj) as Hsplice.
  set (others := delete (Z.to_nat (Z.min i j))
                   (delete (Z.to_nat (Z.max i j)) items)) in *.
  set (a := if Qltb r (1 # 2) then item_i else item_j) in *.
  set (b := if Qltb r (1 # 2) then item_j else item_i) in *.
  assert (Hab : items ≡ₚ a :: b :: others).
  { subst a b. destruct (Qltb r (1 # 2)); [exact Hsplice |].
    rewrite Hsplice. apply perm_swap. }
  exists a, b, op, rest, others. split; [exact Hab |]. split; [exact Hop |].
  destruct (try_reduce a b op) as [combined|] eqn:Htry.
  - apply bind_some in H as (shuffled & s6 & Hsh & H).
    apply ret_some in H as [H _]. injection H as Hr Hit Hops.
    subst reduced items' ops'.
    exists combined. apply shuffleArray_perm in Hsh. now repeat split.
  - apply bind_some in H as (shuffled & s6 & Hsh & H).
    apply ret_some in H as [H _]. injection H as Hr Hit Hops.
    subst reduced items' ops'.
    apply shuffleArray_perm in Hsh. now repeat split.
Qed.

Lemma try_reduce_expr (a b : item) (op : string) (combined : item) :
  try_reduce a b op = Some combined -> expr combined = paren_expr a b op.
Proof.
  unfold try_reduce. destruct (safeEval _) as [v|]; [| discriminate].
  destruct (Number_isFinite v); [| discriminate]. now intros [= <-].
Qed.

Lemma nodes_leaves (t : tree) : length (leaves t) = S (nodes t).
Proof.
  induction t as [n | l IHl op r IHr]; simpl; [reflexivity |].
  rewrite length_app, IHl, IHr. lia.
Qed.








End Properties.

(** * Further properties *)

Section Further.

Context {host : Host}.

(** ** Draws *)

Lemma advances_refl (s : stream) : advances s s.
Proof. now exists 0%nat. Qed.

Lemma advances_trans (s1 s2 s3 : stream) :
  advances s1 s2 -> advances s2 s3 -> advances s1 s3.
Proof.
  intros [j Hj] [k Hk]. exists (j + k)%nat. intros n.
  rewrite Hk, Hj. f_equal. lia.
Qed.

Lemma advances_valid (s s' : stream) :
  advances s s' -> valid_stream s -> valid_stream s'.
Proof. intros [k Hk] H n. rewrite Hk. apply H. Qed.

Lemma advancing_ret {A} (a : A) : advancing (mret a : Rand A).
Proof. intros s s' b H. apply ret_some in H as [_ ->]. apply advances_refl. Qed.

Lemma advancing_bind {A B} (m : Rand A) (k : A -> Rand B) :
  advancing m -> (forall a, advancing (k a)) -> advancing (m ≫= k).
Proof.
  intros Hm Hk s s' b H. apply bind_some in H as (a & s1 & H1 & H2).
  eapply advances_trans; [eapply Hm | eapply Hk]; eassumption.
Qed.

Lemma advancing_random : advancing Math_random.
Proof. intros s s' a H. injection H as _ <-. now exists 1%nat. Qed.

Lemma advancing_fuel {A} : advancing (@out_of_fuel A).
Proof. intros s s' a H. discriminate. Qed.

(** ** [shuffleArray] *)

Lemma swap_length {A} (arr : list A) (i j : nat) :
  length (swap arr i j) = length arr.
Proof.
  unfold swap. destruct (arr !! i), (arr !! j); trivial.
  now rewrite !length_insert.
Qed.

Lemma shuffle_from_draws {A} (i : nat) (arr arr' : list A) (s s' : stream) :
  shuffle_from i arr s = Some (arr', s') ->
  forall n : nat, s' n = s (i + n)%nat.
Proof.
  revert arr s. induction i as [|i IH]; intros arr s H n.
  - apply ret_some in H as [_ ->]. reflexivity.
  - simpl in H. apply bind_some in H as (r & s1 & Hr & H).
    injection Hr as _ <-. now rewrite (IH _ _ H).
Qed.

(** X1. [shuffleArray] returns an arrangement of the elements of its argument,
    of the same length, and reads one draw for each index from the last down
    to 1: none for an array of less than two elements. *)
Theorem shuffleArray_permutes {A} (arr : list A) (s : stream) :
  valid_stream s ->
  exists (arr' : list A) (s' : stream),
    shuffleArray arr s = Some (arr', s')
    /\ arr' ≡ₚ arr
    /\ length arr' = length arr
    /\ (forall n : nat, s' n = s (length arr - 1 + n)%nat)
    /\ ((length arr <= 1)%nat -> arr' = arr).
Proof.
  intros _.
  destruct (shuffle_from_total (length arr - 1) arr s) as (arr' & s' & H).
  exists arr', s'. split; [exact H |].
  pose proof (shuffleArray_perm _ _ _ _ H) as Hp.
  split; [exact Hp |]. split; [now rewrite Hp |].
  split; [now apply (shuffle_from_draws _ _ _ _ _ H) |].
  intros Hle. unfold shuffleArray in H.
  replace (length arr - 1)%nat with 0%nat in H by lia.
  now apply ret_some in H as [-> _].
Qed.

(** ** [balancedParens] *)

Lemma count_char_app (c : ascii) (a b : string) :
  count_char c (a +:+ b) = (count_char c a + count_char c b)%Z.
Proof.
  induction a as [|x a IH]; [reflexivity |].
  rewrite append_cons. simpl. rewrite IH. lia.
Qed.

Lemma depth_app (a b : string) : depth (a +:+ b) = (depth a + depth b)%Z.
Proof. unfold depth. rewrite !count_char_app. lia. Qed.

Lemma depth_cons (x : ascii) (s : string) :
  depth (String x s)
  = ((if Ascii.eqb x "(" then 1 else if Ascii.eqb x ")" then -1 else 0)
     + depth s)%Z.
Proof.
  unfold depth. simpl.
  destruct (Ascii.eqb x "(") eqn:Ho, (Ascii.eqb x ")") eqn:Hc; try lia.
  apply Ascii.eqb_eq in Ho, Hc. congruence.
Qed.

Lemma append_split (a b p q : string) :
  a +:+ b = p +:+ q ->
  (exists m : string, a = p +:+ m /\ q = m +:+ b)
  \/ (exists m : string, p = a +:+ m /\ b = m +:+ q).
Proof.
  revert p. induction a as [|x a IH]; intros p H.
  - right. exists p. now rewrite !append_nil_l in *.
  - destruct p as [|y p].
    + left. exists (String x a). now rewrite append_nil_l in *.
    + rewrite !append_cons in H. injection H as <- H.
      destruct (IH p H) as [(m & -> & ->) | (m & -> & ->)].
      * left. now exists m.
      * right. now exists m.
Qed.

Lemma balanced_from_spec (s : string) (c : Z) :
  (0 <= c)%Z ->
  balanced_from c s = true <->
  (forall p q : string, s = p +:+ q -> (0 <= c + depth p)%Z)
  /\ (c + depth s = 0)%Z.
Proof.
  revert c. induction s as [|x s IH]; intros c Hc.
  - simpl. rewrite Z.eqb_eq. unfold depth at 2. simpl. split.
    + intros ->. split; [| reflexivity].
      intros [|y p] q Hpq; [| discriminate]. unfold depth. simpl. lia.
    + intros [_ H]. lia.
  - assert (Hsplit :
      forall P : string -> Prop,
        (forall p q, String x s = p +:+ q -> P p) <->
        P "" /\ forall p q, s = p +:+ q -> P (String x p)).
    { intros P. split.
      - intros H. split; [now apply (H "" (String x s)) |].
        intros p q ->. now apply (H (String x p) q).
      - intros [H0 H] [|y p] q Hpq; [exact H0 |].
        rewrite append_cons in Hpq. injection Hpq as <- ->. now apply (H p q). }
    rewrite (Hsplit (fun p => 0 <= c + depth p)%Z). simpl balanced_from.
    rewrite (depth_cons x s).
    destruct (Ascii.eqb x "(") eqn:Ho; [| destruct (Ascii.eqb x ")") eqn:Hcl].
    + rewrite (IH (c + 1)%Z) by lia. split.
      * intros [Hp Hd]. split; [split |]; [unfold depth; simpl; lia | | lia].
        intros p q Hpq. rewrite depth_cons, Ho. specialize (Hp p q Hpq). lia.
      * intros [[_ Hp] Hd]. split; [| lia].
        intros p q Hpq. specialize (Hp p q Hpq).
        rewrite depth_cons, Ho in Hp. lia.
    + destruct (c - 1 <? 0)%Z eqn:Hneg.
      * apply Z.ltb_lt in Hneg. split; [discriminate |].
        intros [[_ Hp] _]. specialize (Hp "" s eq_refl).
        rewrite depth_cons, Ho, Hcl in Hp. unfold depth in Hp. simpl in Hp. lia.
      * apply Z.ltb_ge in Hneg. rewrite (IH (c - 1)%Z) by lia. split.
        -- intros [Hp Hd]. split; [split |]; [unfold depth; simpl; lia | | lia].
           intros p q Hpq. rewrite depth_cons, Ho, Hcl.
           specialize (Hp p q Hpq). lia.
        -- intros [[_ Hp] Hd]. split; [| lia].
           intros p q Hpq. specialize (Hp p q Hpq).
           rewrite depth_cons, Ho, Hcl in Hp. lia.
    + rewrite (IH c) by lia. split.
      * intros [Hp Hd]. split; [split |]; [unfold depth; simpl; lia | | lia].
        intros p q Hpq. rewrite depth_cons, Ho, Hcl. specialize (Hp p q Hpq). lia.
      * intros [[_ Hp] Hd]. split; [| lia].
        intros p q Hpq. specialize (Hp p q Hpq).
        rewrite depth_cons, Ho, Hcl in Hp. lia.
Qed.

(** X2. [balancedParens] holds exactly of the texts in which no prefix closes
    more parentheses than it opens and the whole text closes as many as it
    opens; characters other than parentheses do not count. So the empty text
    is balanced, two balanced texts in a row are, and a balanced text between
    parentheses is. *)
Theorem balancedParens_prefixes (s : string) :
  (balancedParens s = true <->
   (forall p q : string, s = p +:+ q -> (0 <= depth p)%Z) /\ depth s = 0%Z)
  /\ balancedParens "" = true
  /\ (forall t : string,
        balancedParens s = true -> balancedParens t = true ->
        balancedParens (s +:+ t) = true)
  /\ (balancedParens s = true -> balancedParens ("(" +:+ s +:+ ")") = true)
  /\ (forall t : string, balancedParens (")" +:+ t) = false).
Proof.
  assert (Hspec : forall u : string,
            balancedParens u = true <->
            (forall p q : string, u = p +:+ q -> (0 <= depth p)%Z)
            /\ depth u = 0%Z).
  { intros u. unfold balancedParens. rewrite (balanced_from_spec u 0) by lia.
    now rewrite Z.add_0_l. }
  split; [apply Hspec |]. split; [reflexivity |].
  split; [| split; [| reflexivity]].
  - intros t [Hs Hds]%Hspec [Ht Hdt]%Hspec. apply Hspec. split.
    + intros p q Hpq.
      destruct (append_split s t p q Hpq) as [(m & -> & _) | (m & -> & Hm)].
      * now apply (Hs p m).
      * rewrite depth_app, Hds. now apply (Ht m q).
    + rewrite depth_app. lia.
  - intros [Hs Hds]%Hspec. apply Hspec. split.
    + intros [|x p] q Hpq; [unfold depth; simpl; lia |].
      rewrite append_cons in Hpq. injection Hpq as <- Hpq.
      rewrite depth_cons. simpl.
      destruct (append_split s ")" p q Hpq) as [(m & -> & _) | (m & -> & Hm)].
      * specialize (Hs p m eq_refl). lia.
      * rewrite depth_app, Hds.
        destruct m as [|y m]; [unfold depth; simpl; lia |].
        rewrite append_cons in Hm. injection Hm as <- Hm.
        destruct m; [| discriminate]. unfold depth. simpl. lia.
    + rewrite append_cons, append_nil_l, depth_cons, depth_app. simpl.
      unfold depth at 2. simpl. lia.
Qed.

(** ** [tokenize] *)

Lemma string_forall_app (p : ascii -> bool) (a b : string) :
  string_forall p (a +:+ b) = string_forall p a && string_forall p b.
Proof.
  induction a as [|x a IH]; [reflexivity |].
  rewrite append_cons. simpl. now rewrite IH, andb_assoc.
Qed.

Lemma string_filter_length (p : ascii -> bool) (s : string) :
  (String.length (string_filter p s) <= String.length s)%nat.
Proof.
  induction s as [|c s IH]; simpl; [lia |].
  destruct (p c); simpl; lia.
Qed.

Lemma string_filter_fixed (p : ascii -> bool) (s : string) :
  string_filter p s = s <-> string_forall p s = true.
Proof.
  split; [| apply string_filter_id].
  induction s as [|c s IH]; simpl; [reflexivity |].
  destruct (p c) eqn:Hc.
  - intros H. injection H as H. now apply IH.
  - intros H. pose proof (string_filter_length p s) as Hlen.
    rewrite H in Hlen. simpl in Hlen. lia.
Qed.

Lemma number_token_allowed (t : string) :
  is_number_token t -> allowed_text t = true.
Proof.
  intros [Hne Hd]. destruct t as [|c t]; [congruence |].
  unfold allowed_text. apply string_forall_In.
  intros x Hx. unfold is_allowed.
  now rewrite (proj1 (string_forall_In is_digit _) Hd x Hx).
Qed.

Lemma symbol_token_allowed (t : string) :
  is_symbol_token t -> allowed_text t = true.
Proof.
  intros (c & Hc & ->). unfold allowed_text, is_allowed. simpl.
  now rewrite Hc, orb_true_r.
Qed.

Lemma flush_shape (run : string) :
  string_forall is_digit run = true ->
  Forall (fun t => is_number_token t \/ is_symbol_token t) (flush run).
Proof.
  intros Hd. destruct run as [|c run]; constructor; [| constructor].
  left. now split.
Qed.

Lemma match_all_shape (s run : string) :
  string_forall is_digit run = true ->
  Forall (fun t => is_number_token t \/ is_symbol_token t) (match_all run s).
Proof.
  revert run. induction s as [|c s IH]; intros run Hrun; simpl.
  - now apply flush_shape.
  - destruct (is_digit c) eqn:Hd.
    + apply IH. rewrite string_forall_app, Hrun. simpl. now rewrite Hd.
    + apply Forall_app. split; [now apply flush_shape |].
      apply Forall_app. split; [| now apply IH].
      destruct (is_symbol c) eqn:Hs; constructor; [| constructor].
      right. now exists c.
Qed.

Lemma match_all_length (s run : string) :
  (length (match_all run s) <= length (flush run) + String.length s)%nat.
Proof.
  revert run. induction s as [|c s IH]; intros run; simpl; [lia |].
  destruct (is_digit c).
  - specialize (IH (run +:+ String c "")).
    assert (length (flush (run +:+ String c "")) <= 1)%nat
      by (destruct (run +:+ String c ""); simpl; lia).
    lia.
  - rewrite !length_app. specialize (IH ""). simpl in IH.
    destruct (is_symbol c); simpl; lia.
Qed.

(** X3. Every token that [tokenize] returns, for any text, is a nonempty run
    of digits or one operator or parenthesis, so it passes the character test
    of [safeEval]; there are at most as many tokens as characters; and the
    tokens joined give the text back exactly when every character of the text
    is one of the sixteen. *)
Theorem tokenize_token_shape (s : string) :
  Forall (fun t => is_number_token t \/ is_symbol_token t) (tokenize s)
  /\ Forall (fun t => allowed_text t = true) (tokenize s)
  /\ (length (tokenize s) <= String.length s)%nat
  /\ (join (tokenize s) = s <-> string_forall is_allowed s = true).
Proof.
  assert (Hshape := match_all_shape s "" eq_refl). fold (tokenize s) in Hshape.
  split; [exact Hshape |]. split; [| split].
  - eapply Forall_impl; [exact Hshape |].
    intros t [Ht | Ht];
      [now apply number_token_allowed | now apply symbol_token_allowed].
  - apply (match_all_length s "").
  - unfold tokenize. rewrite match_all_join, append_nil_l.
    apply string_filter_fixed.
Qed.


(** ** Every arrangement is reached *)

Lemma draw_for_index (j n : Z) :
  (0 <= j < n)%Z -> (n <= 9007199254740992)%Z ->
  let m := ((j * 9007199254740992 + n - 1) / n)%Z in
  Qfloor ((m # 9007199254740992) * inject_Z n) = j
  /\ (0 <= m < 9007199254740992)%Z.
Proof.
  intros Hj Hn m.
  pose proof (Z.mul_div_le (j * 9007199254740992 + n - 1) n ltac:(lia))
    as Hlow.
  pose proof (Z.mul_succ_div_gt (j * 9007199254740992 + n - 1) n ltac:(lia))
    as Hhigh.
  fold m in Hlow, Hhigh.
  split.
  - unfold Qfloor, Qmult, inject_Z. cbn [Qnum Qden].
    symmetry. apply (Z.div_unique_pos _ _ _ (m * n - j * 9007199254740992));
      lia.
  - split; [apply Z.div_pos; lia | nia].
Qed.

Lemma swap_app {A} (l suffix : list A) (i j : nat) :
  (i < length l)%nat -> (j < length l)%nat ->
  swap (l ++ suffix) i j = swap l i j ++ suffix.
Proof.
  intros Hi Hj. unfold swap. rewrite !lookup_app_l by assumption.
  destruct (l !! i) as [x|]; [| reflexivity].
  destruct (l !! j) as [y|]; [| reflexivity].
  rewrite insert_app_l by assumption.
  now rewrite insert_app_l by (rewrite length_insert; assumption).
Qed.

Lemma shuffle_from_app {A} (i : nat) (l suffix : list A) (s : stream) :
  valid_stream s -> (i < length l)%nat ->
  shuffle_from i (l ++ suffix) s
  = match shuffle_from i l s with
    | Some (l', s') => Some (l' ++ suffix, s')
    | None => None
    end.
Proof.
  revert l s. induction i as [|i IH]; intros l s Hs Hi; [reflexivity |].
  cbn [shuffle_from]. unfold mbind, Rand_bind, Math_random.
  destruct (Hs 0%nat) as [H0 H1].
  pose proof (scaled_draw (s 0%nat) (Z.of_nat (S i) + 1) H0 H1 ltac:(lia))
    as Hj.
  rewrite swap_app by lia.
  apply IH; [| rewrite swap_length; lia].
  intros n. apply (Hs (S n)).
Qed.

Lemma swap_lookup {A} (arr : list A) (i j : nat) (x : A) :
  (i < length arr)%nat -> arr !! j = Some x -> swap arr i j !! i = Some x.
Proof.
  intros Hi Hj. unfold swap. rewrite Hj.
  destruct (lookup_lt_is_Some_2 arr i Hi) as [y Hy]. rewrite Hy.
  destruct (decide (j = i)) as [-> | Hne].
  - rewrite list_lookup_insert_eq by (rewrite length_insert; exact Hi).
    congruence.
  - rewrite list_lookup_insert_ne by exact Hne.
    now rewrite list_lookup_insert_eq.
Qed.

Lemma last_split {A} (l : list A) (n : nat) (x : A) :
  length l = S n -> l !! n = Some x -> l = take n l ++ [x].
Proof.
  intros Hlen Hx. rewrite <- (take_drop n l) at 1. f_equal.
  rewrite (drop_S l x n Hx). rewrite drop_ge by lia. reflexivity.
Qed.

(** X4. [shuffleArray] can return every arrangement of its argument: for each
    there are draws in [0, 1), all of them multiples of 2^-53, on which it
    returns that arrangement. (The bound on the length is the one under which
    such draws tell all indices apart.) *)
Theorem shuffleArray_reaches {A} (arr target : list A) :
  target ≡ₚ arr ->
  (Z.of_nat (length arr) <= 9007199254740992)%Z ->
  exists s s' : stream,
    valid_stream s
    /\ (forall n : nat, exists m : Z, s n = (m # 9007199254740992)%Q)
    /\ shuffleArray arr s = Some (target, s').
Proof.
  assert (Hzero : valid_stream (fun _ => (0 # 9007199254740992)%Q)
                  /\ forall n : nat,
                       exists m : Z,
                         (0 # 9007199254740992)%Q = (m # 9007199254740992)%Q).
  { split; [| now exists 0%Z]. intros n. now split. }
  revert arr. induction target as [|x t IH] using rev_ind; intros arr Hp Hbound.
  - apply Permutation_nil in Hp. subst arr.
    exists (fun _ => (0 # 9007199254740992)%Q),
      (fun _ => (0 # 9007199254740992)%Q).
    split; [apply Hzero |]. split; [apply Hzero | reflexivity].
  - assert (Hlen : length arr = S (length t)).
    { rewrite <- Hp, length_app. simpl. lia. }
    assert (Hin : x ∈ arr) by (rewrite <- Hp, elem_of_app; right; left).
    apply list_elem_of_lookup_1 in Hin as [j Hj].
    pose proof (lookup_lt_Some _ _ _ Hj) as Hjlt.
    destruct (length t) as [|i'] eqn:Hi.
    { destruct arr as [|a [|b arr]]; try discriminate Hlen.
      apply length_zero_iff_nil in Hi. subst t.
      apply Permutation_singleton_r in Hp. injection Hp as ->.
      exists (fun _ => (0 # 9007199254740992)%Q),
        (fun _ => (0 # 9007199254740992)%Q).
      split; [apply Hzero |]. split; [apply Hzero | reflexivity]. }
    set (i := S i') in *.
    set (arr2 := swap arr i j).
    assert (Hx : arr2 !! i = Some x) by (apply swap_lookup; [lia | exact Hj]).
    assert (Hlen2 : length arr2 = S i)
      by (unfold arr2; rewrite swap_length; exact Hlen).
    pose proof (last_split arr2 i x Hlen2 Hx) as Hsplit.
    assert (Hp2 : t ≡ₚ take i arr2).
    { apply (Permutation_app_inv_r [x]). rewrite <- Hsplit.
      unfold arr2. now rewrite swap_perm. }
    destruct (IH _ Hp2) as (s1 & s1' & Hs1 & Hd1 & Hsh);
      [rewrite length_take; lia |].
    destruct (draw_for_index (Z.of_nat j) (Z.of_nat i + 1)) as [Hfloor Hm];
      [lia | lia |].
    set (m := ((Z.of_nat j * 9007199254740992 + (Z.of_nat i + 1) - 1)
               / (Z.of_nat i + 1))%Z) in *.
    set (r := (m # 9007199254740992)%Q).
    exists (fun n => match n with O => r | S n' => s1 n' end), s1'.
    split.
    { intros [|n]; [| apply Hs1]. unfold r, Qle, Qlt. cbn [Qnum Qden]. lia. }
    split.
    { intros [|n]; [now exists m | apply Hd1]. }
    unfold shuffleArray. rewrite Hlen.
    replace (S i - 1)%nat with i by lia.
    unfold i at 1. cbn [shuffle_from]. fold i.
    unfold mbind, Rand_bind, Math_random.
    fold r in Hfloor. rewrite Hfloor, Nat2Z.id.
    change (shuffle_from i' arr2 s1 = Some (t ++ [x], s1')).
    rewrite Hsplit.
    rewrite shuffle_from_app.
    + unfold shuffleArray in Hsh. rewrite length_take, Hlen2 in Hsh.
      replace (i `min` S i - 1)%nat with i' in Hsh by lia.
      now rewrite Hsh.
    + exact Hs1.
    + rewrite length_take. lia.
Qed.

(** ** The operator weights *)

Lemma Qle_bool_eq (r a b : Q) : (a == b)%Q -> Qle_bool r a = Qle_bool r b.
Proof. intros H. now rewrite H. Qed.

Lemma weighted_pick_cuts (level : Z) (r : Q) :
  (r <= 1 - (1 # 9007199254740992))%Q ->
  weighted_pick r 0%float (getOperatorWeights level)
  = cut_operator r (operator_cuts level).
Proof.
  intros Hr. unfold getOperatorWeights, operator_cuts, cut_operator.
  destruct (level <=? 3)%Z; [| destruct (level <=? 6)%Z];
    cbn [weighted_pick fst snd];
    repeat match goal with
           | |- context [Q_of_float ?x] =>
               let q := eval vm_compute in (Q_of_float x) in
               change (Q_of_float x) with q
           end;
    repeat match goal with
           | |- (if Qle_bool ?r ?a then _ else _)
                = (if Qle_bool ?r ?b then _ else _) =>
               try rewrite (Qle_bool_eq r a b) by (vm_compute; reflexivity);
               destruct (Qle_bool r b); [reflexivity |]
           end;
    match goal with
    | |- (if Qle_bool ?r ?c then _ else _) = _ =>
        rewrite (proj2 (Qle_bool_iff r c)); [reflexivity |];
        eapply Qle_trans; [exact Hr | vm_compute; intros Hc; discriminate Hc]
    end.
Qed.

Lemma near_percents (level : Z) :
  near_percent (operator_cuts level).1.1 (operator_percents level).1.1
  /\ near_percent (operator_cuts level).1.2 (operator_percents level).1.2
  /\ near_percent (operator_cuts level).2 (operator_percents level).2.
Proof.
  unfold operator_cuts, operator_percents, near_percent.
  destruct (level <=? 3)%Z; [| destruct (level <=? 6)%Z];
    repeat split; vm_compute; intros Hc; discriminate Hc.
Qed.

(** X5. [getWeightedRandomOperator(getOperatorWeights(level))] reads one draw
    and returns the operator in whose share of the unit interval it falls: [+]
    up to the first cut, then [-], then [*], then [/]; the cuts are the
    cumulative weights of the level, each within 10^-15 of 50, 80 and 95
    percent up to level 3, of 30, 50 and 85 percent up to level 6, and of 20,
    35 and 65 percent above. No Number below 1 is above the sum of the four
    weights, so the [return '+'] after the loop is never reached. *)
Theorem operator_by_level (level : Z) (s : stream) :
  (s 0%nat <= 1 - (1 # 9007199254740992))%Q ->
  getWeightedRandomOperator (getOperatorWeights level) s
  = Some (cut_operator (s 0%nat) (operator_cuts level), fun n => s (S n))
  /\ In (cut_operator (s 0%nat) (operator_cuts level)) OPS
  /\ near_percent (operator_cuts level).1.1 (operator_percents level).1.1
  /\ near_percent (operator_cuts level).1.2 (operator_percents level).1.2
  /\ near_percent (operator_cuts level).2 (operator_percents level).2.
Proof.
  intros Hr. split; [| split; [| apply near_percents]].
  - unfold getWeightedRandomOperator, mbind, Rand_bind, Math_random, mret, Rand_ret.
    now rewrite (weighted_pick_cuts level _ Hr).
  - unfold cut_operator, OPS.
    destruct (Qle_bool _ _); [now left |].
    destruct (Qle_bool _ _); [right; now left |].
    destruct (Qle_bool _ _); [right; right; now left | right; right; right; now left].
Qed.


(** ** The expression generator *)

Lemma advancing_randInt (a b : Z) : advancing (randInt a b).
Proof.
  apply advancing_bind; [apply advancing_random |].
  intros r. apply advancing_ret.
Qed.

Lemma advancing_shuffle_from {A} (i : nat) (arr : list A) :
  advancing (shuffle_from i arr).
Proof.
  revert arr. induction i as [|i IH]; intros arr; simpl.
  - apply advancing_ret.
  - apply advancing_bind; [apply advancing_random |]. intros r. apply IH.
Qed.

Lemma advancing_shuffleArray {A} (arr : list A) : advancing (shuffleArray arr).
Proof. apply advancing_shuffle_from. Qed.

Lemma advancing_pick_other (fuel : nat) (i j n : Z) :
  advancing (pick_other fuel i j n).
Proof.
  revert j. induction fuel as [|fuel IH]; intros j; simpl;
    destruct (j =? i)%Z; try apply advancing_ret; [apply advancing_fuel |].
  apply advancing_bind; [apply advancing_randInt |]. intros j'. apply IH.
Qed.

Lemma advancing_next_op (ops : list string) : advancing (next_op ops).
Proof.
  destruct ops as [|op ops]; simpl; [| apply advancing_ret].
  apply advancing_bind; [apply advancing_random |]. intros r. apply advancing_ret.
Qed.

Lemma advancing_reduce_once (fuel : nat) (items : list item) (ops : list string) :
  advancing (reduce_once fuel items ops).
Proof.
  unfold reduce_once.
  apply advancing_bind; [apply advancing_randInt | intros i].
  apply advancing_bind; [apply advancing_randInt | intros j0].
  apply advancing_bind; [apply advancing_pick_other | intros j].
  apply advancing_bind; [apply advancing_next_op | intros [op rest]].
  apply advancing_bind; [apply advancing_random | intros r].
  destruct (index items i); [| apply advancing_ret].
  destruct (index items j); [| apply advancing_ret].
  destruct (try_reduce _ _ _);
    (apply advancing_bind; [apply advancing_shuffleArray | intros items']);
    apply advancing_ret.
Qed.

Lemma advancing_reduce_loop (fuel : nat) (items : list item)
    (ops : list string) (k : nat) :
  advancing (reduce_loop fuel items ops k).
Proof.
  revert items ops k. induction fuel as [|fuel IH]; intros items ops k; simpl;
    destruct (length items <=? 1)%nat; try apply advancing_ret;
    [apply advancing_fuel |].
  apply advancing_bind; [apply advancing_reduce_once |].
  intros [[[reduced items'] ops'] | err]; [apply IH | apply advancing_ret].
Qed.

Lemma advancing_buildRandomExpr (fuel : nat) (numbers : list Z)
    (ops : list string) :
  advancing (buildRandomExpr fuel numbers ops).
Proof.
  apply advancing_bind; [apply advancing_reduce_loop |].
  intros c. apply advancing_ret.
Qed.

Lemma randInt_in_range (a b k : Z) (s s' : stream) :
  valid_stream s -> (a <= b)%Z ->
  randInt a b s = Some (k, s') -> (a <= k <= b)%Z.
Proof.
  intros Hs Hab H.
  destruct (randInt_range a b s Hs Hab) as (k' & Hk' & Hrange).
  rewrite Hk' in H. now injection H as <- _.
Qed.

Lemma pick_other_range (fuel : nat) (i j n k : Z) (s s' : stream) :
  valid_stream s -> (0 <= j < n)%Z ->
  pick_other fuel i j n s = Some (k, s') -> (0 <= k < n)%Z.
Proof.
  revert j s. induction fuel as [|fuel IH]; intros j s Hs Hj H; simpl in H;
    destruct (j =? i)%Z; try discriminate;
    try (apply ret_some in H as [-> _]; exact Hj).
  apply bind_some in H as (j' & s1 & Hj' & H).
  apply (IH j' s1); [| | exact H].
  - eapply advances_valid; [eapply advancing_randInt; exact Hj' | exact Hs].
  - apply randInt_in_range in Hj'; [lia | exact Hs | lia].
Qed.

Lemma index_in_range {A} (l : list A) (i : Z) :
  (0 <= i < Z.of_nat (length l))%Z -> exists x : A, index l i = Some x.
Proof.
  intros Hi. unfold index. destruct (Z.ltb_spec i 0); [lia |].
  destruct (lookup_lt_is_Some_2 l (Z.to_nat i)) as [x Hx]; [lia |].
  now exists x.
Qed.

Lemma reduce_once_returns (fuel : nat) (items : list item) (ops : list string)
    (s s' : stream) (c : completion (bool * list item * list string)) :
  valid_stream s -> (2 <= length items)%nat ->
  reduce_once fuel items ops s = Some (c, s') ->
  exists r, c = Return r.
Proof.
  intros Hs Hlen H. unfold reduce_once in H.
  apply bind_some in H as (i & s1 & Hi & H).
  assert (Hs1 : valid_stream s1)
    by (eapply advances_valid; [eapply advancing_randInt; exact Hi | exact Hs]).
  apply randInt_in_range in Hi; [| exact Hs | lia].
  apply bind_some in H as (j0 & s2 & Hj0 & H).
  assert (Hs2 : valid_stream s2)
    by (eapply advances_valid; [eapply advancing_randInt; exact Hj0 | exact Hs1]).
  apply randInt_in_range in Hj0; [| exact Hs1 | lia].
  apply bind_some in H as (j & s3 & Hj & H).
  apply pick_other_range in Hj; [| exact Hs2 | lia].
  apply bind_some in H as ([op rest] & s4 & _ & H).
  apply bind_some in H as (r & s5 & _ & H).
  destruct (index_in_range items i) as [x Hx]; [lia |].
  destruct (index_in_range items j) as [y Hy]; [lia |].
  rewrite Hx, Hy in H.
  destruct (try_reduce _ _ _);
    apply bind_some in H as (items' & s6 & _ & H);
    apply ret_some in H as [-> _]; eauto.
Qed.

Lemma reduce_loop_returns (fuel : nat) (items : list item) (ops : list string)
    (k : nat) (s s' : stream) (c : completion (string * nat)) :
  valid_stream s -> items <> [] ->
  reduce_loop fuel items ops k s = Some (c, s') ->
  exists r, c = Return r.
Proof.
  revert items ops k s. induction fuel as [|fuel IH];
    intros items ops k s Hs Hne H; simpl in H;
    destruct (Nat.leb_spec (length items) 1) as [Hle | Hgt]; try discriminate;
    try (apply ret_some in H as [-> _];
         destruct items as [|it items]; [congruence | eauto]).
  apply bind_some in H as (c1 & s1 & Honce & H).
  assert (Hs1 : valid_stream s1)
    by (eapply advances_valid; [eapply advancing_reduce_once; exact Honce | exact Hs]).
  assert (Hlen : (2 <= length items)%nat) by lia.
  destruct (reduce_once_returns _ _ _ _ _ _ Hs Hlen Honce)
    as [[[reduced items'] ops'] ->].
  eapply (IH items' ops' _ s1 Hs1); [| exact H].
  apply reduce_once_spec in Honce
    as (a & b & op & rest & others & Hab & _ & Hcase).
  intros ->. destruct reduced.
  - destruct Hcase as (combined & _ & Hp & _).
    apply Permutation_length in Hp. rewrite length_app in Hp. simpl in Hp. lia.
  - destruct Hcase as (_ & Hp & _). apply Permutation_length in Hp.
    simpl in Hp. lia.
Qed.

(** X6. [buildRandomExpr] never raises on a list of at least one operand: the
    indices it draws are inside its array of items, so that whenever it ends
    it returns an expression. On the empty list it raises at once, reading no
    draw ([items[0]] is undefined). *)
Theorem buildRandomExpr_never_raises (fuel : nat) (numbers : list Z)
    (ops : list string) (s : stream) :
  valid_stream s ->
  (numbers <> [] ->
   forall (c : completion string) (s' : stream),
     buildRandomExpr fuel numbers ops s = Some (c, s') ->
     exists e : string, c = Return e)
  /\ buildRandomExpr fuel [] ops s = Some (Throw HostError, s).
Proof.
  intros Hs. split.
  - intros Hne c s' H. unfold buildRandomExpr in H.
    apply bind_some in H as (c1 & s1 & Hloop & H).
    apply ret_some in H as [-> _].
    apply reduce_loop_returns in Hloop as [[e k] ->]; [now exists e | exact Hs |].
    unfold initial_items. destruct numbers; [congruence | discriminate].
  - destruct fuel; reflexivity.
Qed.

Lemma items_using_initial (numbers : list Z) :
  items_using numbers [] (initial_items numbers).
Proof.
  exists (map Leaf numbers). split; [| split].
  - induction numbers; simpl; now constructor.
  - induction numbers as [|n numbers IH]; simpl; [reflexivity | now rewrite IH].
  - induction numbers as [|n numbers IH]; simpl; [reflexivity | exact IH].
Qed.

Lemma items_using_perm (numbers : list Z) (used : list string)
    (items items' : list item) :
  items ≡ₚ items' -> items_using numbers used items ->
  items_using numbers used items'.
Proof.
  intros Hp (ts & Hf & Hl & Ho).
  destruct (Permutation_Forall2 Hp Hf) as (ts' & Hts & Hf').
  exists ts'. split; [exact Hf' |]. now rewrite <- Hts.
Qed.

Lemma items_using_reduce (numbers : list Z) (used : list string)
    (a b combined : item) (op : string) (others : list item) :
  items_using numbers used (a :: b :: others) ->
  expr combined = paren_expr a b op ->
  items_using numbers (op :: used) (others ++ [combined]).
Proof.
  intros (ts & Hf & Hl & Ho) He.
  apply Forall2_cons_inv_l in Hf as (ta & ts1 & Ha & Hf & ->).
  apply Forall2_cons_inv_l in Hf as (tb & ts2 & Hb & Hf & ->).
  exists (ts2 ++ [Node ta op tb]). split; [| split].
  - apply Forall2_app; [exact Hf |]. constructor; [| constructor].
    rewrite He. unfold paren_expr. simpl. now rewrite Ha, Hb.
  - rewrite map_app, concat_app. simpl. rewrite app_nil_r.
    rewrite Permutation_app_comm. simpl in Hl. now rewrite <- app_assoc.
  - rewrite map_app, concat_app. simpl. rewrite app_nil_r. simpl in Ho.
    rewrite <- Ho. rewrite Permutation_app_comm.
    rewrite <- !app_assoc. simpl.
    rewrite !(Permutation_middle _ _ op). reflexivity.
Qed.

Lemma reduce_loop_operators (fuel : nat) (numbers : list Z) (ops0 : list string)
    (items : list item) (ops used : list string) (k k' : nat) (e : string)
    (s s' : stream) :
  items_using numbers used items ->
  used ++ ops ≡ₚ ops0 ->
  length items = S (length ops) ->
  reduce_loop fuel items ops k s = Some (Return (e, k'), s') ->
  exists t : tree, e = render t /\ leaves t ≡ₚ numbers /\ tree_ops t ≡ₚ ops0.
Proof.
  revert items ops used k s.
  induction fuel as [|fuel IH]; intros items ops used k s Hinv Hops Hlen H;
    simpl in H;
    destruct (Nat.leb_spec (length items) 1) as [Hle | Hgt]; try discriminate;
    try (apply ret_some in H as [H _];
         destruct items as [|it [|it' items]]; simpl in *; try discriminate;
           [| lia];
         injection H as He Hk; subst e k';
         destruct ops; [| discriminate];
         rewrite app_nil_r in Hops;
         destruct Hinv as (ts & Hf & Hl & Ho);
         apply Forall2_cons_inv_l in Hf as (t & ts1 & Ht & Hf & ->);
         apply Forall2_nil_inv_l in Hf as ->; simpl in Hl, Ho;
         rewrite app_nil_r in Hl, Ho;
         exists t; split; [exact Ht | split; [exact Hl | now rewrite Ho]]).
  apply bind_some in H as (c & s1 & Honce & H).
  destruct c as [[[reduced items'] ops'] | err];
    [| apply ret_some in H as [H _]; discriminate].
  apply reduce_once_spec in Honce
    as (a & b & op & rest & others & Hab & Hnext & Hcase).
  destruct Hnext as [-> | [-> _]]; [| simpl in Hlen; lia].
  destruct reduced.
  - destruct Hcase as (combined & Htry & Hitems' & ->).
    eapply (IH items' rest (op :: used) _ s1); [| | | exact H].
    + apply items_using_perm with (others ++ [combined]); [now symmetry |].
      apply items_using_reduce with a b; [| now apply try_reduce_expr].
      now apply items_using_perm with items.
    + rewrite <- Hops. simpl. now rewrite Permutation_middle.
    + apply Permutation_length in Hab, Hitems'.
      rewrite length_app in Hitems'. simpl in *. lia.
  - destruct Hcase as (_ & Hitems' & ->).
    eapply (IH items' (op :: rest) used _ s1); [| exact Hops | | exact H].
    + apply items_using_perm with items; [now symmetry | assumption].
    + apply Permutation_length in Hitems'. lia.
Qed.

Lemma buildRandomExpr_tree (fuel : nat) (numbers : list Z)
    (ops : list string) (s s' : stream) (e : string) :
  length numbers = S (length ops) ->
  buildRandomExpr fuel numbers ops s = Some (Return e, s') ->
  exists t : tree,
    e = render t /\ leaves t ≡ₚ numbers /\ tree_ops t ≡ₚ ops
    /\ nodes t = length ops.
Proof.
  intros Hlen H. unfold buildRandomExpr in H.
  apply bind_some in H as (c & s1 & Hloop & H).
  apply ret_some in H as [H _].
  destruct c as [[e' k] | err]; [| discriminate]. injection H as ->.
  apply (reduce_loop_operators fuel numbers ops _ ops []) in Hloop
    as (t & He & Hl & Ho);
    [| apply items_using_initial | reflexivity
     | unfold initial_items; now rewrite length_map].
  exists t. split; [exact He | split; [exact Hl | split; [exact Ho |]]].
  apply Permutation_length in Hl. rewrite nodes_leaves in Hl. lia.
Qed.

(** X7. With one operator less than operands, as [newRound] calls it,
    [buildRandomExpr] puts every operator of its list into the expression
    exactly once, beside every operand exactly once, and draws no operator of
    its own: an operator whose reduction failed goes back to the front of the
    queue and is taken again. *)
Theorem buildRandomExpr_operators (fuel : nat) (numbers : list Z)
    (ops : list string) (s s' : stream) (e : string) :
  length numbers = S (length ops) ->
  buildRandomExpr fuel numbers ops s = Some (Return e, s') ->
  exists t : tree,
    e = render t /\ leaves t ≡ₚ numbers /\ tree_ops t ≡ₚ ops
    /\ nodes t = length ops.
Proof. apply buildRandomExpr_tree. Qed.

(** ** Numbers: the rounding of a finite Number is a Number *)

Lemma iter_pos_keeps {A} (P : A -> Prop) (f : A -> A) (n : positive) (x : A) :
  (forall y, P y -> P (f y)) -> P x -> P (SpecFloat.iter_pos f n x).
Proof.
  intros Hf. revert x. induction n as [n IH | n IH |]; intros x Hx; simpl; auto.
Qed.

Lemma shr_1_nonneg (mrs : shr_record) :
  (0 <= shr_m mrs)%Z -> (0 <= shr_m (shr_1 mrs))%Z.
Proof.
  destruct mrs as [m r s]. simpl. intros Hm.
  destruct m as [|[p|p|]|p]; simpl; lia.
Qed.

Lemma shr_fexp_nonneg (m e : Z) (l : location) :
  (0 <= m)%Z -> (0 <= shr_m (shr_fexp prec emax m e l).1)%Z.
Proof.
  intros Hm. unfold shr_fexp, shr.
  assert (H0 : (0 <= shr_m (shr_record_of_loc m l))%Z)
    by (destruct l as [|[]]; exact Hm).
  destruct (fexp prec emax (Zdigits2 m + e) - e)%Z; simpl; try exact H0.
  apply iter_pos_keeps; [apply shr_1_nonneg | exact H0].
Qed.

Lemma round_nearest_even_nonneg (m : Z) (l : location) :
  (0 <= m)%Z -> (0 <= round_nearest_even m l)%Z.
Proof.
  intros Hm. destruct l as [|[]]; simpl; try lia. destruct (Z.even m); lia.
Qed.

Lemma binary_round_aux_not_nan (sx : bool) (mx ex : Z) (lx : location) :
  (0 <= mx)%Z -> binary_round_aux prec emax sx mx ex lx <> S754_nan.
Proof.
  intros Hm. unfold binary_round_aux.
  pose proof (shr_fexp_nonneg mx ex lx Hm) as H1.
  destruct (shr_fexp prec emax mx ex lx) as [mrs' e']. simpl in H1.
  pose proof (shr_fexp_nonneg _ e' loc_Exact
                (round_nearest_even_nonneg _ (loc_of_shr_record mrs') H1)) as H2.
  destruct (shr_fexp prec emax _ e' loc_Exact) as [mrs'' e'']. simpl in H2.
  destruct (shr_m mrs''); [discriminate | | lia].
  destruct (e'' <=? emax - prec)%Z; discriminate.
Qed.

Lemma binary_round_aux_valid (s1 s2 : bool) (mx ex : Z) (lx : location) :
  valid_binary (binary_round_aux prec emax s1 mx ex lx)
  = valid_binary (binary_round_aux prec emax s2 mx ex lx).
Proof.
  unfold binary_round_aux.
  destruct (shr_fexp prec emax mx ex lx) as [mrs' e'].
  destruct (shr_fexp prec emax _ e' loc_Exact) as [mrs'' e''].
  destruct (shr_m mrs''); try reflexivity.
  destruct (e'' <=? emax - prec)%Z; reflexivity.
Qed.

Lemma binary_normalize_not_nan (n : Z) :
  binary_normalize prec emax n 0 false <> S754_nan.
Proof.
  destruct n as [|p|p]; simpl; [discriminate | |];
    unfold binary_round; destruct (shl_align _ _ _) as [mz ez];
    apply binary_round_aux_not_nan; lia.
Qed.

Lemma binary_normalize_valid (n : Z) :
  (Z.abs n < 2 ^ 63)%Z ->
  valid_binary (binary_normalize prec emax n 0 false) = true.
Proof.
  intros Hn.
  assert (Hpos : forall z : Z, (0 <= z < 2 ^ 63)%Z ->
            valid_binary (binary_normalize prec emax z 0 false) = true).
  { intros z Hz.
    rewrite <- (Z.mod_small z Uint63Axioms.wB) by exact Hz.
    rewrite <- Uint63.of_Z_spec, <- of_uint63_spec. apply Prim2SF_valid. }
  destruct n as [|p|p]; [reflexivity | apply Hpos; lia |].
  specialize (Hpos (Zpos p) ltac:(lia)). simpl in *.
  unfold binary_round in *. destruct (shl_align _ _ _) as [mz ez].
  now rewrite (binary_round_aux_valid true false).
Qed.

Lemma SFeqb_refl (x : spec_float) : x <> S754_nan -> SFeqb x x = true.
Proof.
  unfold SFeqb. destruct x as [s | s | | s m e]; simpl; intros Hx;
    try reflexivity; try congruence; destruct s; try reflexivity;
    rewrite Z.compare_refl;
    change (PosDef.Pos.compare_cont Eq m m) with (Pos.compare m m);
    now rewrite Pos.compare_refl.
Qed.

Lemma Z2float_is_number (n : Z) :
  (Z.abs n < 2 ^ 63)%Z -> (Z2float n =? Z2float n)%float = true.
Proof.
  intros Hn. rewrite FloatAxioms.eqb_spec. unfold Z2float.
  rewrite (Prim2SF_SF2Prim _ (binary_normalize_valid n Hn)).
  apply SFeqb_refl, binary_normalize_not_nan.
Qed.

Lemma digits2_pos_bound (m : positive) :
  (Zpos m < 2 ^ Zpos (digits2_pos m))%Z.
Proof.
  induction m as [m IH | m IH |]; simpl digits2_pos;
    rewrite ?Pos2Z.inj_succ, ?Z.pow_succ_r by lia; lia.
Qed.

Lemma finite_mantissa_bound (x : float) (s : bool) (m : positive) (e : Z) :
  Prim2SF x = S754_finite s m e -> (Zpos m < 2 ^ 53)%Z.
Proof.
  intros Hx. pose proof (Prim2SF_valid x) as Hv. rewrite Hx in Hv.
  unfold valid_binary, SpecFloat.valid_binary, bounded in Hv.
  apply andb_true_iff in Hv as [Hc _].
  unfold canonical_mantissa, fexp in Hc. apply Z.eqb_eq in Hc.
  pose proof (digits2_pos_bound m) as Hb.
  assert (Hd : (Zpos (digits2_pos m) <= 53)%Z) by (unfold prec in Hc; lia).
  eapply Z.lt_le_trans; [exact Hb |].
  apply Z.pow_le_mono_r; lia.
Qed.

Lemma Math_round_is_number (x : float) :
  is_finite x = true -> (Math_round x =? Math_round x)%float = true.
Proof.
  intros Hfin.
  assert (Hx : (x =? x)%float = true).
  { unfold is_finite, is_nan in Hfin.
    destruct (x =? x)%float; [reflexivity | discriminate]. }
  unfold Math_round. destruct (Prim2SF x) as [s | s | | s m e] eqn:Hsf;
    try exact Hx.
  destruct (0 <=? e)%Z eqn:He; [exact Hx |].
  apply Z.leb_gt in He.
  destruct (Z.eqb_spec ((cond_Zopp s (Zpos m) * 2 + 2 ^ (- e)) / (2 * 2 ^ (- e))) 0)
    as [Hz | Hz]; [destruct s; reflexivity |].
  apply Z2float_is_number.
  pose proof (finite_mantissa_bound x s m e Hsf) as Hm.
  assert (Hd : (2 <= 2 ^ (- e))%Z).
  { change 2%Z with (2 ^ 1)%Z at 1. apply Z.pow_le_mono_r; lia. }
  set (d := (2 ^ (- e))%Z) in *.
  assert (Hq : (- (Zpos m) - 1 <= (cond_Zopp s (Zpos m) * 2 + d) / (2 * d)
                <= Zpos m + 1)%Z).
  { split.
    - apply Z.div_le_lower_bound; [lia |]. destruct s; simpl; nia.
    - apply Z.div_le_upper_bound; [lia |]. destruct s; simpl; nia. }
  lia.
Qed.

(** ** Generated expressions *)

Lemma string_forall_impl (p q : ascii -> bool) (s : string) :
  (forall c, p c = true -> q c = true) ->
  string_forall p s = true -> string_forall q s = true.
Proof.
  intros Hpq. induction s as [|c s IH]; simpl; [reflexivity |].
  rewrite !andb_true_iff. intros [Hc Hs]. auto.
Qed.

Lemma string_of_uint_digits (d : Decimal.uint) :
  string_forall is_digit (NilEmpty.string_of_uint d) = true.
Proof. induction d; simpl; trivial. Qed.

Lemma String_of_no_parens (n : Z) : no_parens (String_of n) = true.
Proof.
  assert (Hd : forall d, no_parens (NilEmpty.string_of_uint d) = true).
  { intros d. apply string_forall_impl with is_digit;
      [| apply string_of_uint_digits].
    intros [[] [] [] [] [] [] [] []]; vm_compute; congruence. }
  unfold String_of. destruct (Z.to_int n) as [d | d]; simpl; [apply Hd |].
  unfold no_parens in *. simpl. apply Hd.
Qed.

Lemma digit_String_of (n : Z) :
  (1 <= n <= 9)%Z -> is_number_token (String_of n).
Proof.
  intros Hn. destruct n as [|p|p]; try lia.
  do 4 (try destruct p as [p|p|]); try lia; now split.
Qed.

Lemma OPS_no_parens (op : string) : In op OPS -> no_parens op = true.
Proof.
  intros H. repeat (destruct H as [<- | H]; [reflexivity |]). destruct H.
Qed.

Lemma OPS_symbol_token (op : string) : In op OPS -> is_symbol_token op.
Proof.
  intros H.
  repeat (destruct H as [<- | H]; [eexists; split; [| reflexivity]; reflexivity |]).
  destruct H.
Qed.

Lemma balanced_from_skip (s rest : string) (c : Z) :
  no_parens s = true -> balanced_from c (s +:+ rest) = balanced_from c rest.
Proof.
  unfold no_parens. induction s as [|x s IH]; [reflexivity |].
  simpl string_forall. rewrite andb_true_iff, negb_true_iff, orb_false_iff.
  intros [[Ho Hc] Hs]. rewrite append_cons. simpl. rewrite Ho, Hc. now apply IH.
Qed.

Lemma balanced_from_render (t : tree) (rest : string) (c : Z) :
  (0 <= c)%Z ->
  Forall (fun op => no_parens op = true) (tree_ops t) ->
  balanced_from c (render t +:+ rest) = balanced_from c rest.
Proof.
  revert rest c. induction t as [n | l IHl op r IHr]; intros rest c Hc Hops.
  - apply balanced_from_skip, String_of_no_parens.
  - simpl in Hops. apply Forall_app in Hops as [Hl Hops].
    apply Forall_cons in Hops as [Hop Hr].
    simpl render. rewrite !append_assoc, append_cons, append_nil_l.
    simpl balanced_from. rewrite IHl by first [lia | assumption].
    rewrite balanced_from_skip by exact Hop.
    rewrite IHr by first [lia | assumption].
    rewrite append_cons, append_nil_l. simpl balanced_from.
    destruct (Z.ltb_spec (c + 1 - 1) 0); [lia |].
    now replace (c + 1 - 1)%Z with c by lia.
Qed.

Lemma balancedParens_render (t : tree) :
  Forall (fun op => In op OPS) (tree_ops t) -> balancedParens (render t) = true.
Proof.
  intros Hops. unfold balancedParens.
  rewrite <- (append_nil_r (render t)).
  rewrite balanced_from_render; [reflexivity | lia |].
  eapply Forall_impl; [exact Hops |]. apply OPS_no_parens.
Qed.

Lemma tokenize_render (t : tree) :
  Forall (fun n => is_number_token (String_of n)) (leaves t) ->
  Forall is_symbol_token (tree_ops t) ->
  tokenize (render t) = tree_tokens t.
Proof.
  unfold tokenize.
  induction t as [n | l IHl op r IHr]; intros Hleaves Hops.
  - apply Forall_cons in Hleaves as [[Hne Hd] _]. simpl.
    now rewrite (match_all_digits _ "" Hd).
  - simpl in Hleaves, Hops.
    apply Forall_app in Hleaves as [Hll Hlr].
    apply Forall_app in Hops as [Hol Hops].
    apply Forall_cons in Hops as [(c & Hc & ->) Hor].
    change (render (Node l (String c "") r))
      with ("" +:+ String "(" (render l +:+ String c (render r +:+ String ")" ""))).
    rewrite (match_all_symbol "" _ "(" "" eq_refl).
    rewrite (match_all_symbol (render l) _ c "" Hc).
    rewrite (match_all_symbol (render r) "" ")" "" eq_refl).
    rewrite IHl, IHr by assumption. reflexivity.
Qed.

Lemma tree_tokens_length (t : tree) :
  length (tree_tokens t) = (4 * nodes t + 1)%nat.
Proof.
  induction t as [n | l IHl op r IHr]; simpl; [reflexivity |].
  rewrite !length_app. simpl. rewrite length_app. simpl. lia.
Qed.

(** ** The draws of an attempt *)

Lemma weighted_pick_key (r : Q) (c : float) (entries : list (string * float)) :
  In (weighted_pick r c entries) ("+" :: map fst entries).
Proof.
  revert c. induction entries as [|[op w] entries IH]; intros c; simpl.
  - now left.
  - destruct (Qle_bool _ _); [right; now left |].
    destruct (IH (c + w)%float) as [H | H]; [now left | right; now right].
Qed.

Lemma weights_keys (level : Z) : map fst (getOperatorWeights level) = OPS.
Proof.
  unfold getOperatorWeights.
  destruct (level <=? 3)%Z; [| destruct (level <=? 6)%Z]; reflexivity.
Qed.

Lemma advancing_operator (weights : list (string * float)) :
  advancing (getWeightedRandomOperator weights).
Proof.
  apply advancing_bind; [apply advancing_random |].
  intros r. apply advancing_ret.
Qed.

Lemma advancing_gen_ops (n : nat) (weights : list (string * float)) :
  advancing (gen_ops n weights).
Proof.
  induction n as [|n IH]; simpl; [apply advancing_ret |].
  apply advancing_bind; [apply advancing_operator | intros op].
  apply advancing_bind; [exact IH | intros rest]. apply advancing_ret.
Qed.

Lemma advancing_gen_numbers (n : nat) (maxNumber : Z) :
  advancing (gen_numbers n maxNumber).
Proof.
  induction n as [|n IH]; simpl; [apply advancing_ret |].
  apply advancing_bind; [apply advancing_randInt | intros x].
  apply advancing_bind; [exact IH | intros rest]. apply advancing_ret.
Qed.

Lemma advancing_attempt_expr (fuel : nat) (level count : Z) :
  advancing (attempt_expr fuel level count).
Proof.
  unfold attempt_expr.
  apply advancing_bind; [apply advancing_gen_numbers | intros numbers].
  apply advancing_bind; [apply advancing_gen_ops | intros ops].
  apply advancing_buildRandomExpr.
Qed.

Lemma gen_ops_spec (n : nat) (level : Z) (ops : list string) (s s' : stream) :
  gen_ops n (getOperatorWeights level) s = Some (ops, s') ->
  length ops = n /\ Forall (fun op => In op OPS) ops.
Proof.
  revert ops s s'. induction n as [|n IH]; intros ops s s' H; simpl in H.
  - apply ret_some in H as [-> _]. now split.
  - apply bind_some in H as (op & s1 & Hop & H).
    apply bind_some in H as (rest & s2 & Hrest & H).
    apply ret_some in H as [-> _]. apply IH in Hrest as [Hlen Hall].
    split; [simpl; now rewrite Hlen |]. constructor; [| exact Hall].
    unfold getWeightedRandomOperator in Hop.
    apply bind_some in Hop as (r & s3 & _ & Hop).
    apply ret_some in Hop as [-> _].
    pose proof (weighted_pick_key r 0%float (getOperatorWeights level)) as Hk.
    rewrite weights_keys in Hk. destruct Hk as [<- | Hk]; [now left | exact Hk].
Qed.

Lemma gen_numbers_spec (n : nat) (maxNumber : Z) (numbers : list Z)
    (s s' : stream) :
  gen_numbers n maxNumber s = Some (numbers, s') ->
  length numbers = n
  /\ (valid_stream s -> (1 <= maxNumber)%Z ->
      Forall (fun x => 1 <= x <= maxNumber)%Z numbers).
Proof.
  intros H. split.
  - revert numbers s s' H.
    induction n as [|n IH]; intros numbers s s' H; simpl in H.
    + now apply ret_some in H as [-> _].
    + apply bind_some in H as (x & s1 & _ & H).
      apply bind_some in H as (rest & s2 & Hrest & H).
      apply ret_some in H as [-> _]. simpl. now rewrite (IH _ _ _ Hrest).
  - intros Hs Hmax.
    destruct (gen_numbers_range n maxNumber s Hs Hmax)
      as (numbers' & s'' & H' & _ & Hall & _).
    rewrite H' in H. now injection H as <- _.
Qed.

Lemma buildRandomExpr_empty (fuel : nat) (ops : list string) (s : stream) :
  buildRandomExpr fuel [] ops s = Some (Throw HostError, s).
Proof. destruct fuel; reflexivity. Qed.

(** What an attempt builds, when it builds something. *)
Lemma attempt_expr_tree (fuel : nat) (level count : Z) (e : string)
    (s s' : stream) :
  attempt_expr fuel level count s = Some (Return e, s') ->
  exists t : tree,
    e = render t
    /\ Z.of_nat (length (leaves t)) = count
    /\ Z.of_nat (nodes t) = (count - 1)%Z
    /\ Forall (fun op => In op OPS) (tree_ops t)
    /\ (valid_stream s -> (1 <= max_number level)%Z ->
        Forall (fun x => 1 <= x <= max_number level)%Z (leaves t)).
Proof.
  unfold attempt_expr. intros H.
  apply bind_some in H as (numbers & s1 & Hnum & H).
  apply bind_some in H as (ops & s2 & Hops & H).
  apply gen_numbers_spec in Hnum as [Hlen Hrange].
  apply gen_ops_spec in Hops as [Hlenops Hall].
  destruct (Z.to_nat count) as [|n] eqn:Hcount.
  - destruct numbers; [| discriminate].
    rewrite buildRandomExpr_empty in H. discriminate.
  - assert (Hn : Z.to_nat (count - 1) = n) by lia.
    apply buildRandomExpr_tree in H as (t & He & Hl & Ho & Hnodes);
      [| lia].
    exists t. split; [exact He |].
    pose proof (Permutation_length Hl) as Hll.
    split; [lia |]. split; [lia |]. split.
    + now rewrite Ho.
    + intros Hs Hmax. rewrite Hl. now apply Hrange.
Qed.

(** ** The puzzle of a round *)

Lemma rejected_attempts_advances (fuel : nat) (level count : Z) (n : nat)
    (s s' : stream) :
  rejected_attempts fuel level count n s s' -> advances s s'.
Proof.
  induction 1 as [s | n s s1 s2 e Hatt _ _ IH]; [apply advances_refl |].
  eapply advances_trans; [| exact IH].
  eapply advancing_attempt_expr. exact Hatt.
Qed.

Lemma newRound_cases (fuel : nat) (numCount : option Z) (g g' : game)
    (s s' : stream) :
  newRound fuel numCount g s = Some (Return g', s') ->
  (exists (s2 : stream) (r : float) (t : tree),
      accept (render t) = Some r
      /\ start_round (render t) r g s2 = Some (g', s')
      /\ Z.of_nat (length (leaves t)) = round_count numCount (currentLevel g)
      /\ Z.of_nat (nodes t) = (round_count numCount (currentLevel g) - 1)%Z
      /\ Forall (fun op => In op OPS) (tree_ops t)
      /\ (valid_stream s -> (1 <= max_number (currentLevel g))%Z ->
          Forall (fun x => 1 <= x <= max_number (currentLevel g))%Z (leaves t)))
  \/ (exists s1 : stream,
        start_round "(3+4)*2" 14%float g s1 = Some (g', s')).
Proof.
  intros H. unfold newRound in H.
  apply newRound_loop_result in H
    as [(k & s1 & s2 & e & r & _ & Hrej & Hatt & Hacc & Hst) | (s1 & _ & Hst)];
    [left | right; now exists s1].
  apply rejected_attempts_advances in Hrej.
  apply attempt_expr_tree in Hatt as (t & -> & Hlen & Hnodes & Hops & Hrange).
  exists s2, r, t. repeat split; try assumption.
  intros Hs Hmax. apply Hrange; [| exact Hmax].
  now apply (advances_valid s).
Qed.

(** X8. In a round at a level from 1 on, with [count] operands, the puzzle is
    the fallback [(3+4)*2] with its seven tokens, or a fully parenthesized
    expression of [count] operands between 1 and the level's [maxNumber] and
    [count - 1] operators of [OPS]; its tokens are the operands, the operators
    and [count - 1] pairs of parentheses, [4 * count - 3] in all (9, 13, 17 or
    21), and the pool has as many. *)
Theorem generated_puzzle_tokens (fuel : nat) (g g' : game) (s s' : stream) :
  valid_stream s ->
  (1 <= currentLevel g)%Z ->
  newRound fuel None g s = Some (Return g', s') ->
  (originalExpr g' = "(3+4)*2"
   /\ originalTokens g' = ["("; "3"; "+"; "4"; ")"; "*"; "2"]
   /\ length (availableTokens g') = 7%nat)
  \/ (exists t : tree,
        originalExpr g' = render t
        /\ originalTokens g' = tree_tokens t
        /\ Z.of_nat (length (leaves t)) = round_count None (currentLevel g)
        /\ Forall (fun x => 1 <= x <= max_number (currentLevel g))%Z (leaves t)
        /\ Z.of_nat (length (tree_ops t))
           = (round_count None (currentLevel g) - 1)%Z
        /\ Forall (fun op => In op OPS) (tree_ops t)
        /\ Z.of_nat (length (originalTokens g'))
           = (4 * round_count None (currentLevel g) - 3)%Z
        /\ length (availableTokens g') = length (originalTokens g')).
Proof.
  intros Hs Hlevel H.
  assert (Hmax : (1 <= max_number (currentLevel g) <= 9)%Z)
    by (unfold max_number; pose proof (Z.div_pos (currentLevel g) 2); lia).
  apply newRound_cases in H
    as [(s2 & r & t & _ & Hst & Hlen & Hnodes & Hops & Hrange) | (s1 & Hst)];
    apply start_round_fields in Hst as (He & Ht & _ & _ & _ & _ & _ & Hpool);
    apply Permutation_length in Hpool; rewrite length_map, <- Ht in Hpool.
  - right. exists t. specialize (Hrange Hs ltac:(lia)).
    assert (Htok : originalTokens g' = tree_tokens t).
    { rewrite Ht. apply tokenize_render.
      - eapply Forall_impl; [exact Hrange |].
        intros n Hn. simpl in Hn. apply digit_String_of. lia.
      - eapply Forall_impl; [exact Hops |]. apply OPS_symbol_token. }
    assert (Hopslen : length (tree_ops t) = nodes t).
    { clear. induction t as [n | l IHl op r IHr]; simpl; [reflexivity |].
      rewrite length_app. simpl. lia. }
    repeat split; try assumption; [lia |].
    rewrite Htok, tree_tokens_length. lia.
  - left. rewrite He, Ht. repeat split. rewrite Hpool, Ht. reflexivity.
Qed.

(** ** The solution is correct *)

Lemma allowed_not_space (c : ascii) : is_allowed c = true -> is_space c = false.
Proof. destruct c as [[] [] [] [] [] [] [] []]; vm_compute; congruence. Qed.

Lemma strip_spaces_allowed (e : string) :
  string_forall is_allowed e = true -> strip_spaces e = e.
Proof.
  intros H. apply string_filter_id.
  apply string_forall_impl with is_allowed; [| exact H].
  intros c Hc. now rewrite (allowed_not_space c Hc).
Qed.

Lemma accepted_is_correct (e : string) (r : float) :
  accept e = Some r -> balancedParens e = true ->
  check_text e (Some r) = Correct.
Proof.
  intros Hacc Hbal.
  apply accept_sound in Hacc as (x & Hev & Hfin & Hoff & -> & _).
  pose proof (safeEval_allowed _ _ Hev) as Hallowed.
  pose proof (strip_spaces_allowed e (allowed_text_forall e Hallowed)) as Hclean.
  apply (check_text_decisions e (Some (Math_round x))).
  rewrite Hclean. split; [exact Hallowed |]. split; [exact Hbal |].
  exists (VNum x). split; [exact Hev |]. split; [exact Hoff |].
  now apply Math_round_is_number.
Qed.

Lemma round_is_correct (fuel : nat) (numCount : option Z) (g g' : game)
    (s s' : stream) :
  newRound fuel numCount g s = Some (Return g', s') ->
  check_text (originalExpr g') (targetValue g') = Correct.
Proof.
  intros H. apply newRound_cases in H
    as [(s2 & r & t & Hacc & Hst & _ & _ & Hops & _) | (s1 & Hst)];
    apply start_round_fields in Hst as (-> & _ & -> & _).
  - apply accepted_is_correct; [exact Hacc |]. now apply balancedParens_render.
  - vm_compute. reflexivity.
Qed.

(** X9. The expression of every round is a correct answer to it: the checker,
    given the expression and the target of the round, shows [Correct]; and so
    it does on the equation that [revealSolution] builds, from any pool and
    equation. In particular the target is a Number, equal to itself. *)
Theorem solution_is_correct (fuel : nat) (numCount : option Z)
    (g0 g1 : game) (s0 s1 : stream) (pool : list pooltoken)
    (equation : list placed) (visible : bool) (s : stream) :
  newRound fuel numCount g0 s0 = Some (Return g1, s1) ->
  check_text (originalExpr g1) (targetValue g1) = Correct
  /\ exists (g' : game) (s' : stream),
       revealSolution (set_board pool equation visible g1) s = Some (g', s')
       /\ solutionVisible g' = true
       /\ checkEquation g' = Correct.
Proof.
  intros H. pose proof (round_is_correct _ _ _ _ _ _ H) as Hcorrect.
  split; [exact Hcorrect |].
  apply newRound_puzzle in H as [Htok Hallowed].
  unfold revealSolution. simpl.
  destruct (reveal_each_total (originalTokens g1) (map (set_used false) pool)
              [] s) as ([pool' equation'] & s' & Hreveal).
  exists (set_board pool' equation' true g1), s'.
  split; [unfold mbind, Rand_bind; now rewrite Hreveal |].
  split; [reflexivity |].
  apply reveal_each_texts in Hreveal. simpl in Hreveal.
  unfold checkEquation. simpl. rewrite Hreveal, Htok.
  unfold tokenize. rewrite match_all_join, append_nil_l.
  now rewrite (string_filter_id _ _ Hallowed).
Qed.

(** ** The parameters of a round *)

Lemma gen_numbers_at (n : nat) (cap : Z) (s : stream) :
  exists (numbers : list Z) (s' : stream),
    gen_numbers n cap s = Some (numbers, s')
    /\ length numbers = n
    /\ forall i : nat,
         (i < n)%nat ->
         numbers !! i = Some (Qfloor (s i * inject_Z cap) + 1)%Z.
Proof.
  revert s. induction n as [|n IH]; intros s.
  - exists [], s. split; [reflexivity |]. split; [reflexivity |]. lia.
  - destruct (IH (fun k => s (S k))) as (rest & s' & Hrest & Hlen & Hat).
    exists ((Qfloor (s 0%nat * inject_Z cap) + 1)%Z :: rest), s'.
    split; [| split].
    + cbn [gen_numbers]. unfold randInt, mbind, Rand_bind, Math_random.
      replace (cap - 1 + 1)%Z with cap by lia.
      unfold mret at 1, Rand_ret at 1. now rewrite Hrest.
    + simpl. now rewrite Hlen.
    + intros [|i] Hi; [reflexivity |]. simpl. apply Hat. lia.
Qed.

Lemma floor_operand_of_draw (cap : Z) (r : Q) :
  operand_of_draw cap r (Qfloor (r * inject_Z cap) + 1).
Proof.
  destruct (proj1 (Qfloor_eq (r * inject_Z cap) _) eq_refl) as [Hlo Hhi].
  split; [| exact Hhi].
  rewrite Z.add_simpl_r. eapply Qle_trans; [| exact Hlo].
  unfold product_margin, Qle, Qminus, Qplus, Qopp, inject_Z.
  cbn [Qnum Qden]. lia.
Qed.

Lemma draw_gives_floor (cap : Z) (r : Q) (x : Z) :
  draw_gives cap r x -> (Qfloor (r * inject_Z cap) + 1)%Z = x.
Proof.
  intros [Hlo Hhi].
  assert (H : Qfloor (r * inject_Z cap) = (x - 1)%Z); [| lia].
  apply Qfloor_eq. split; [exact Hlo |].
  replace (x - 1 + 1)%Z with x by lia.
  eapply Qle_lt_trans; [exact Hhi |].
  unfold product_margin, Qlt, Qminus, Qplus, Qopp, inject_Z.
  cbn [Qnum Qden]. lia.
Qed.

Lemma middle_draw (cap x : Z) :
  (1 <= x <= cap)%Z ->
  (0 <= (2 * x - 1) # Z.to_pos (2 * cap))%Q
  /\ ((2 * x - 1) # Z.to_pos (2 * cap) < 1)%Q
  /\ draw_gives cap ((2 * x - 1) # Z.to_pos (2 * cap)) x.
Proof.
  intros Hx.
  assert (Hp : Z.pos (Z.to_pos (2 * cap)) = (2 * cap)%Z)
    by (apply Z2Pos.id; lia).
  unfold draw_gives, product_margin, Qle, Qlt, Qmult, Qminus, Qplus, Qopp,
    inject_Z.
  cbn [Qnum Qden]. rewrite ?Pos.mul_1_r, ?Pos2Z.inj_mul, Hp.
  repeat split; nia.
Qed.

(** The model floors the exact product of a draw and the size of the range,
    where the code floors the binary64 product; the two differ where the
    exact product is within rounding of an integer. For the draw
    6004799503160661 / 2^53 and the cap 3 the exact product is 2 - 2^-53,
    which floors to 1, and its binary64 rounding is 2. The statements on
    the value a draw gives keep the margin 2^-49 for this. *)
Lemma randInt_floors_exact_product :
  randInt 1 3 (draws [6004799503160661 # 9007199254740992]%Q (1 # 2))
  = Some (2%Z,
          fun n => draws [6004799503160661 # 9007199254740992]%Q (1 # 2) (S n))
  /\ Q_of_float 0x1.5555555555555p-1 = (6004799503160661 # 9007199254740992)%Q
  /\ (0x1.5555555555555p-1 * 3 =? 2)%float = true.
Proof. repeat split; vm_compute; reflexivity. Qed.

(** C8. A round at a level L from 1 on runs for
    max(30, 60 + max(0, 10 - (L-1)*2)) seconds, between 60 and 70. Unless
    it is the fallback, its expression is made of the operands that the
    accepted attempt drew, min(3 + floor((L-1)/3), 6) of them (3 to 6), each
    an integer from 1 to the cap min(9, 3 + floor(L/2)) (3 to 9) and each
    made of one draw of its own: the draw times the cap is below the
    operand, and not below the operand less one by more than 2^-49. The
    other way round, a draw whose product with the cap lies between [x - 1]
    and [x] less 2^-49 makes the operand [x]: the cap values split [[0, 1)]
    into intervals of equal width, and the draw in the middle of the
    interval of [x] gives [x]. (The margin is where the binary64 product
    may round away from the exact one.) *)
Theorem round_parameters (fuel : nat) (g g' : game) (s s' : stream) :
  (1 <= currentLevel g)%Z ->
  valid_stream s ->
  newRound fuel None g s = Some (Return g', s') ->
  (timeLeft g' = Z.max 30 (60 + Z.max 0 (10 - (currentLevel g - 1) * 2))
   /\ (60 <= timeLeft g' <= 70)%Z)
  /\ (originalExpr g' = "(3+4)*2"
      \/ exists (t : tree) (numbers : list Z) (s1 s2 : stream),
           originalExpr g' = render t
           /\ leaves t ≡ₚ numbers
           /\ advances s s1
           /\ gen_numbers (Z.to_nat (Z.min (3 + (currentLevel g - 1) / 3) 6))
                (Z.min 9 (3 + currentLevel g / 2)) s1
              = Some (numbers, s2)
           /\ Z.of_nat (length numbers)
              = Z.min (3 + (currentLevel g - 1) / 3) 6
           /\ (3 <= Z.of_nat (length numbers) <= 6)%Z
           /\ (3 <= Z.min 9 (3 + currentLevel g / 2) <= 9)%Z
           /\ forall (i : nat) (x : Z),
                numbers !! i = Some x ->
                (1 <= x <= Z.min 9 (3 + currentLevel g / 2))%Z
                /\ operand_of_draw (Z.min 9 (3 + currentLevel g / 2))
                     (s1 i) x)
  /\ (forall (n : nat) (s0 : stream),
        exists (numbers : list Z) (s1 : stream),
          gen_numbers n (Z.min 9 (3 + currentLevel g / 2)) s0
          = Some (numbers, s1)
          /\ length numbers = n
          /\ forall (i : nat) (x : Z),
               (i < n)%nat ->
               draw_gives (Z.min 9 (3 + currentLevel g / 2)) (s0 i) x ->
               numbers !! i = Some x)
  /\ (forall x : Z,
        (1 <= x <= Z.min 9 (3 + currentLevel g / 2))%Z ->
        exists r : Q,
          (0 <= r)%Q /\ (r < 1)%Q
          /\ draw_gives (Z.min 9 (3 + currentLevel g / 2)) r x).
Proof.
  intros HL Hs H.
  set (L := currentLevel g) in *.
  assert (Hcount : (3 <= Z.min (3 + (L - 1) / 3) 6 <= 6)%Z).
  { assert (0 <= (L - 1) / 3)%Z by (apply Z.div_pos; lia). lia. }
  assert (Hcap : (3 <= Z.min 9 (3 + L / 2) <= 9)%Z).
  { assert (0 <= L / 2)%Z by (apply Z.div_pos; lia). lia. }
  split; [| split; [| split]].
  - assert (Htime : timeLeft g' = getTimerDurationForLevel L).
    { unfold newRound in H.
      apply newRound_loop_result in H
        as [(k & s1 & s2 & e & r & _ & _ & _ & _ & Hst) | (s1 & _ & Hst)];
        now apply start_round_fields in Hst as (_ & _ & _ & Ht & _). }
    rewrite Htime. unfold getTimerDurationForLevel.
    split; [reflexivity | lia].
  - unfold newRound in H.
    apply newRound_loop_result in H
      as [(k & s1 & s2 & e & r & _ & Hrej & Hatt & _ & Hst) | (s1 & _ & Hst)];
      apply start_round_fields in Hst as (He & _); [right | now left].
    apply rejected_attempts_advances in Hrej.
    unfold attempt_expr in Hatt.
    apply bind_some in Hatt as (numbers & sa & Hnum & Hatt).
    apply bind_some in Hatt as (ops & sb & Hops & Hatt).
    fold L in Hnum, Hops. unfold round_count in Hnum, Hops.
    unfold max_number in Hnum.
    destruct (gen_numbers_at (Z.to_nat (Z.min (3 + (L - 1) / 3) 6))
                (Z.min 9 (3 + L / 2)) s1)
      as (numbers' & sa' & Hnum' & Hlen & Hat).
    rewrite Hnum in Hnum'. injection Hnum' as <- <-.
    apply gen_ops_spec in Hops as [Hlenops _].
    apply buildRandomExpr_tree in Hatt as (t & -> & Hleaves & _);
      [| rewrite Hlen, Hlenops; lia].
    exists t, numbers, s1, sa.
    split; [exact He |]. split; [exact Hleaves |]. split; [exact Hrej |].
    split; [exact Hnum |]. split; [lia |]. split; [lia |].
    split; [exact Hcap |].
    intros i x Hx.
    pose proof (lookup_lt_Some _ _ _ Hx) as Hi. rewrite Hlen in Hi.
    assert (Hxv : x = (Qfloor (s1 i * inject_Z (Z.min 9 (3 + L / 2))) + 1)%Z)
      by (rewrite (Hat i Hi) in Hx; congruence).
    rewrite Hxv. clear Hx Hxv x.
    split; [| apply floor_operand_of_draw].
    destruct (advances_valid _ _ Hrej Hs i) as [H0 H1].
    pose proof (scaled_draw (s1 i) (Z.min 9 (3 + L / 2)) H0 H1 ltac:(lia)).
    lia.
  - intros n s0.
    destruct (gen_numbers_at n (Z.min 9 (3 + L / 2)) s0)
      as (numbers & s1 & Hnum & Hlen & Hat).
    exists numbers, s1. split; [exact Hnum |]. split; [exact Hlen |].
    intros i x Hi Hx. rewrite (Hat i Hi). f_equal.
    now apply draw_gives_floor.
  - intros x Hx. exists ((2 * x - 1) # Z.to_pos (2 * Z.min 9 (3 + L / 2)))%Q.
    apply middle_draw. exact Hx.
Qed.

(** ** What the host computes for a generated expression *)

Lemma digit_lex (n : Z) (b : bool) (rest : string) :
  (1 <= n <= 9)%Z -> starts_with is_digit rest = false ->
  lex LCode b (String_of n +:+ rest)
  = opt_cons (Some (TNum n)) (lex LCode true rest).
Proof.
  intros Hn Hrest. destruct n as [|p|p]; try lia.
  do 4 (try destruct p as [p|p|]); try lia;
    unfold String_of; simpl NilEmpty.string_of_int;
    rewrite append_cons, append_nil_l; simpl; now rewrite Hrest.
Qed.

Lemma render_first (t : tree) (rest : string) :
  Forall (fun n => 1 <= n <= 9)%Z (leaves t) ->
  exists (c : ascii) (s : string),
    render t +:+ rest = String c s /\ (is_digit c = true \/ c = "("%char).
Proof.
  destruct t as [n | l op r]; intros Hl.
  - apply Forall_cons in Hl as [Hn _]. simpl.
    destruct n as [|p|p]; try lia.
    do 4 (try destruct p as [p|p|]); try lia;
      eexists _, _; (split; [reflexivity | left; reflexivity]).
  - exists "("%char. eexists. split; [reflexivity | now right].
Qed.

Lemma digit_cases (c : ascii) :
  is_digit c = true -> In c (list_ascii_of_string "0123456789").
Proof.
  destruct c as [[] [] [] [] [] [] [] []]; vm_compute; intros H;
    try discriminate H; tauto.
Qed.

Lemma lex_operator (op : string) (b : binop) (c : ascii) (s : string) :
  In op OPS -> binop_of op = Some b ->
  is_digit c = true \/ c = "("%char ->
  lex LCode true (op +:+ String c s)
  = opt_cons (Some (binop_token b)) (lex LCode false (String c s)).
Proof.
  intros Hop Hb Hc.
  assert (Hcs : In c (list_ascii_of_string "0123456789(")).
  { destruct Hc as [Hc | ->]; [apply digit_cases in Hc | ]; simpl in *; tauto. }
  clear Hc.
  repeat (destruct Hop as [<- | Hop]; [injection Hb as <- |]);
    try destruct Hop; rewrite append_cons, append_nil_l.
  all: simpl in Hcs;
    repeat (destruct Hcs as [<- | Hcs]; [reflexivity |]); destruct Hcs.
Qed.

Lemma OPS_binop (op : string) : In op OPS -> exists b, binop_of op = Some b /\ b <> Pow.
Proof.
  intros H.
  repeat (destruct H as [<- | H]; [eexists; split; [reflexivity | discriminate] |]).
  destruct H.
Qed.

(** The scanner on a generated expression followed by [rest]. *)
Lemma lex_render (t : tree) (b : bool) (rest : string) :
  Forall (fun n => 1 <= n <= 9)%Z (leaves t) ->
  Forall (fun op => In op OPS) (tree_ops t) ->
  starts_with is_digit rest = false ->
  lex LCode b (render t +:+ rest)
  = opt_app (tree_jstokens t) (lex LCode true rest).
Proof.
  revert b rest. induction t as [n | l IHl op r IHr];
    intros b rest Hleaves Hops Hrest.
  - apply Forall_cons in Hleaves as [Hn _]. simpl.
    rewrite (digit_lex n b rest Hn Hrest). now destruct (lex LCode true rest).
  - simpl in Hleaves, Hops.
    apply Forall_app in Hleaves as [Hll Hlr].
    apply Forall_app in Hops as [Hol Hops].
    apply Forall_cons in Hops as [Hop Hor].
    destruct (OPS_binop op Hop) as (bo & Hbo & _).
    simpl tree_jstokens. rewrite Hbo. simpl render.
    rewrite !append_assoc, append_cons, append_nil_l.
    change (lex LCode b (String "(" ?x))
      with (opt_cons (Some TLParen) (lex LCode false x)).
    assert (Hopchar : starts_with is_digit
                        (op +:+ render r +:+ ")" +:+ rest) = false)
      by (repeat (destruct Hop as [<- | Hop]; [reflexivity |]); destruct Hop).
    rewrite (IHl false _ Hll Hol Hopchar).
    destruct (render_first r (")" +:+ rest) Hlr) as (c & s & Hfirst & Hc).
    rewrite Hfirst, (lex_operator op bo c s Hop Hbo Hc), <- Hfirst.
    rewrite (IHr false (")" +:+ rest) Hlr Hor eq_refl).
    rewrite append_cons, append_nil_l.
    change (lex LCode true (String ")" rest))
      with (opt_cons (Some TRParen) (lex LCode true rest)).
    destruct (lex LCode true rest) as [ts|]; [| reflexivity].
    simpl. repeat (rewrite <- app_assoc; simpl). reflexivity.
Qed.

(** The parser on the tokens of a generated expression. *)
Lemma parse_tree (t : tree) (ts : list jstoken) (ops : list stackop)
    (operands : list jsexpr) :
  Forall (fun op => In op OPS) (tree_ops t) ->
  parse (tree_jstokens t ++ ts) true ops operands
  = parse ts false ops (tree_jsexpr t :: operands).
Proof.
  revert ts ops operands. induction t as [n | l IHl op r IHr];
    intros ts ops operands Hops; [reflexivity |].
  simpl in Hops. apply Forall_app in Hops as [Hol Hops].
  apply Forall_cons in Hops as [Hop Hor].
  destruct (OPS_binop op Hop) as (bo & Hbo & Hpow).
  simpl tree_jstokens. simpl tree_jsexpr. rewrite Hbo.
  simpl app. simpl parse at 1.
  rewrite <- app_assoc. rewrite (IHl _ _ _ Hol).
  simpl app.
  assert (Hstep : forall rest,
            parse (binop_token bo :: rest) false (SParen :: ops)
              (tree_jsexpr l :: operands)
            = parse rest true (SBinary bo :: SParen :: ops)
                (tree_jsexpr l :: operands))
    by (intros rest; destruct bo; try congruence; reflexivity).
  rewrite Hstep, <- app_assoc, (IHr _ _ _ Hor). reflexivity.
Qed.

Lemma eval_tree (t : tree) :
  Forall (fun op => In op OPS) (tree_ops t) ->
  eval (tree_jsexpr t) = VNum (tree_value t).
Proof.
  induction t as [n | l IHl op r IHr]; intros Hops; [reflexivity |].
  simpl in Hops. apply Forall_app in Hops as [Hol Hops].
  apply Forall_cons in Hops as [Hop Hor].
  destruct (OPS_binop op Hop) as (bo & Hbo & Hpow).
  simpl. rewrite Hbo. destruct bo; try congruence; simpl;
    now rewrite (IHl Hol), (IHr Hor).
Qed.

Lemma render_allowed (t : tree) :
  Forall (fun n => 1 <= n <= 9)%Z (leaves t) ->
  Forall (fun op => In op OPS) (tree_ops t) ->
  allowed_text (render t) = true.
Proof.
  intros Hl Ho.
  assert (Hchars : string_forall is_allowed (render t) = true).
  { induction t as [n | l IHl op r IHr]; simpl.
    - apply Forall_cons in Hl as [Hn _].
      apply allowed_text_forall, number_token_allowed, digit_String_of, Hn.
    - simpl in Hl, Ho. apply Forall_app in Hl as [Hll Hlr].
      apply Forall_app in Ho as [Hol Ho]. apply Forall_cons in Ho as [Hop Hor].
      rewrite !string_forall_app, (IHl Hll Hol), (IHr Hlr Hor).
      rewrite (allowed_text_forall op
                 (symbol_token_allowed op (OPS_symbol_token op Hop))).
      reflexivity. }
  destruct (render_first t "" Hl) as (c & s & Hfirst & _).
  rewrite append_nil_r in Hfirst. rewrite Hfirst in *. exact Hchars.
Qed.

Lemma safeEval_render (t : tree) :
  Forall (fun n => 1 <= n <= 9)%Z (leaves t) ->
  Forall (fun op => In op OPS) (tree_ops t) ->
  safeEval (render t) = Return (VNum (tree_value t)).
Proof.
  intros Hl Ho. unfold safeEval. rewrite (render_allowed t Hl Ho). simpl.
  unfold Function_return. rewrite append_cons, append_nil_l.
  change (lex LCode false (String "(" ?x))
    with (opt_cons (Some TLParen) (lex LCode false x)).
  rewrite (lex_render t false ")" Hl Ho eq_refl). simpl.
  rewrite (parse_tree t [TRParen] [SParen] [] Ho). simpl.
  now rewrite (eval_tree t Ho).
Qed.

(** X10. On a fully parenthesized expression over operands from 1 to 9 and the
    four operators, as the generator builds them, [safeEval] returns the
    Number the expression denotes: the value of its tree, each operator being
    the binary64 operation of the host. *)
Theorem safeEval_fully_parenthesized (t : tree) :
  Forall (fun n => 1 <= n <= 9)%Z (leaves t) ->
  Forall (fun op => In op OPS) (tree_ops t) ->
  safeEval (render t) = Return (VNum (tree_value t)).
Proof. apply safeEval_render. Qed.

(** ** The values of the items *)

Lemma digit_finite (n : Z) : (1 <= n <= 9)%Z -> is_finite (Z2float n) = true.
Proof.
  intros Hn. destruct n as [|p|p]; try lia.
  do 4 (try destruct p as [p|p|]); try lia; reflexivity.
Qed.

Lemma items_valued_initial (numbers : list Z) :
  Forall (fun n => 1 <= n <= 9)%Z numbers ->
  items_valued numbers [] (initial_items numbers).
Proof.
  intros Hn. exists (map Leaf numbers). split; [| split].
  - induction Hn as [|n numbers Hn _ IH]; simpl; constructor; [| exact IH].
    simpl. repeat split. now apply digit_finite.
  - clear Hn. induction numbers as [|n numbers IH]; simpl;
      [reflexivity | now rewrite IH].
  - clear Hn. induction numbers as [|n numbers IH]; simpl;
      [reflexivity | exact IH].
Qed.

Lemma items_valued_perm (numbers : list Z) (used : list string)
    (items items' : list item) :
  items ≡ₚ items' -> items_valued numbers used items ->
  items_valued numbers used items'.
Proof.
  intros Hp (ts & Hf & Hl & Ho).
  destruct (Permutation_Forall2 Hp Hf) as (ts' & Hts & Hf').
  exists ts'. split; [exact Hf' |]. now rewrite <- Hts.
Qed.

Lemma items_valued_reduce (numbers : list Z) (used : list string)
    (a b combined : item) (op : string) (others : list item) :
  Forall (fun n => 1 <= n <= 9)%Z numbers -> In op OPS ->
  Forall (fun o => In o OPS) used ->
  items_valued numbers used (a :: b :: others) ->
  try_reduce a b op = Some combined ->
  items_valued numbers (op :: used) (others ++ [combined]).
Proof.
  intros Hn Hop Hused (ts & Hf & Hl & Ho) Htry.
  apply Forall2_cons_inv_l in Hf as (ta & ts1 & (Ha & Hva & Hfa) & Hf & ->).
  apply Forall2_cons_inv_l in Hf as (tb & ts2 & (Hb & Hvb & Hfb) & Hf & ->).
  simpl in Hl, Ho.
  assert (Hleaves : Forall (fun n => 1 <= n <= 9)%Z
                      (leaves (Node ta op tb))).
  { simpl. apply Forall_app. rewrite <- Hl in Hn.
    rewrite app_assoc in Hn. apply Forall_app in Hn as [Hn _].
    now apply Forall_app in Hn. }
  assert (Hops : Forall (fun o => In o OPS) (tree_ops (Node ta op tb))).
  { simpl. rewrite <- Ho in Hused. rewrite app_assoc in Hused.
    apply Forall_app in Hused as [Hused _].
    apply Forall_app in Hused as [Hua Hub].
    apply Forall_app. split; [exact Hua |]. now constructor. }
  pose proof (safeEval_render _ Hleaves Hops) as Hev.
  unfold try_reduce in Htry.
  assert (Hexpr : paren_expr a b op = render (Node ta op tb))
    by (unfold paren_expr; simpl; now rewrite Ha, Hb).
  rewrite Hexpr, Hev in Htry.
  set (v := tree_value (Node ta op tb)) in *. cbn [Number_isFinite] in Htry.
  destruct (is_finite v) eqn:Hfin; [| discriminate].
  injection Htry as <-.
  exists (ts2 ++ [Node ta op tb]). split; [| split].
  - apply Forall2_app; [exact Hf |]. constructor; [| constructor].
    simpl expr. simpl val. split; [reflexivity |]. split; [reflexivity |].
    change (all_finite (Node ta op tb))
      with (is_finite v && all_finite ta && all_finite tb).
    now rewrite Hfin, Hfa, Hfb.
  - rewrite map_app, concat_app. simpl. rewrite app_nil_r.
    rewrite Permutation_app_comm. now rewrite <- app_assoc.
  - rewrite map_app, concat_app. simpl. rewrite app_nil_r.
    rewrite <- Ho. rewrite Permutation_app_comm.
    rewrite <- !app_assoc. simpl.
    rewrite !(Permutation_middle _ _ op). reflexivity.
Qed.

Lemma reduce_loop_valued (fuel : nat) (numbers : list Z) (ops0 : list string)
    (items : list item) (ops used : list string) (k k' : nat) (e : string)
    (s s' : stream) :
  Forall (fun n => 1 <= n <= 9)%Z numbers ->
  Forall (fun o => In o OPS) ops0 ->
  items_valued numbers used items ->
  used ++ ops ≡ₚ ops0 ->
  length items = S (length ops) ->
  reduce_loop fuel items ops k s = Some (Return (e, k'), s') ->
  exists t : tree,
    e = render t /\ leaves t ≡ₚ numbers /\ tree_ops t ≡ₚ ops0
    /\ all_finite t = true.
Proof.
  intros Hn Hops0. revert items ops used k s.
  induction fuel as [|fuel IH]; intros items ops used k s Hinv Hops Hlen H;
    simpl in H;
    destruct (Nat.leb_spec (length items) 1) as [Hle | Hgt]; try discriminate;
    try (apply ret_some in H as [H _];
         destruct items as [|it [|it' items]]; simpl in *; try discriminate;
           [| lia];
         injection H as He Hk; subst e k';
         destruct ops; [| discriminate];
         rewrite app_nil_r in Hops;
         destruct Hinv as (ts & Hf & Hl & Ho);
         apply Forall2_cons_inv_l in Hf as (t & ts1 & (Ht & _ & Hfin) & Hf & ->);
         apply Forall2_nil_inv_l in Hf as ->; simpl in Hl, Ho;
         rewrite app_nil_r in Hl, Ho;
         exists t; split; [exact Ht |]; split; [exact Hl |];
         split; [now rewrite Ho | exact Hfin]).
  apply bind_some in H as (c & s1 & Honce & H).
  destruct c as [[[reduced items'] ops'] | err];
    [| apply ret_some in H as [H _]; discriminate].
  apply reduce_once_spec in Honce
    as (a & b & op & rest & others & Hab & Hnext & Hcase).
  destruct Hnext as [-> | [-> _]]; [| simpl in Hlen; lia].
  assert (Hused : Forall (fun o => In o OPS) used /\ In op OPS).
  { rewrite <- Hops in Hops0. apply Forall_app in Hops0 as [Hu Ho].
    apply Forall_cons in Ho as [Ho _]. now split. }
  destruct Hused as [Hused Hop].
  destruct reduced.
  - destruct Hcase as (combined & Htry & Hitems' & ->).
    eapply (IH items' rest (op :: used) _ s1); [| | | exact H].
    + apply items_valued_perm with (others ++ [combined]); [now symmetry |].
      apply items_valued_reduce with a b; try assumption.
      now apply items_valued_perm with items.
    + rewrite <- Hops. simpl. now rewrite Permutation_middle.
    + apply Permutation_length in Hab, Hitems'.
      rewrite length_app in Hitems'. simpl in *. lia.
  - destruct Hcase as (_ & Hitems' & ->).
    eapply (IH items' (op :: rest) used _ s1); [| exact Hops | | exact H].
    + apply items_valued_perm with items; [now symmetry | assumption].
    + apply Permutation_length in Hitems'. lia.
Qed.

Lemma attempt_expr_valued (fuel : nat) (level count : Z) (e : string)
    (s s' : stream) :
  valid_stream s -> (1 <= level)%Z ->
  attempt_expr fuel level count s = Some (Return e, s') ->
  exists t : tree,
    e = render t
    /\ Forall (fun x => 1 <= x <= 9)%Z (leaves t)
    /\ Forall (fun op => In op OPS) (tree_ops t)
    /\ all_finite t = true.
Proof.
  unfold attempt_expr. intros Hs Hlevel H.
  assert (Hmax : (1 <= max_number level <= 9)%Z)
    by (unfold max_number; pose proof (Z.div_pos level 2); lia).
  apply bind_some in H as (numbers & s1 & Hnum & H).
  apply bind_some in H as (ops & s2 & Hops & H).
  apply gen_numbers_spec in Hnum as [Hlen Hrange].
  apply gen_ops_spec in Hops as [Hlenops Hall].
  assert (Hn : Forall (fun n => 1 <= n <= 9)%Z numbers).
  { eapply Forall_impl; [apply Hrange; [exact Hs | lia] |].
    intros n Hx. simpl in Hx. lia. }
  destruct (Z.to_nat count) as [|n] eqn:Hcount.
  - destruct numbers; [| discriminate].
    rewrite buildRandomExpr_empty in H. discriminate.
  - assert (Hnn : Z.to_nat (count - 1) = n) by lia.
    unfold buildRandomExpr in H.
    apply bind_some in H as (c & s3 & Hloop & H).
    apply ret_some in H as [H _].
    destruct c as [[e' k] | err]; [| discriminate]. injection H as ->.
    apply (reduce_loop_valued fuel numbers ops _ ops []) in Hloop
      as (t & He & Hl & Ho & Hfin); try assumption;
      [| now apply items_valued_initial | reflexivity
       | unfold initial_items; rewrite length_map; lia].
    exists t. split; [exact He |]. split; [now rewrite Hl |].
    split; [now rewrite Ho | exact Hfin].
Qed.

Lemma zero_divisor_not_finite (x y : float) :
  (y =? 0)%float = true -> is_finite (x / y) = false.
Proof.
  intros Hy. rewrite FloatAxioms.eqb_spec in Hy.
  assert (Hz : exists sy, Prim2SF y = S754_zero sy).
  { destruct (Prim2SF y) as [sy | sy | | sy my ey];
      [now exists sy | | |]; try destruct sy; discriminate Hy. }
  destruct Hz as [sy Hz].
  unfold is_finite, is_nan, is_infinity.
  rewrite !FloatAxioms.eqb_spec, abs_spec, div_spec, Hz.
  destruct (Prim2SF x) as [sx | sx | | sx mx ex]; try destruct sx;
    destruct sy; reflexivity.
Qed.

Lemma all_finite_no_zero_divisor (t : tree) :
  all_finite t = true -> no_zero_divisor t = true.
Proof.
  induction t as [n | l IHl op r IHr]; [reflexivity |].
  change (all_finite (Node l op r))
    with (is_finite (tree_value (Node l op r)) && all_finite l && all_finite r).
  rewrite !andb_true_iff. intros [[Hfin Hl] Hr]. simpl no_zero_divisor.
  rewrite (IHl Hl), (IHr Hr), !andb_true_r.
  destruct (String.eqb_spec op "/") as [-> | _]; [| reflexivity].
  simpl in Hfin. destruct (tree_value r =? 0)%float eqn:Hzero; [| reflexivity].
  now rewrite (zero_divisor_not_finite _ _ Hzero) in Hfin.
Qed.

(** X11. The target of a round is the value of its expression: in a round at a
    level from 1 on the puzzle is the fallback [(3+4)*2] with target 14, or a
    generated expression whose value, as the tree of its operators and
    operands denotes it, is a finite Number within 1e-9 of the target, the
    target being that value rounded; and every sub-expression of it has a
    finite value, so that no divisor in it is zero. *)
Theorem round_target_is_value (fuel : nat) (g g' : game) (s s' : stream) :
  valid_stream s ->
  (1 <= currentLevel g)%Z ->
  newRound fuel None g s = Some (Return g', s') ->
  (originalExpr g' = "(3+4)*2" /\ targetValue g' = Some 14%float)
  \/ (exists t : tree,
        originalExpr g' = render t
        /\ targetValue g' = Some (Math_round (tree_value t))
        /\ is_finite (tree_value t) = true
        /\ off_integer (tree_value t) = false
        /\ (1000 <? Math_abs (Math_round (tree_value t)))%float = false
        /\ all_finite t = true
        /\ no_zero_divisor t = true).
Proof.
  intros Hs Hlevel H. unfold newRound in H.
  apply newRound_loop_result in H
    as [(k & s1 & s2 & e & r & _ & Hrej & Hatt & Hacc & Hst) | (s1 & _ & Hst)];
    apply start_round_fields in Hst as (He & _ & Ht & _);
    [right | left; now split].
  apply rejected_attempts_advances in Hrej.
  apply attempt_expr_valued in Hatt as (t & -> & Hl & Ho & Hfin);
    [| now apply (advances_valid s) | exact Hlevel].
  apply accept_sound in Hacc as (x & Hev & Hx & Hoff & -> & Hbig).
  rewrite (safeEval_render t Hl Ho) in Hev. injection Hev as <-.
  exists t. repeat split; try assumption.
  now apply all_finite_no_zero_divisor.
Qed.

(** ** [newRound] raises nothing *)

Lemma attempt_expr_returns (fuel : nat) (level count : Z) (s s' : stream)
    (c : completion string) :
  valid_stream s -> (1 <= count)%Z ->
  attempt_expr fuel level count s = Some (c, s') ->
  exists e : string, c = Return e.
Proof.
  unfold attempt_expr. intros Hs Hcount H.
  apply bind_some in H as (numbers & s1 & Hnum & H).
  apply bind_some in H as (ops & s2 & Hops & H).
  assert (Hs2 : valid_stream s2).
  { eapply advances_valid; [eapply advancing_gen_ops; exact Hops |].
    eapply advances_valid; [eapply advancing_gen_numbers; exact Hnum | exact Hs]. }
  apply gen_numbers_spec in Hnum as [Hlen _].
  unfold buildRandomExpr in H.
  apply bind_some in H as (c1 & s3 & Hloop & H).
  apply ret_some in H as [-> _].
  apply reduce_loop_returns in Hloop as [[e k] ->]; [now exists e | exact Hs2 |].
  unfold initial_items. destruct numbers; [simpl in Hlen; lia | discriminate].
Qed.

Lemma advancing_genId : advancing genId.
Proof.
  apply advancing_bind; [apply advancing_random |].
  intros r. apply advancing_ret.
Qed.

Lemma advancing_make_available (tokens : list string) :
  advancing (make_available tokens).
Proof.
  induction tokens as [|t tokens IH]; simpl; [apply advancing_ret |].
  apply advancing_bind; [apply advancing_genId | intros i].
  apply advancing_bind; [exact IH | intros more]. apply advancing_ret.
Qed.

Lemma advancing_start_round (e : string) (target : float) (g : game) :
  advancing (start_round e target g).
Proof.
  unfold start_round.
  apply advancing_bind; [apply advancing_make_available | intros av].
  apply advancing_bind; [apply advancing_shuffleArray | intros pool].
  apply advancing_ret.
Qed.

Lemma newRound_loop_returns (fuel n : nat) (count : Z) (g : game)
    (s s' : stream) (c : completion game) :
  valid_stream s -> (1 <= count)%Z ->
  newRound_loop fuel n count g s = Some (c, s') ->
  exists g' : game, c = Return g'.
Proof.
  intros Hs Hcount. revert s Hs. induction n as [|n IH]; intros s Hs H;
    simpl in H.
  - apply bind_some in H as (g' & s1 & _ & H).
    apply ret_some in H as [-> _]. now exists g'.
  - apply bind_some in H as (c1 & s1 & Hatt & H).
    assert (Hs1 : valid_stream s1).
    { eapply advances_valid; [eapply advancing_attempt_expr; exact Hatt | exact Hs]. }
    apply attempt_expr_returns in Hatt as [e ->]; [| exact Hs | exact Hcount].
    destruct (accept e) as [r|]; [| now apply (IH s1)].
    apply bind_some in H as (g' & s2 & _ & H).
    apply ret_some in H as [-> _]. now exists g'.
Qed.

(** X12. With at least one operand to draw (the count of every level from 1 on
    is 3 to 6), [newRound] raises nothing: whenever it ends, it has set up a
    round, and the draws left are draws of the stream it was given. With a
    count below 1, its first attempt raises, from [buildRandomExpr] on the
    empty list, outside the [try]. *)
Theorem newRound_never_raises (fuel : nat) (numCount : option Z) (g : game)
    (s : stream) :
  valid_stream s ->
  ((1 <= round_count numCount (currentLevel g))%Z ->
   forall (c : completion game) (s' : stream),
     newRound fuel numCount g s = Some (c, s') ->
     exists g' : game, c = Return g')
  /\ ((round_count numCount (currentLevel g) < 1)%Z ->
      newRound fuel numCount g s = Some (Throw HostError, s))
  /\ ((1 <= currentLevel g)%Z ->
      (3 <= round_count None (currentLevel g) <= 6)%Z).
Proof.
  intros Hs. split; [| split].
  - intros Hcount c s' H. now apply newRound_loop_returns in H.
  - intros Hcount. unfold newRound, ATTEMPT_LIMIT. simpl newRound_loop.
    unfold attempt_expr.
    replace (Z.to_nat (round_count numCount (currentLevel g))) with 0%nat by lia.
    replace (Z.to_nat (round_count numCount (currentLevel g) - 1)) with 0%nat
      by lia.
    simpl. unfold mbind, Rand_bind, mret, Rand_ret. simpl.
    now rewrite buildRandomExpr_empty.
  - intros Hl. unfold round_count.
    pose proof (Z.div_pos (currentLevel g - 1) 3). lia.
Qed.

(** ** The board under the player's moves *)

Lemma set_board_same (g : game) :
  set_board (availableTokens g) (equationTokens g) (solutionVisible g) g = g.
Proof. now destruct g. Qed.

Lemma set_board_twice (p p' : list pooltoken) (e e' : list placed)
    (v v' : bool) (g : game) :
  set_board p e v (set_board p' e' v' g) = set_board p e v g.
Proof. reflexivity. Qed.

Lemma play_shape (g : game) (m : move) :
  play g m
  = set_board (availableTokens (play g m)) (equationTokens (play g m))
      (solutionVisible (play g m)) g.
Proof.
  destruct m as [i | j |]; simpl; [| | reflexivity].
  - unfold addToEquation. destruct (availableTokens g !! i) as [t|];
      [destruct (used t) |]; simpl; now rewrite ?set_board_same.
  - unfold removeFromEquation.
    destruct (equationTokens g !! j); [reflexivity |].
    destruct (availableTokens g) eqn:Hp; simpl; rewrite <- ?Hp;
      now rewrite set_board_same.
Qed.

Lemma play_all_shape (moves : list move) (g : game) :
  play_all moves g
  = set_board (availableTokens (play_all moves g))
      (equationTokens (play_all moves g))
      (solutionVisible (play_all moves g)) g.
Proof.
  unfold play_all. revert g.
  induction moves as [|m moves IH]; intros g; simpl;
    [now rewrite set_board_same |].
  rewrite (IH (play g m)) at 1. rewrite (play_shape g m) at 4.
  now rewrite set_board_twice.
Qed.

Lemma play_keeps_entries (g : game) (m : move) :
  map pool_entry (availableTokens (play g m))
  = map pool_entry (availableTokens g).
Proof.
  destruct m as [i | j |]; simpl.
  - unfold addToEquation.
    destruct (availableTokens g !! i) as [t|] eqn:Hi; [| reflexivity].
    destruct (used t); [reflexivity |]. simpl. now apply entries_insert.
  - unfold removeFromEquation.
    destruct (equationTokens g !! j); [simpl; apply entries_unuse |].
    destruct (availableTokens g) eqn:Hp; simpl; now rewrite Hp.
  - apply entries_reset.
Qed.

Lemma play_all_keeps_entries (moves : list move) (g : game) :
  map pool_entry (availableTokens (play_all moves g))
  = map pool_entry (availableTokens g).
Proof.
  unfold play_all. revert g.
  induction moves as [|m moves IH]; intros g; simpl; [reflexivity |].
  now rewrite IH, play_keeps_entries.
Qed.

Lemma play_from_pool (g : game) (m : move) :
  from_pool (availableTokens g) (equationTokens g) ->
  from_pool (availableTokens (play g m)) (equationTokens (play g m)).
Proof.
  unfold from_pool. rewrite play_keeps_entries. intros H.
  destruct m as [i | j |]; simpl.
  - unfold addToEquation.
    destruct (availableTokens g !! i) as [t|] eqn:Hi; [| exact H].
    destruct (used t); [exact H |]. simpl.
    apply Forall_app. split; [exact H |]. constructor; [| constructor].
    apply (list_elem_of_fmap_2 pool_entry). now apply list_elem_of_lookup_2 in Hi.
  - unfold removeFromEquation.
    destruct (equationTokens g !! j); [simpl; now apply Forall_delete |].
    destruct (availableTokens g) eqn:Hp; simpl; rewrite ?Hp; exact H.
  - constructor.
Qed.

Lemma play_all_from_pool (moves : list move) (g : game) :
  from_pool (availableTokens g) (equationTokens g) ->
  from_pool (availableTokens (play_all moves g))
    (equationTokens (play_all moves g)).
Proof.
  unfold play_all. revert g.
  induction moves as [|m moves IH]; intros g H; simpl; [exact H |].
  now apply IH, play_from_pool.
Qed.

Lemma play_all_view_game (moves : list move) (v : board_view) :
  view_game (play_all_view moves v) = play_all moves (view_game v).
Proof.
  unfold play_all_view, play_all. revert v.
  induction moves as [|m moves IH]; intros v; simpl; [reflexivity |].
  now rewrite IH.
Qed.

Lemma play_all_view_hint (moves : list move) (v : board_view) :
  view_hint (play_all_view moves v)
  = if existsb is_reset moves then None else view_hint v.
Proof.
  unfold play_all_view. revert v.
  induction moves as [|m moves IH]; intros v; simpl; [reflexivity |].
  rewrite IH. simpl. destruct (is_reset m); simpl; [| reflexivity].
  now destruct (existsb is_reset moves).
Qed.

(** X13. The moves never change the pool but for its consumed marks: after any
    sequence of them it holds the same ids and texts in the same order; they
    never put into the equation an entry that is not the id and text of a pool
    token; they leave the level, the time, the target, the expression and its
    tokens alone; and the hint is gone once [resetEquation] is among them, and
    is the one of before otherwise. *)
Theorem moves_keep_pool (moves : list move) (v : board_view) :
  view_game (play_all_view moves v) = play_all moves (view_game v)
  /\ map id (availableTokens (view_game (play_all_view moves v)))
     = map id (availableTokens (view_game v))
  /\ map token (availableTokens (view_game (play_all_view moves v)))
     = map token (availableTokens (view_game v))
  /\ (from_pool (availableTokens (view_game v))
        (equationTokens (view_game v)) ->
      from_pool (availableTokens (view_game (play_all_view moves v)))
        (equationTokens (view_game (play_all_view moves v))))
  /\ currentLevel (view_game (play_all_view moves v))
     = currentLevel (view_game v)
  /\ timeLeft (view_game (play_all_view moves v)) = timeLeft (view_game v)
  /\ targetValue (view_game (play_all_view moves v))
     = targetValue (view_game v)
  /\ originalExpr (view_game (play_all_view moves v))
     = originalExpr (view_game v)
  /\ originalTokens (view_game (play_all_view moves v))
     = originalTokens (view_game v)
  /\ view_hint (play_all_view moves v)
     = (if existsb is_reset moves then None else view_hint v).
Proof.
  rewrite play_all_view_game, play_all_view_hint.
  pose proof (play_all_shape moves (view_game v)) as Hshape.
  split; [reflexivity |].
  split; [now rewrite !ids_of_entries, play_all_keeps_entries |].
  split; [now rewrite !texts_of_entries, play_all_keeps_entries |].
  split; [apply play_all_from_pool |].
  repeat split; now rewrite Hshape.
Qed.

Lemma reset_by_entries (p1 p2 : list pooltoken) :
  map pool_entry p1 = map pool_entry p2 ->
  map (set_used false) p1 = map (set_used false) p2.
Proof.
  revert p2. induction p1 as [|a p1 IH]; intros [|b p2] H; simpl in *;
    try discriminate; [reflexivity |].
  injection H as Hid Htok H. rewrite (IH p2 H). f_equal.
  destruct a, b. simpl in *. now subst.
Qed.

Lemma reset_unused (pool : list pooltoken) :
  Forall (fun t => used t = false) pool -> map (set_used false) pool = pool.
Proof.
  induction 1 as [|t pool Ht _ IH]; simpl; [reflexivity |].
  rewrite IH. f_equal. rewrite <- Ht. apply set_used_same.
Qed.

(** X14. [resetEquation] undoes every move: after any sequence of moves it
    gives the state it gives at once, and on the board of a new round (no
    token consumed, an empty equation, the solution hidden) that is the board
    itself, ids and order included. *)
Theorem reset_restores_board (moves : list move) (g : game) :
  play_all (moves ++ [Reset]) g = resetEquation g
  /\ (Forall (fun t => used t = false) (availableTokens g) ->
      equationTokens g = [] -> solutionVisible g = false ->
      play_all (moves ++ [Reset]) g = g).
Proof.
  assert (H : play_all (moves ++ [Reset]) g = resetEquation g).
  { unfold play_all. rewrite fold_left_app. simpl. fold (play_all moves g).
    rewrite (play_all_shape moves g). unfold resetEquation. simpl.
    rewrite set_board_twice. f_equal.
    apply reset_by_entries, play_all_keeps_entries. }
  split; [exact H |]. intros Hun He Hv. rewrite H. unfold resetEquation.
  rewrite (reset_unused _ Hun), <- He, <- Hv. apply set_board_same.
Qed.

(** ** The "Check Solution" button *)

Lemma filter_length_all {A} (P : A -> Prop) `{forall x, Decision (P x)}
    (l : list A) :
  length (filter P l) = length l -> Forall P l.
Proof.
  induction l as [|a l IH]; [constructor |].
  rewrite filter_cons. destruct (decide (P a)) as [Ha | Ha]; simpl.
  - intros Hlen. constructor; [exact Ha |]. apply IH. lia.
  - intros Hlen. pose proof (length_filter P l). lia.
Qed.

Lemma forallb_used (pool : list pooltoken) :
  forallb used pool = true <-> Forall (fun t => used t = true) pool.
Proof.
  rewrite forallb_forall, Forall_forall. split; intros H t Ht; apply H.
  - now apply list_elem_of_In.
  - now apply list_elem_of_In.
Qed.

Lemma board_ok_button (pool0 : list pooltoken) (g : game) :
  board_ok pool0 g ->
  allTokensUsed g
  = forallb used (availableTokens g) && (0 <? length (availableTokens g))%nat.
Proof.
  intros Hok. apply board_ok_conserves in Hok as [Hlen _].
  unfold allTokensUsed. rewrite Hlen. unfold consumed.
  destruct (forallb used (availableTokens g)) eqn:Hall.
  - apply forallb_used in Hall. rewrite (filter_all _ _ Hall).
    now rewrite Nat.eqb_refl.
  - destruct (Nat.eqb_spec
                (length (filter (fun t => used t = true) (availableTokens g)))
                (length (availableTokens g))) as [E | E]; [| reflexivity].
    apply filter_length_all, forallb_used in E. congruence.
Qed.

(** X15. On a board whose pool has pairwise distinct ids, after any moves, the
    condition of the "Check Solution" button, [equationTokens.length ===
    availableTokens.length] with a nonempty equation, holds exactly when every
    token of the (nonempty) pool is marked consumed. *)
Theorem button_when_all_consumed (e : string) (target : float) (g0 g : game)
    (s s' : stream) (moves : list move) :
  start_round e target g0 s = Some (g, s') ->
  NoDup (map id (availableTokens g)) ->
  allTokensUsed (play_all moves g)
  = forallb used (availableTokens (play_all moves g))
    && (0 <? length (availableTokens (play_all moves g)))%nat.
Proof.
  intros Hstart Hnd.
  apply start_round_fields in Hstart as (_ & _ & _ & _ & _ & Heq & Hun & _).
  assert (Hok : board_ok (availableTokens g) g).
  { split; [reflexivity |]. rewrite Heq. now rewrite consumed_none. }
  apply (play_all_keeps_board _ moves) in Hok; [| assumption].
  now apply board_ok_button in Hok.
Qed.

(** ** [revealSolution] on the board of a round *)

Lemma unused_insert (pool : list pooltoken) (i : nat) (t : pooltoken) :
  pool !! i = Some t -> used t = false ->
  unused pool ≡ₚ t :: unused (<[i := set_used true t]> pool).
Proof.
  unfold unused. revert i.
  induction pool as [|a pool IH]; intros [|i] Hi Hu; simpl in *;
    try discriminate.
  - injection Hi as ->.
    rewrite (filter_cons_True _ t) by assumption.
    rewrite filter_cons_False; [reflexivity |]. simpl. congruence.
  - rewrite !(filter_cons _ a). destruct (decide (used a = false)); simpl.
    + rewrite (IH i Hi Hu). apply perm_swap.
    + now apply IH.
Qed.

Lemma unused_nil (pool : list pooltoken) :
  unused pool = [] -> Forall (fun t => used t = true) pool.
Proof.
  unfold unused. induction pool as [|a pool IH]; [constructor |].
  rewrite filter_cons. destruct (decide (used a = false)) as [Ha | Ha];
    [discriminate |].
  intros H. constructor; [now destruct (used a) | now apply IH].
Qed.

Lemma unused_reset (pool : list pooltoken) :
  unused (map (set_used false) pool) = map (set_used false) pool.
Proof.
  unfold unused. apply filter_all.
  apply Forall_forall. intros t Ht. apply list_elem_of_In, in_map_iff in Ht.
  now destruct Ht as (t' & <- & _).
Qed.

Lemma find_unused_some (tok : string) (pool : list pooltoken) :
  tok ∈ map token (unused pool) ->
  exists (idx : nat) (t : pooltoken), find_unused tok pool = Some (idx, t).
Proof.
  intros Hin. destruct (find_unused tok pool) as [[idx t]|] eqn:Hf; [eauto |].
  exfalso. apply list_elem_of_In, in_map_iff in Hin as (t & Htok & Ht).
  apply list_elem_of_In in Ht. unfold unused in Ht.
  apply list_elem_of_filter in Ht as [Hu Ht].
  now apply (find_unused_none tok pool Hf t Ht Hu).
Qed.

(** With as many unconsumed pool tokens of each text as [toks] asks for, the
    [forEach] takes them all and makes no entry of its own. *)
Lemma reveal_each_pool (toks : list string) (pool : list pooltoken)
    (equation : list placed) (s : stream) :
  map token (unused pool) ≡ₚ toks ->
  exists (pool' : list pooltoken) (equation' : list placed),
    reveal_each toks pool equation s = Some ((pool', equation'), s)
    /\ Forall (fun t => used t = true) pool'
    /\ map pool_entry pool' = map pool_entry pool
    /\ map placed_entry equation'
       ≡ₚ map placed_entry equation ++ map pool_entry (unused pool).
Proof.
  revert pool equation. induction toks as [|tok toks IH];
    intros pool equation Hperm.
  - apply Permutation_nil_r, map_eq_nil in Hperm.
    exists pool, equation. split; [reflexivity |].
    split; [now apply unused_nil |]. split; [reflexivity |].
    now rewrite Hperm, app_nil_r.
  - assert (Hin : tok ∈ map token (unused pool))
      by (rewrite Hperm; apply list_elem_of_here).
    destruct (find_unused_some tok pool Hin) as (idx & t & Hf).
    pose proof (find_unused_spec _ _ _ _ Hf) as (Hidx & Hu & Htok & _).
    pose proof (unused_insert pool idx t Hidx Hu) as Hun.
    destruct (IH (<[idx := set_used true t]> pool)
                (equation ++ [{| placed_id := id t; placed_token := token t |}]))
      as (pool' & equation' & Hrev & Hall & Hent & Heq).
    { apply (Permutation_cons_inv (a := tok)).
      rewrite <- Hperm, Hun. simpl. now rewrite Htok. }
    exists pool', equation'. simpl. rewrite Hf.
    split; [exact Hrev |]. split; [exact Hall |].
    split; [now rewrite Hent, entries_insert |].
    rewrite Heq, map_app, Hun. simpl. rewrite <- app_assoc. reflexivity.
Qed.

Lemma clicks_reveal (toks : list string) (g : game) (s : stream)
    (pool' : list pooltoken) (equation' : list placed) :
  map token (unused (availableTokens g)) ≡ₚ toks ->
  reveal_each toks (availableTokens g) (equationTokens g) s
  = Some ((pool', equation'), s) ->
  play_all (map Place (solution_clicks toks (availableTokens g))) g
  = set_board pool' equation' (solutionVisible g) g.
Proof.
  revert g. induction toks as [|tok toks IH]; intros g Hperm Hrev.
  - simpl in *. injection Hrev as <- <-. now rewrite set_board_same.
  - assert (Hin : tok ∈ map token (unused (availableTokens g)))
      by (rewrite Hperm; apply list_elem_of_here).
    destruct (find_unused_some tok _ Hin) as (idx & t & Hf).
    pose proof (find_unused_spec _ _ _ _ Hf) as (Hidx & Hu & Htok & _).
    pose proof (unused_insert _ idx t Hidx Hu) as Hun.
    simpl in Hrev. rewrite Hf in Hrev. simpl solution_clicks. rewrite Hf.
    set (g1 := set_board (<[idx := set_used true t]> (availableTokens g))
                 (equationTokens g
                    ++ [{| placed_id := id t; placed_token := token t |}])
                 (solutionVisible g) g).
    assert (Hplay : play g (Place idx) = g1).
    { simpl. unfold addToEquation. now rewrite Hidx, Hu. }
    change (play_all (map Place (idx :: ?l)) g)
      with (play_all (map Place l) (play g (Place idx))).
    rewrite Hplay.
    apply (IH g1); [| exact Hrev].
    simpl. apply (Permutation_cons_inv (a := tok)).
    rewrite <- Hperm, Hun. simpl. now rewrite Htok.
Qed.

Lemma clicks_length (toks : list string) (pool : list pooltoken) :
  map token (unused pool) ≡ₚ toks ->
  length (solution_clicks toks pool) = length toks.
Proof.
  revert pool. induction toks as [|tok toks IH]; intros pool Hperm;
    [reflexivity |].
  assert (Hin : tok ∈ map token (unused pool))
    by (rewrite Hperm; apply list_elem_of_here).
  destruct (find_unused_some tok _ Hin) as (idx & t & Hf).
  pose proof (find_unused_spec _ _ _ _ Hf) as (Hidx & Hu & Htok & _).
  pose proof (unused_insert _ idx t Hidx Hu) as Hun.
  simpl. rewrite Hf. simpl. f_equal. apply IH.
  apply (Permutation_cons_inv (a := tok)).
  rewrite <- Hperm, Hun. simpl. now rewrite Htok.
Qed.

Lemma newRound_board (fuel : nat) (numCount : option Z) (g g' : game)
    (s s' : stream) :
  newRound fuel numCount g s = Some (Return g', s') ->
  originalTokens g' = tokenize (originalExpr g')
  /\ allowed_text (originalExpr g') = true
  /\ equationTokens g' = []
  /\ solutionVisible g' = false
  /\ Forall (fun t => used t = false) (availableTokens g')
  /\ map token (availableTokens g') ≡ₚ originalTokens g'
  /\ availableTokens g' <> [].
Proof.
  intros H.
  assert (Hallowed : allowed_text (originalExpr g') = true).
  { apply newRound_cases in H
      as [(s2 & r & t & Hacc & Hst & _) | (s1 & Hst)];
      apply start_round_fields in Hst as (-> & _); [| reflexivity].
    apply accept_sound in Hacc as (x & Hev & _).
    now apply safeEval_allowed in Hev. }
  unfold newRound in H.
  assert (Hst : exists e r s2, start_round e r g s2 = Some (g', s')).
  { apply newRound_loop_result in H
      as [(k & s1 & s2 & e & r & _ & _ & _ & _ & Hst) | (s1 & _ & Hst)]; eauto. }
  destruct Hst as (e & r & s2 & Hst). pose proof Hst as Hvis.
  apply start_round_fields in Hst as (He & Ht & _ & _ & _ & Heq & Hun & Hperm).
  rewrite He. rewrite He in Hallowed.
  split; [exact Ht |]. split; [exact Hallowed |]. split; [exact Heq |].
  split; [| split; [exact Hun | split; [now rewrite Ht |]]].
  - unfold start_round in Hvis.
    apply bind_some in Hvis as (av & s3 & _ & Hvis).
    apply bind_some in Hvis as (pool & s4 & _ & Hvis).
    apply ret_some in Hvis as [-> _]. reflexivity.
  - intros Hnil. rewrite Hnil in Hperm. simpl in Hperm.
    apply Permutation_length in Hperm.
    pose proof (match_all_join e "") as Hjoin. fold (tokenize e) in Hjoin.
    destruct (tokenize e); [| discriminate].
    rewrite append_nil_l in Hjoin.
    rewrite (string_filter_id _ _ (allowed_text_forall e Hallowed)) in Hjoin.
    rewrite <- Hjoin in Hallowed. vm_compute in Hallowed. discriminate Hallowed.
Qed.

Lemma entries_length_button (g : game) :
  map placed_entry (equationTokens g) ≡ₚ map pool_entry (availableTokens g) ->
  availableTokens g <> [] -> allTokensUsed g = true.
Proof.
  intros Hperm Hne. apply Permutation_length in Hperm.
  rewrite !length_map in Hperm. unfold allTokensUsed.
  rewrite Hperm, Nat.eqb_refl. simpl.
  destruct (availableTokens g); [congruence | reflexivity].
Qed.

(** X16. On the board of a round, after any moves, [revealSolution] makes no
    token of its own and reads no draw: it takes every pool token exactly
    once, so that the equation is the pool rearranged into the solution, the
    pool keeps its ids, texts and order with every token consumed, and the
    equation is as long as the pool. *)
Theorem revealSolution_takes_pool (fuel : nat) (numCount : option Z)
    (g0 g1 : game) (s0 s1 : stream) (moves : list move) (s : stream) :
  newRound fuel numCount g0 s0 = Some (Return g1, s1) ->
  exists g' : game,
    revealSolution (play_all moves g1) s = Some (g', s)
    /\ map pool_entry (availableTokens g') = map pool_entry (availableTokens g1)
    /\ Forall (fun t => used t = true) (availableTokens g')
    /\ map placed_entry (equationTokens g')
       ≡ₚ map pool_entry (availableTokens g1)
    /\ map placed_token (equationTokens g') = originalTokens g1
    /\ allTokensUsed g' = true.
Proof.
  intros H.
  apply newRound_board in H as (_ & _ & _ & _ & _ & Hperm & Hne).
  set (g := play_all moves g1).
  assert (Hent : map pool_entry (availableTokens g)
                 = map pool_entry (availableTokens g1))
    by apply play_all_keeps_entries.
  assert (Htoks : originalTokens g = originalTokens g1)
    by (unfold g; now rewrite play_all_shape).
  destruct (reveal_each_pool (originalTokens g)
              (map (set_used false) (availableTokens g)) [] s)
    as (pool' & equation' & Hrev & Hall & Hent' & Heq).
  { rewrite unused_reset, Htoks, <- Hperm.
    rewrite !texts_of_entries, entries_reset. now rewrite Hent. }
  exists (set_board pool' equation' true g).
  unfold revealSolution, mbind, Rand_bind. rewrite Hrev. simpl.
  rewrite unused_reset, entries_reset, Hent in Heq. simpl in Heq.
  rewrite entries_reset, Hent in Hent'.
  split; [reflexivity |]. split; [exact Hent' |]. split; [exact Hall |].
  split; [exact Heq |]. split.
  - apply reveal_each_texts in Hrev. simpl in Hrev. now rewrite Hrev.
  - apply entries_length_button; simpl; [now rewrite Heq, Hent' |].
    intros ->. destruct (availableTokens g1); [congruence | discriminate].
Qed.

(** X17. Every round can be solved by clicks: clicking, for each token of the
    expression in turn, the first pool token not yet taken that shows it uses
    every pool token once; the "Check Solution" button is then there (every
    token is used and the solution is not shown) and the checker shows
    [Correct]. *)
Theorem puzzle_solvable_by_clicks (fuel : nat) (numCount : option Z)
    (g0 g1 : game) (s0 s1 : stream) :
  newRound fuel numCount g0 s0 = Some (Return g1, s1) ->
  exists clicks : list nat,
    clicks = solution_clicks (originalTokens g1) (availableTokens g1)
    /\ length clicks = length (availableTokens g1)
    /\ map placed_token (equationTokens (play_all (map Place clicks) g1))
       = originalTokens g1
    /\ allTokensUsed (play_all (map Place clicks) g1) = true
    /\ solutionVisible (play_all (map Place clicks) g1) = false
    /\ checkEquation (play_all (map Place clicks) g1) = Correct.
Proof.
  intros H. pose proof (round_is_correct _ _ _ _ _ _ H) as Hcorrect.
  apply newRound_board in H as (Htok & Hallowed & Heq & Hvis & Hun & Hperm & Hne).
  assert (Hunused : map token (unused (availableTokens g1)) ≡ₚ originalTokens g1).
  { unfold unused. now rewrite (filter_all _ _ Hun). }
  destruct (reveal_each_pool (originalTokens g1) (availableTokens g1) []
              (fun _ => 0%Q) Hunused)
    as (pool' & equation' & Hrev & Hall & Hent & Hentries).
  pose proof Hrev as Hclicks. rewrite <- Heq in Hclicks.
  apply clicks_reveal in Hclicks; [| exact Hunused].
  pose proof (reveal_each_texts _ _ _ _ _ _ _ Hrev) as Htexts. simpl in Htexts.
  exists (solution_clicks (originalTokens g1) (availableTokens g1)).
  split; [reflexivity |]. rewrite Hclicks. simpl.
  split; [| split; [exact Htexts | split; [| split; [exact Hvis |]]]].
  - rewrite (clicks_length _ _ Hunused). apply Permutation_length in Hperm.
    now rewrite length_map in Hperm.
  - apply entries_length_button; simpl.
    + rewrite Hentries, Hent. simpl. unfold unused.
      now rewrite (filter_all _ _ Hun).
    + intros ->. destruct (availableTokens g1); [congruence | discriminate].
  - unfold checkEquation. simpl. rewrite Htexts, Htok.
    unfold tokenize. rewrite match_all_join, append_nil_l.
    rewrite (string_filter_id _ _ (allowed_text_forall _ Hallowed)).
    exact Hcorrect.
Qed.

(** ** The first check of the checker *)

Lemma join_allowed_chars (l : list string) :
  Forall (fun t => allowed_text t = true) l ->
  string_forall is_allowed (join l) = true.
Proof.
  induction 1 as [|t l Ht _ IH]; [reflexivity |].
  rewrite join_cons, string_forall_app, IH.
  now rewrite (allowed_text_forall t Ht).
Qed.

Lemma join_allowed (l : list string) :
  Forall (fun t => allowed_text t = true) l -> l <> [] ->
  allowed_text (join l) = true.
Proof.
  intros Hall Hne. pose proof (join_allowed_chars l Hall) as Hchars.
  destruct l as [|t l]; [congruence |].
  rewrite join_cons in *. apply Forall_cons in Hall as [Ht _].
  destruct t as [|c t]; [discriminate |]. exact Hchars.
Qed.

Lemma tokens_allowed (e : string) :
  Forall (fun t => allowed_text t = true) (tokenize e).
Proof.
  eapply Forall_impl; [apply (match_all_shape e ""); reflexivity |].
  intros t [Ht | Ht];
    [now apply number_token_allowed | now apply symbol_token_allowed].
Qed.

(** X18. On the board of a round, after any moves, the first check of the
    checker fails for the empty equation and for no other: every piece shows a
    token of the expression, so a nonempty equation has none but the sixteen
    characters (and no white space to strip). *)
Theorem invalid_only_when_empty (fuel : nat) (numCount : option Z)
    (g0 g1 : game) (s0 s1 : stream) (moves : list move) :
  newRound fuel numCount g0 s0 = Some (Return g1, s1) ->
  (checkEquation (play_all moves g1) = InvalidGrammar
   <-> equationTokens (play_all moves g1) = [])
  /\ strip_spaces (join (map placed_token (equationTokens (play_all moves g1))))
     = join (map placed_token (equationTokens (play_all moves g1))).
Proof.
  intros H.
  apply newRound_board in H as (Htok & _ & Heq & _ & _ & Hperm & _).
  assert (Hfrom : from_pool (availableTokens (play_all moves g1))
                    (equationTokens (play_all moves g1))).
  { apply play_all_from_pool. rewrite Heq. constructor. }
  assert (Hsame : map token (availableTokens (play_all moves g1))
                  = map token (availableTokens g1))
    by now rewrite !texts_of_entries, play_all_keeps_entries.
  set (g := play_all moves g1) in *.
  assert (Hall : Forall (fun t => allowed_text t = true)
                   (map placed_token (equationTokens g))).
  { apply Forall_forall. intros x Hx.
    apply list_elem_of_In, in_map_iff in Hx as (p & <- & Hp).
    apply list_elem_of_In in Hp.
    pose proof (proj1 (Forall_forall _ _) Hfrom p Hp) as Hin. simpl in Hin.
    apply list_elem_of_In, in_map_iff in Hin as (t & Hpt & Ht).
    assert (Htext : placed_token p ∈ map token (availableTokens g1)).
    { rewrite <- Hsame. apply list_elem_of_In, in_map_iff.
      exists t. split; [| exact Ht].
      unfold placed_entry, pool_entry in Hpt. now injection Hpt as _ ->. }
    rewrite Hperm, Htok in Htext.
    exact (proj1 (Forall_forall _ _) (tokens_allowed _) _ Htext). }
  assert (Hclean : strip_spaces (join (map placed_token (equationTokens g)))
                   = join (map placed_token (equationTokens g)))
    by (apply strip_spaces_allowed, join_allowed_chars, Hall).
  split; [| exact Hclean].
  unfold checkEquation.
  rewrite (proj1 (check_text_decisions _ (targetValue g))), Hclean.
  destruct (equationTokens g) as [|p eq'] eqn:Hg.
  - split; reflexivity.
  - split; [| discriminate]. intros Hbad.
    rewrite join_allowed in Hbad; [discriminate | exact Hall | discriminate].
Qed.

(** ** The countdown *)

Lemma tick_running (n : Z) (p : option popup) :
  (1 < n)%Z ->
  tick {| seconds := n; running := true; activePopup := p |}
  = {| seconds := n - 1; running := true; activePopup := p |}.
Proof.
  intros Hn. unfold tick. simpl. destruct (Z.leb_spec n 1); [lia | reflexivity].
Qed.

Lemma ticks_running (k : nat) (n : Z) (p : option popup) :
  (Z.of_nat k < n)%Z ->
  Nat.iter k tick {| seconds := n; running := true; activePopup := p |}
  = {| seconds := n - Z.of_nat k; running := true; activePopup := p |}.
Proof.
  induction k as [|k IH]; intros Hk.
  - simpl. now rewrite Z.sub_0_r.
  - simpl Nat.iter. rewrite IH by lia. rewrite tick_running by lia.
    f_equal. lia.
Qed.

Lemma ticks_stopped (k : nat) (c : countdown) :
  running c = false -> Nat.iter k tick c = c.
Proof.
  intros Hc. induction k as [|k IH]; [reflexivity |].
  simpl. rewrite IH. unfold tick. now rewrite Hc.
Qed.

(** X19. After [startTimer(n)] the display counts down by one at each tick of
    the interval: it shows [n - k] after [k] ticks, for [k] below [n]; at tick
    [n] (the first one, when [n] is not above 1) it shows 0, the ['timeUp']
    popup opens and the interval is cleared, and nothing changes after that. A
    round runs [getTimerDurationForLevel(level)] seconds: [72 - 2 * level] up
    to level 6 and 60 from there on, so never the 30 of its [Math.max]. *)
Theorem countdown_reaches_zero (n : Z) (c : countdown) (k : nat) :
  ((Z.of_nat k < Z.max n 1)%Z ->
   Nat.iter k tick (startTimer n c)
   = {| seconds := n - Z.of_nat k; running := true;
        activePopup := activePopup c |})
  /\ ((Z.max n 1 <= Z.of_nat k)%Z ->
      Nat.iter k tick (startTimer n c)
      = {| seconds := 0; running := false; activePopup := Some timeUp |})
  /\ (forall level : Z,
        getTimerDurationForLevel level = Z.max 60 (72 - 2 * level))
  /\ (forall level : Z,
        (6 <= level)%Z -> getTimerDurationForLevel level = 60%Z).
Proof.
  unfold startTimer. split; [| split; [| split]].
  - intros Hk. destruct (Z.lt_ge_cases (Z.of_nat k) n) as [Hlt | Hge];
      [now apply ticks_running |].
    assert (k = 0%nat) as -> by lia. simpl. now rewrite Z.sub_0_r.
  - intros Hk.
    set (m := Z.to_nat (Z.max n 1 - 1)).
    assert (Hm : (k = (k - S m) + S m)%nat) by lia.
    rewrite Hm, Nat.iter_add. simpl Nat.iter at 2.
    assert (Hfirst :
      tick (Nat.iter m tick
              {| seconds := n; running := true; activePopup := activePopup c |})
      = {| seconds := 0; running := false; activePopup := Some timeUp |}).
    { destruct (Z.le_gt_cases n 1) as [Hle | Hgt].
      - assert (m = 0%nat) as -> by lia. simpl. unfold tick. simpl.
        destruct (Z.leb_spec n 1); [reflexivity | lia].
      - rewrite ticks_running by lia. unfold tick. simpl.
        destruct (Z.leb_spec (n - Z.of_nat m) 1); [reflexivity | lia]. }
    rewrite Hfirst. now apply ticks_stopped.
  - intros level. unfold getTimerDurationForLevel. lia.
  - intros level Hl. unfold getTimerDurationForLevel. lia.
Qed.

(** ** [nextLevel] *)

(** X20. The round that [nextLevel] starts is the round of the level just
    finished: the state shows the next level, but the puzzle and the time are
    those [newRound] makes at the level before, so up to level 5 the time is
    two seconds more than a round of the new level has, and the number of
    operands grows one round late. *)
Theorem nextLevel_round (fuel : nat) (g g' : game) (s s' : stream) :
  nextLevel fuel g s = Some (Return g', s') ->
  currentLevel g' = (currentLevel g + 1)%Z
  /\ timeLeft g' = getTimerDurationForLevel (currentLevel g)
  /\ ((1 <= currentLevel g <= 5)%Z ->
      timeLeft g' = (getTimerDurationForLevel (currentLevel g') + 2)%Z)
  /\ (exists g1 : game,
        newRound fuel None g s = Some (Return g1, s')
        /\ g' = set_level (currentLevel g + 1) g1)
  /\ (valid_stream s -> (1 <= currentLevel g)%Z ->
      originalExpr g' = "(3+4)*2"
      \/ Z.of_nat (length (originalTokens g'))
         = (4 * round_count None (currentLevel g) - 3)%Z).
Proof.
  unfold nextLevel. intros H.
  apply bind_some in H as (c & s1 & Hround & H).
  apply ret_some in H as [H ->].
  destruct c as [g1 | err]; [| discriminate]. injection H as H. subst g'.
  assert (Htime : timeLeft g1 = getTimerDurationForLevel (currentLevel g)).
  { unfold newRound in Hround.
    apply newRound_loop_result in Hround
      as [(k & s2 & s3 & e & r & _ & _ & _ & _ & Hst) | (s2 & _ & Hst)];
      now apply start_round_fields in Hst as (_ & _ & _ & Ht & _). }
  split; [reflexivity |]. split; [exact Htime |]. split; [| split].
  - intros Hl. simpl. rewrite Htime. unfold getTimerDurationForLevel. lia.
  - now exists g1.
  - intros Hs Hl.
    change (originalExpr (set_level (currentLevel g + 1) g1))
      with (originalExpr g1).
    change (originalTokens (set_level (currentLevel g + 1) g1))
      with (originalTokens g1).
    pose proof Hround as Hcases. apply newRound_cases in Hcases
      as [(s2 & r & t & _ & Hst & Hlen & Hnodes & Hops & Hrange) | (s2 & Hst)];
      apply start_round_fields in Hst as (He & Ht & _); [right | now left].
    assert (Hmax : (1 <= max_number (currentLevel g) <= 9)%Z)
      by (unfold max_number; pose proof (Z.div_pos (currentLevel g) 2); lia).
    specialize (Hrange Hs ltac:(lia)).
    rewrite Ht, tokenize_render, tree_tokens_length; [lia | |].
    + eapply Forall_impl; [exact Hrange |].
      intros n Hn. simpl in Hn. apply digit_String_of. lia.
    + eapply Forall_impl; [exact Hops |]. apply OPS_symbol_token.
Qed.

(** ** [replayCurrentQuestion] *)

Lemma bind_eq {A B} (m : Rand A) (k : A -> Rand B) (s : stream) :
  (m ≫= k) s
  = match m s with
    | Some (a, s') => k a s'
    | None => None
    end.
Proof. reflexivity. Qed.

Lemma newRound_ref_loop_state (fuel n : nat) (count : Z) (g : game)
    (ref : option question) (s : stream) :
  newRound_loop fuel n count g s
  = match newRound_ref_loop fuel n count g ref s with
    | Some (c, s') => Some (state_of c, s')
    | None => None
    end.
Proof.
  revert s. induction n as [|n IH]; intros s;
    cbn [newRound_loop newRound_ref_loop]; rewrite !bind_eq.
  - now destruct (start_round "(3+4)*2" 14%float g s) as [[g' s']|].
  - destruct (attempt_expr fuel (currentLevel g) count s) as [[[e | err] s1]|];
      try reflexivity.
    destruct (accept e) as [r|]; [| apply IH]. rewrite !bind_eq.
    now destruct (start_round e r g s1) as [[g' s']|].
Qed.

Lemma last_char_app (a : string) (c : ascii) :
  last_char (a +:+ String c "") = Some c.
Proof.
  induction a as [|x a IH]; [reflexivity |].
  rewrite append_cons. simpl. rewrite IH.
  destruct (a +:+ String c "") eqn:E; [| reflexivity].
  destruct a; discriminate.
Qed.

Lemma render_not_fallback (t : tree) : render t <> "(3+4)*2".
Proof.
  destruct t as [n | l op r]; intros H.
  - pose proof (String_of_no_parens n) as Hn. simpl in H. rewrite H in Hn.
    discriminate.
  - apply (f_equal last_char) in H. simpl render in H.
    rewrite <- !append_assoc, last_char_app in H. discriminate.
Qed.

Lemma newRound_ref_loop_result (fuel n : nat) (count : Z) (g g' : game)
    (ref ref' : option question) (s s' : stream) :
  newRound_ref_loop fuel n count g ref s = Some (Return (g', ref'), s') ->
  (ref' = question_of g' count /\ originalExpr g' <> "(3+4)*2")
  \/ (ref' = ref /\ originalExpr g' = "(3+4)*2").
Proof.
  revert s. induction n as [|n IH]; intros s H; simpl in H.
  - right. apply bind_some in H as (g1 & s1 & Hst & H).
    apply ret_some in H as [H _]. injection H as Hg Hr. subst g' ref'.
    now apply start_round_fields in Hst as (-> & _).
  - apply bind_some in H as (c & s1 & Hatt & H).
    destruct c as [e | err]; [| apply ret_some in H as [H _]; discriminate].
    destruct (accept e) as [r|] eqn:Hacc; [| now apply (IH s1)].
    left. apply bind_some in H as (g1 & s2 & Hst & H).
    apply ret_some in H as [H _]. injection H as Hg Hr. subst g' ref'.
    apply start_round_fields in Hst as (He & Ht & Htarget & _).
    unfold question_of. rewrite Htarget, He, Ht. split; [reflexivity |].
    apply attempt_expr_tree in Hatt as (t & -> & _).
    apply render_not_fallback.
Qed.

(** X21. [newRound] records the puzzle of a round for [replayCurrentQuestion]
    only where it accepts an attempt: after a round with the fallback puzzle
    [(3+4)*2] the recorded question is the one of before, so that a replay
    brings back an earlier puzzle or, when there is none, starts a new round.
    A replay of a recorded question sets up its expression, tokens and target
    again, with the time of the level, an empty equation, the solution hidden,
    and a new shuffled pool of its tokens, none consumed. *)
Theorem replay_restores_question (fuel : nat) (g : game)
    (ref : option question) (s : stream) :
  (forall (numCount : option Z),
      newRound fuel numCount g s
      = match newRound_ref fuel numCount g ref s with
        | Some (c, s') => Some (state_of c, s')
        | None => None
        end)
  /\ (forall (numCount : option Z) (g' : game) (ref' : option question)
        (s' : stream),
        newRound_ref fuel numCount g ref s = Some (Return (g', ref'), s') ->
        (ref' = question_of g' (round_count numCount (currentLevel g))
         /\ originalExpr g' <> "(3+4)*2")
        \/ (ref' = ref /\ originalExpr g' = "(3+4)*2"))
  /\ replayCurrentQuestion fuel g None = newRound_ref fuel None g None
  /\ (forall q : question,
        exists (g' : game) (s' : stream),
          replayCurrentQuestion fuel g (Some q) s
          = Some (Return (g', Some q), s')
          /\ originalExpr g' = question_expr q
          /\ originalTokens g' = question_tokens q
          /\ targetValue g' = Some (question_target q)
          /\ currentLevel g' = currentLevel g
          /\ timeLeft g' = getTimerDurationForLevel (currentLevel g)
          /\ equationTokens g' = []
          /\ solutionVisible g' = false
          /\ Forall (fun t => used t = false) (availableTokens g')
          /\ map token (availableTokens g') ≡ₚ question_tokens q).
Proof.
  split; [| split; [| split]].
  - intros numCount. apply newRound_ref_loop_state.
  - intros numCount g' ref' s' H. now apply newRound_ref_loop_result in H.
  - reflexivity.
  - intros q. unfold replayCurrentQuestion.
    destruct (make_available (question_tokens q) s) as [[av s1]|] eqn:Hav.
    + destruct (shuffle_from_total (length av - 1) av s1) as (pool & s2 & Hsh).
      eexists _, s2. unfold mbind, Rand_bind. rewrite Hav.
      unfold shuffleArray. rewrite Hsh. split; [reflexivity |].
      apply make_available_fresh in Hav as [Htok Hun].
      apply shuffle_from_perm in Hsh. simpl.
      repeat split; [now rewrite Hsh | now rewrite Hsh, Htok].
    + exfalso. clear -Hav. revert s Hav.
      induction (question_tokens q) as [|t l IH]; intros s Hav;
        [discriminate |].
      simpl in Hav. unfold mbind, Rand_bind in Hav. simpl in Hav.
      destruct (make_available l (fun n => s (S n))) as [[more s2]|] eqn:Hm;
        [discriminate | now apply IH in Hm].
Qed.

(** ** The hints *)

Lemma hint_candidates_length (g : game) :
  (2 <= length (hint_candidates g) <= 5)%nat.
Proof.
  unfold hint_candidates.
  destruct (includes_open (originalExpr g));
    destruct (List.filter _ (originalTokens g));
    destruct (has_paren (last (originalTokens g))); simpl; lia.
Qed.

Lemma hint_index (hints : list hint) (s : stream) :
  valid_stream s -> (0 < length hints)%nat ->
  exists h : hint,
    index hints (Qfloor (s 0%nat * inject_Z (Z.of_nat (length hints))))
    = Some h.
Proof.
  intros Hs Hlen.
  destruct (randInt_range 0 (Z.of_nat (length hints) - 1) s Hs ltac:(lia))
    as (k & Hk & Hrange).
  unfold randInt, mbind, Rand_bind, Math_random, mret, Rand_ret in Hk.
  replace (Z.of_nat (length hints) - 1 - 0 + 1)%Z
    with (Z.of_nat (length hints)) in Hk by lia.
  set (i := Qfloor (s 0%nat * inject_Z (Z.of_nat (length hints)))) in *.
  assert (Hi : (i + 0)%Z = k) by congruence.
  apply index_in_range. lia.
Qed.

Lemma index_In {A} (l : list A) (i : Z) (x : A) :
  index l i = Some x -> In x l.
Proof.
  unfold index. destruct (i <? 0)%Z; [discriminate |].
  intros H. apply list_elem_of_In. eapply list_elem_of_lookup_2. exact H.
Qed.

Lemma digit_not_operator (n : Z) :
  (1 <= n <= 9)%Z -> existsb (String.eqb (String_of n)) OPS = false.
Proof.
  intros Hn. destruct n as [|p|p]; try lia.
  do 4 (try destruct p as [p|p|]); try lia; reflexivity.
Qed.

Lemma operator_is_operator (op : string) :
  In op OPS -> existsb (String.eqb op) OPS = true.
Proof.
  intros H. repeat (destruct H as [<- | H]; [reflexivity |]). destruct H.
Qed.

Lemma operators_of_tokens (t : tree) :
  Forall (fun x => 1 <= x <= 9)%Z (leaves t) ->
  Forall (fun op => In op OPS) (tree_ops t) ->
  List.filter (fun tok => existsb (String.eqb tok) OPS) (tree_tokens t)
  = tree_ops t.
Proof.
  induction t as [n | l IHl op r IHr]; intros Hleaves Hops;
    cbn [tree_tokens tree_ops leaves List.filter] in *.
  - apply Forall_cons in Hleaves as [Hn _].
    now rewrite (digit_not_operator n Hn).
  - apply Forall_app in Hleaves as [Hl Hr].
    apply Forall_app in Hops as [Hol Hor].
    apply Forall_cons in Hor as [Hop Hor].
    change (existsb (String.eqb "(") OPS) with false. cbv iota.
    rewrite List.filter_app. cbn [List.filter].
    rewrite (operator_is_operator op Hop).
    rewrite List.filter_app. cbn [List.filter].
    change (existsb (String.eqb ")") OPS) with false. cbv iota.
    rewrite (IHl Hl Hol), (IHr Hr Hor). now rewrite app_nil_r.
Qed.

Lemma count_op_cons (a b : string) (ops : list string) :
  count_op a (b :: ops)
  = if String.eqb a b then S (count_op a ops) else count_op a ops.
Proof.
  unfold count_op. cbn [List.filter]. now destruct (String.eqb a b).
Qed.

Lemma count_op_total (ops : list string) :
  Forall (fun op => In op OPS) ops ->
  (count_op "+" ops + count_op "-" ops + count_op "*" ops + count_op "/" ops
   = length ops)%nat.
Proof.
  induction ops as [|op ops IH]; intros H; [reflexivity |].
  apply Forall_cons in H as [Hop H]. specialize (IH H).
  rewrite !count_op_cons. cbn [length].
  repeat (destruct Hop as [<- | Hop];
          [repeat match goal with
                  | |- context [String.eqb ?a ?b] =>
                      let v := eval vm_compute in (String.eqb a b) in
                      change (String.eqb a b) with v
                  end;
           cbv iota; lia |]).
  destruct Hop.
Qed.

Lemma hints_of_tree (g : game) (l r : tree) (op : string) :
  let t := Node l op r in
  Forall (fun x => 1 <= x <= 9)%Z (leaves t) ->
  Forall (fun op => In op OPS) (tree_ops t) ->
  originalExpr g = render t ->
  originalTokens g = tree_tokens t ->
  exists (firstOp : string) (rest : list string),
    tree_ops t = firstOp :: rest
    /\ hint_candidates g
       = [HintParentheses; HintFirstOperator firstOp;
          HintOperatorCounts (count_op "+" (tree_ops t))
            (count_op "-" (tree_ops t)) (count_op "*" (tree_ops t))
            (count_op "/" (tree_ops t));
          HintStartsWithParen; HintEndsWithParen].
Proof.
  intros t Hleaves Hops He Ht.
  assert (Hne : exists firstOp rest, tree_ops t = firstOp :: rest).
  { unfold t. simpl. destruct (tree_ops l) as [|x xs]; simpl; eauto. }
  destruct Hne as (firstOp & rest & Hfirst). exists firstOp, rest.
  split; [exact Hfirst |].
  unfold hint_candidates.
  rewrite He, Ht, (operators_of_tokens t Hleaves Hops), Hfirst.
  assert (Hlast : last (tree_tokens t) = Some ")").
  { unfold t.
    change (tree_tokens (Node l op r))
      with ("(" :: tree_tokens l ++ op :: tree_tokens r ++ [")"]).
    rewrite (app_comm_cons (tree_tokens l)), (app_comm_cons (tree_tokens r)),
      app_assoc.
    apply last_snoc. }
  rewrite Hlast. reflexivity.
Qed.

(** X22. On the puzzle of a round at a level from 1 on, [showHintShort] reads
    one draw and shows one of the hints it has collected, never [undefined].
    For the fallback [(3+4)*2] it collects four: that parentheses are needed,
    that the first operator is [+], the counts (one [+], one [*]), and that
    the expression starts with a parenthesis. For a generated puzzle it
    collects five: those four kinds, the counts adding up to the number of
    operators, and that the expression ends with a parenthesis. The hint that
    names the first piece is never among them. *)
Theorem showHintShort_candidates (fuel : nat) (g g' : game)
    (shown : option hint) (s s' s1 : stream) :
  valid_stream s ->
  valid_stream s1 ->
  (1 <= currentLevel g)%Z ->
  newRound fuel None g s = Some (Return g', s') ->
  (exists h : hint,
      showHintShort g' shown s1 = Some (Some h, fun n => s1 (S n))
      /\ In h (hint_candidates g'))
  /\ (hint_candidates g'
      = [HintParentheses; HintFirstOperator "+"; HintOperatorCounts 1 0 1 0;
         HintStartsWithParen]
      \/ exists (firstOp : string) (plus minus times divide : nat),
           hint_candidates g'
           = [HintParentheses; HintFirstOperator firstOp;
              HintOperatorCounts plus minus times divide;
              HintStartsWithParen; HintEndsWithParen]
           /\ In firstOp OPS
           /\ Z.of_nat (plus + minus + times + divide)
              = (round_count None (currentLevel g) - 1)%Z).
Proof.
  intros Hs Hs1 Hlevel H.
  assert (Hmax : (1 <= max_number (currentLevel g) <= 9)%Z)
    by (unfold max_number; pose proof (Z.div_pos (currentLevel g) 2); lia).
  assert (Hcount : (3 <= round_count None (currentLevel g))%Z).
  { unfold round_count.
    pose proof (Z.div_pos (currentLevel g - 1) 3). lia. }
  apply newRound_cases in H
    as [(s2 & v & t & _ & Hst & Hlen & Hnodes & Hops & Hrange) | (s0 & Hst)];
    apply start_round_fields in Hst as (He & Ht & _).
  - specialize (Hrange Hs ltac:(lia)).
    assert (Hdigits : Forall (fun x => 1 <= x <= 9)%Z (leaves t)).
    { eapply Forall_impl; [exact Hrange |]. intros n Hn. simpl in Hn. lia. }
    assert (Htok : originalTokens g' = tree_tokens t).
    { rewrite Ht. apply tokenize_render.
      - eapply Forall_impl; [exact Hdigits |].
        intros n Hn. simpl in Hn. now apply digit_String_of.
      - eapply Forall_impl; [exact Hops |]. intros op. apply OPS_symbol_token. }
    destruct t as [n | l op r]; [cbn [nodes] in Hnodes; lia |].
    destruct (hints_of_tree g' l r op Hdigits Hops He Htok)
      as (firstOp & rest & Hfirst & Hhints).
    split.
    + unfold showHintShort. rewrite He.
      change (render (Node l op r))
        with (String "(" (render l +:+ op +:+ render r +:+ ")")).
      unfold mbind, Rand_bind, Math_random, mret, Rand_ret.
      destruct (hint_index (hint_candidates g') s1 Hs1) as [h Hh];
        [rewrite Hhints; simpl; lia |].
      exists h. rewrite Hh. split; [reflexivity |].
      eapply index_In. exact Hh.
    + right. eexists firstOp, _, _, _, _. split; [exact Hhints |]. split.
      * rewrite Forall_forall in Hops. apply Hops.
        rewrite Hfirst. now left.
      * rewrite (count_op_total _ Hops).
        assert (Hl : length (tree_ops (Node l op r)) = nodes (Node l op r)).
        { clear. induction (Node l op r) as [n | a IHa o b IHb];
            [reflexivity |].
          simpl. rewrite length_app. simpl. lia. }
        rewrite Hl. exact Hnodes.
  - assert (Hhints : hint_candidates g'
                     = [HintParentheses; HintFirstOperator "+";
                        HintOperatorCounts 1 0 1 0; HintStartsWithParen]).
    { unfold hint_candidates. rewrite He, Ht. reflexivity. }
    split; [| now left].
    unfold showHintShort. rewrite He.
    unfold mbind, Rand_bind, Math_random, mret, Rand_ret.
    destruct (hint_index (hint_candidates g') s1 Hs1) as [h Hh];
      [rewrite Hhints; simpl; lia |].
    exists h. rewrite Hh. split; [reflexivity |].
    eapply index_In. exact Hh.
Qed.

End Further.

(** * The examples, on the reference host *)

Lemma valid_draws (l : list Q) (rest : Q) :
  forallb in_unit_interval l = true -> in_unit_interval rest = true ->
  valid_stream (draws l rest).
Proof.
  assert (Hunit : forall r, in_unit_interval r = true -> (0 <= r /\ r < 1)%Q).
  { intros r Hr. apply andb_true_iff in Hr as [H0 H1].
    apply Qle_bool_iff in H0. apply negb_true_iff in H1.
    split; [exact H0 |]. apply Qnot_le_lt. intros H.
    apply Qle_bool_iff in H. congruence. }
  intros Hl Hrest n. unfold draws. revert n.
  induction l as [|r l IH]; intros [|n]; simpl; auto.
  - simpl in Hl. apply andb_true_iff in Hl as [Hr _]. auto.
  - simpl in Hl. apply andb_true_iff in Hl as [_ Hl]. auto.
Qed.

(** C1, counterexample. [safeEval] lets ["1/0"] through and returns
    [Infinity], which is not finite: nothing is raised. *)
Lemma safeEval_division_by_zero :
  allowed_text "1/0" = true
  /\ @safeEval reference_host "1/0" = Return (VNum infinity)
  /\ Number_isFinite (VNum infinity) = false.
Proof. repeat split. Qed.

(** C2, counterexample. The host reads more than arithmetic in a text over
    the sixteen characters: ["/1/"] is a regular expression literal and
    [safeEval] returns the RegExp object, no Number; ["1)+(2"], which is no
    expression, is accepted because it is pasted between parentheses;
    ["1/**/+2"] holds a comment; ["2**3"] is a power. *)
Lemma safeEval_reads_host_syntax :
  @safeEval reference_host "/1/" = Return VRegExp
  /\ (forall x : float, VRegExp <> VNum x)
  /\ @safeEval reference_host "1)+(2" = Return (VNum 3%float)
  /\ balancedParens "1)+(2" = false
  /\ @safeEval reference_host "1/**/+2" = Return (VNum 3%float)
  /\ @safeEval reference_host "2**3" = Return (VNum 8%float).
Proof. repeat split; try reflexivity. discriminate. Qed.

(** C7, counterexample. Two pool tokens with the same id, the second one
    placed: placing the first and removing it again also frees the second,
    whose entry stays in the equation. *)
Lemma place_then_unplace_shared_id :
  availableTokens (two_token_game "a" "a" true) !! 0%nat
  = Some {| id := "a"; token := "1"; used := false |}
  /\ exists g1 g2 : game,
       addToEquation 0 (two_token_game "a" "a" true) = Return g1
       /\ removeFromEquation 1 g1 = Return g2
       /\ map used (availableTokens g2) = [false; false]
       /\ map used (availableTokens (two_token_game "a" "a" true))
          = [false; true]
       /\ g2 <> two_token_game "a" "a" true.
Proof.
  split; [reflexivity |]. eexists _, _.
  split; [reflexivity |]. split; [reflexivity |].
  split; [reflexivity |]. split; [reflexivity |]. discriminate.
Qed.

(** C7, witness. *)
Lemma place_then_unplace_witness :
  NoDup (map id (availableTokens (two_token_game "a" "b" true)))
  /\ availableTokens (two_token_game "a" "b" true) !! 0%nat
     = Some {| id := "a"; token := "1"; used := false |}
  /\ exists g1 : game,
       addToEquation 0 (two_token_game "a" "b" true) = Return g1
       /\ removeFromEquation
            (length (equationTokens (two_token_game "a" "b" true))) g1
          = Return (two_token_game "a" "b" true).
Proof.
  assert (Hnd : NoDup (map id (availableTokens (two_token_game "a" "b" true)))).
  { apply (bool_decide_unpack _). vm_compute. exact I. }
  split; [exact Hnd |]. split; [reflexivity |].
  exact (place_then_unplace (two_token_game "a" "b" true) 0
           {| id := "a"; token := "1"; used := false |}
           Hnd eq_refl eq_refl).
Defined.

(** C4, counterexample. With every draw equal, [genId] gives all seven pool
    tokens of the round the same id; after placing two tokens and removing
    the first entry, no pool token is marked consumed, yet the equation still
    holds one entry. *)
Lemma moves_with_shared_ids :
  valid_stream (draws [] (1 # 2))
  /\ exists (g : game) (s' : stream),
       @start_round reference_host "(3+4)*2" 14%float initial_game
         (draws [] (1 # 2)) = Some (g, s')
       /\ length (equationTokens (play_all [Place 0; Place 1; Unplace 0] g)) = 1%nat
       /\ length (consumed (availableTokens
                             (play_all [Place 0; Place 1; Unplace 0] g))) = 0%nat.
Proof.
  split; [apply valid_draws; reflexivity |].
  eexists _, _. split; [vm_compute; reflexivity |]. split; reflexivity.
Qed.

(** C4, witness. *)
Lemma moves_conserve_tokens_witness :
  exists (g : game) (s' : stream),
    @start_round reference_host "(3+4)*2" 14%float initial_game
      (draws pool_draws (1 # 2)) = Some (g, s')
    /\ NoDup (map id (availableTokens g))
    /\ length (equationTokens (play_all some_moves g))
       = length (consumed (availableTokens (play_all some_moves g)))
    /\ available_texts (availableTokens (play_all some_moves g))
         ++ map placed_token (equationTokens (play_all some_moves g))
       ≡ₚ originalTokens g.
Proof.
  eexists _, _. split; [vm_compute; reflexivity |].
  split; [apply (bool_decide_unpack _); vm_compute; exact I |].
  eapply (@moves_conserve_tokens reference_host "(3+4)*2" 14%float
            initial_game _ (draws pool_draws (1 # 2)) _ some_moves).
  - vm_compute. reflexivity.
  - apply (bool_decide_unpack _). vm_compute. exact I.
Defined.




(** * Further examples, on the reference host *)

(** X1, witness. *)
Lemma shuffleArray_permutes_witness :
  valid_stream (draws [1 # 2; 1 # 3]%Q (1 # 2))
  /\ exists (arr' : list string) (s' : stream),
       shuffleArray ["a"; "b"; "c"] (draws [1 # 2; 1 # 3]%Q (1 # 2))
       = Some (arr', s')
       /\ arr' ≡ₚ ["a"; "b"; "c"]
       /\ length arr' = 3%nat.
Proof.
  assert (Hv : valid_stream (draws [1 # 2; 1 # 3]%Q (1 # 2)))
    by (apply valid_draws; reflexivity).
  split; [exact Hv |].
  destruct (shuffleArray_permutes ["a"; "b"; "c"] _ Hv)
    as (arr' & s' & H & Hp & Hl & _).
  exists arr', s'. split; [exact H |]. split; [exact Hp | exact Hl].
Defined.

(** X5, witness: a draw of 9/10 at level 7. *)
Lemma operator_by_level_witness :
  (draws [9 # 10]%Q (1 # 2) 0%nat <= 1 - (1 # 9007199254740992))%Q
  /\ exists s' : stream,
       getWeightedRandomOperator (getOperatorWeights 7)
         (draws [9 # 10]%Q (1 # 2))
       = Some ("/", s').
Proof.
  assert (Hr : (draws [9 # 10]%Q (1 # 2) 0%nat
                <= 1 - (1 # 9007199254740992))%Q)
    by (vm_compute; intros Hc; discriminate Hc).
  split; [exact Hr |].
  destruct (operator_by_level 7 (draws [9 # 10]%Q (1 # 2)) Hr) as (H & _).
  eexists. exact H.
Defined.

(** X6, witness. *)
Lemma buildRandomExpr_never_raises_witness :
  valid_stream (draws [1 # 3; 2 # 3; 2 # 3]%Q (1 # 3))
  /\ [3; 4]%Z <> []
  /\ (forall (c : completion string) (s' : stream),
        @buildRandomExpr reference_host 10 [3; 4]%Z ["+"]
          (draws [1 # 3; 2 # 3; 2 # 3]%Q (1 # 3)) = Some (c, s') ->
        exists e : string, c = Return e).
Proof.
  assert (Hv : valid_stream (draws [1 # 3; 2 # 3; 2 # 3]%Q (1 # 3)))
    by (apply valid_draws; reflexivity).
  split; [exact Hv |]. split; [discriminate |].
  destruct (@buildRandomExpr_never_raises reference_host 10 [3; 4]%Z ["+"]
              _ Hv) as (H & _).
  apply H. discriminate.
Defined.

(** X7, witness. *)
Lemma buildRandomExpr_operators_witness :
  exists s' : stream,
    length [3; 4]%Z = S (length ["+"])
    /\ @buildRandomExpr reference_host 10 [3; 4]%Z ["+"]
         (draws [1 # 3; 2 # 3; 2 # 3]%Q (1 # 3))
       = Some (Return "(4+3)", s')
    /\ exists t : tree,
         "(4+3)" = render t /\ leaves t ≡ₚ [3; 4]%Z /\ tree_ops t ≡ₚ ["+"]
         /\ nodes t = 1%nat.
Proof.
  eexists. split; [reflexivity |]. split; [vm_compute; reflexivity |].
  eapply (@buildRandomExpr_operators reference_host 10 [3; 4]%Z ["+"]
           (draws [1 # 3; 2 # 3; 2 # 3]%Q (1 # 3)) _ "(4+3)");
    [reflexivity | vm_compute; reflexivity].
Defined.

(** X8, witness: the round that [round_draws] gives at level 1, whose
    expression is [((2+1)*3)]. *)
Lemma generated_puzzle_tokens_witness :
  exists (g' : game) (s' : stream),
    valid_stream (draws round_draws (1 # 2))
    /\ (1 <= currentLevel initial_game)%Z
    /\ @newRound reference_host 20 None initial_game (draws round_draws (1 # 2))
       = Some (Return g', s')
    /\ ((originalExpr g' = "(3+4)*2"
         /\ originalTokens g' = ["("; "3"; "+"; "4"; ")"; "*"; "2"]
         /\ length (availableTokens g') = 7%nat)
        \/ (exists t : tree,
              originalExpr g' = render t
              /\ originalTokens g' = tree_tokens t
              /\ Z.of_nat (length (leaves t))
                 = round_count None (currentLevel initial_game)
              /\ Forall (fun x => 1 <= x <= max_number (currentLevel initial_game))%Z
                   (leaves t)
              /\ Z.of_nat (length (tree_ops t))
                 = (round_count None (currentLevel initial_game) - 1)%Z
              /\ Forall (fun op => In op OPS) (tree_ops t)
              /\ Z.of_nat (length (originalTokens g'))
                 = (4 * round_count None (currentLevel initial_game) - 3)%Z
              /\ length (availableTokens g') = length (originalTokens g'))).
Proof.
  assert (Hv : valid_stream (draws round_draws (1 # 2)))
    by (apply valid_draws; reflexivity).
  eexists _, _. split; [exact Hv |]. split; [simpl; lia |].
  split; [vm_compute; reflexivity |].
  eapply (@generated_puzzle_tokens reference_host 20 initial_game _
            (draws round_draws (1 # 2)) _ Hv); [simpl; lia |].
  vm_compute. reflexivity.
Defined.

(** X9, witness. *)
Lemma solution_is_correct_witness :
  exists (g1 : game) (s1 : stream),
    @newRound reference_host 20 None initial_game (draws round_draws (1 # 2))
    = Some (Return g1, s1)
    /\ @check_text reference_host (originalExpr g1) (targetValue g1) = Correct
    /\ exists (g' : game) (s' : stream),
         @revealSolution reference_host
           (set_board (availableTokens g1) [] false g1) (draws [] (1 # 2))
         = Some (g', s')
         /\ solutionVisible g' = true
         /\ @checkEquation reference_host g' = Correct.
Proof.
  eexists _, _. split; [vm_compute; reflexivity |].
  eapply (@solution_is_correct reference_host 20 None initial_game _
            (draws round_draws (1 # 2)) _).
  vm_compute. reflexivity.
Defined.

(** X16, witness. *)
Lemma revealSolution_takes_pool_witness :
  exists (g1 : game) (s1 : stream),
    @newRound reference_host 20 None initial_game (draws round_draws (1 # 2))
    = Some (Return g1, s1)
    /\ exists g' : game,
         @revealSolution reference_host (play_all some_moves g1)
           (draws [] (1 # 2))
         = Some (g', draws [] (1 # 2))
         /\ map pool_entry (availableTokens g')
            = map pool_entry (availableTokens g1)
         /\ Forall (fun t => used t = true) (availableTokens g')
         /\ map placed_entry (equationTokens g')
            ≡ₚ map pool_entry (availableTokens g1)
         /\ map placed_token (equationTokens g') = originalTokens g1
         /\ allTokensUsed g' = true.
Proof.
  eexists _, _. split; [vm_compute; reflexivity |].
  eapply (@revealSolution_takes_pool reference_host 20 None initial_game _
            (draws round_draws (1 # 2)) _ some_moves (draws [] (1 # 2))).
  vm_compute. reflexivity.
Defined.

(** X17, witness. *)
Lemma puzzle_solvable_by_clicks_witness :
  exists (g1 : game) (s1 : stream),
    @newRound reference_host 20 None initial_game (draws round_draws (1 # 2))
    = Some (Return g1, s1)
    /\ exists clicks : list nat,
         clicks = solution_clicks (originalTokens g1) (availableTokens g1)
         /\ length clicks = length (availableTokens g1)
         /\ map placed_token (equationTokens (play_all (map Place clicks) g1))
            = originalTokens g1
         /\ allTokensUsed (play_all (map Place clicks) g1) = true
         /\ solutionVisible (play_all (map Place clicks) g1) = false
         /\ @checkEquation reference_host (play_all (map Place clicks) g1)
            = Correct.
Proof.
  eexists _, _. split; [vm_compute; reflexivity |].
  eapply (@puzzle_solvable_by_clicks reference_host 20 None initial_game _
            (draws round_draws (1 # 2)) _).
  vm_compute. reflexivity.
Defined.

(** X18, witness. *)
Lemma invalid_only_when_empty_witness :
  exists (g1 : game) (s1 : stream),
    @newRound reference_host 20 None initial_game (draws round_draws (1 # 2))
    = Some (Return g1, s1)
    /\ (@checkEquation reference_host (play_all some_moves g1) = InvalidGrammar
        <-> equationTokens (play_all some_moves g1) = [])
    /\ strip_spaces
         (join (map placed_token (equationTokens (play_all some_moves g1))))
       = join (map placed_token (equationTokens (play_all some_moves g1))).
Proof.
  eexists _, _. split; [vm_compute; reflexivity |].
  eapply (@invalid_only_when_empty reference_host 20 None initial_game _
            (draws round_draws (1 # 2)) _ some_moves).
  vm_compute. reflexivity.
Defined.

(** X15, witness. *)
Lemma button_when_all_consumed_witness :
  exists (g : game) (s' : stream),
    @start_round reference_host "(3+4)*2" 14%float initial_game
      (draws pool_draws (1 # 2)) = Some (g, s')
    /\ NoDup (map id (availableTokens g))
    /\ allTokensUsed (play_all some_moves g)
       = forallb used (availableTokens (play_all some_moves g))
         && (0 <? length (availableTokens (play_all some_moves g)))%nat.
Proof.
  eexists _, _. split; [vm_compute; reflexivity |].
  split; [apply (bool_decide_unpack _); vm_compute; exact I |].
  eapply (@button_when_all_consumed reference_host "(3+4)*2" 14%float
            initial_game _ (draws pool_draws (1 # 2)) _ some_moves).
  - vm_compute. reflexivity.
  - apply (bool_decide_unpack _). vm_compute. exact I.
Defined.

(** X20, witness. *)
Lemma nextLevel_round_witness :
  exists (g' : game) (s' : stream),
    @nextLevel reference_host 20 initial_game (draws round_draws (1 # 2))
    = Some (Return g', s')
    /\ currentLevel g' = 2%Z
    /\ timeLeft g' = getTimerDurationForLevel 1
    /\ timeLeft g' = (getTimerDurationForLevel 2 + 2)%Z.
Proof.
  eexists _, _. split; [vm_compute; reflexivity |].
  destruct (@nextLevel_round reference_host 20 initial_game _
              (draws round_draws (1 # 2)) _ ltac:(vm_compute; reflexivity))
    as (Hlevel & Htime & Hmore & _).
  split; [exact Hlevel |]. split; [exact Htime |].
  apply Hmore. simpl. lia.
Defined.

(** X4, witness. *)
Lemma shuffleArray_reaches_witness :
  ["c"; "a"; "b"] ≡ₚ ["a"; "b"; "c"]
  /\ (Z.of_nat (length ["a"; "b"; "c"]) <= 9007199254740992)%Z
  /\ exists s s' : stream,
       valid_stream s
       /\ (forall n : nat, exists m : Z, s n = (m # 9007199254740992)%Q)
       /\ shuffleArray ["a"; "b"; "c"] s = Some (["c"; "a"; "b"], s').
Proof.
  assert (Hp : ["c"; "a"; "b"] ≡ₚ ["a"; "b"; "c"])
    by apply (Permutation_cons_append ["a"; "b"] "c").
  assert (Hn : (Z.of_nat (length ["a"; "b"; "c"]) <= 9007199254740992)%Z)
    by (simpl; lia).
  split; [exact Hp |]. split; [exact Hn |].
  exact (shuffleArray_reaches ["a"; "b"; "c"] ["c"; "a"; "b"] Hp Hn).
Defined.

(** X10, witness: [((2+1)*3)], which is 9. *)
Lemma safeEval_fully_parenthesized_witness :
  let t := Node (Node (Leaf 2) "+" (Leaf 1)) "*" (Leaf 3) in
  Forall (fun n => 1 <= n <= 9)%Z (leaves t)
  /\ Forall (fun op => In op OPS) (tree_ops t)
  /\ render t = "((2+1)*3)"
  /\ tree_value t = 9%float
  /\ @safeEval reference_host (render t) = Return (VNum (tree_value t)).
Proof.
  intros t.
  assert (Hl : Forall (fun n => 1 <= n <= 9)%Z (leaves t))
    by (repeat constructor; lia).
  assert (Ho : Forall (fun op => In op OPS) (tree_ops t))
    by (repeat constructor; simpl; tauto).
  split; [exact Hl |]. split; [exact Ho |].
  split; [reflexivity |]. split; [vm_compute; reflexivity |].
  exact (@safeEval_fully_parenthesized reference_host t Hl Ho).
Defined.

(** X11, witness. *)
Lemma round_target_is_value_witness :
  exists (g' : game) (s' : stream),
    valid_stream (draws round_draws (1 # 2))
    /\ (1 <= currentLevel initial_game)%Z
    /\ @newRound reference_host 20 None initial_game (draws round_draws (1 # 2))
       = Some (Return g', s')
    /\ ((originalExpr g' = "(3+4)*2" /\ targetValue g' = Some 14%float)
        \/ (exists t : tree,
              originalExpr g' = render t
              /\ targetValue g' = Some (Math_round (tree_value t))
              /\ is_finite (tree_value t) = true
              /\ off_integer (tree_value t) = false
              /\ (1000 <? Math_abs (Math_round (tree_value t)))%float = false
              /\ all_finite t = true
              /\ no_zero_divisor t = true)).
Proof.
  assert (Hv : valid_stream (draws round_draws (1 # 2)))
    by (apply valid_draws; reflexivity).
  eexists _, _. split; [exact Hv |]. split; [simpl; lia |].
  split; [vm_compute; reflexivity |].
  eapply (@round_target_is_value reference_host 20 initial_game _
            (draws round_draws (1 # 2)) _ Hv); [simpl; lia |].
  vm_compute. reflexivity.
Defined.

(** X12, witness. *)
Lemma newRound_never_raises_witness :
  valid_stream (draws round_draws (1 # 2))
  /\ (1 <= round_count None (currentLevel initial_game))%Z
  /\ forall (c : completion game) (s' : stream),
       @newRound reference_host 20 None initial_game
         (draws round_draws (1 # 2)) = Some (c, s') ->
       exists g' : game, c = Return g'.
Proof.
  assert (Hv : valid_stream (draws round_draws (1 # 2)))
    by (apply valid_draws; reflexivity).
  assert (Hc : (1 <= round_count None (currentLevel initial_game))%Z)
    by (vm_compute; intros Hc; discriminate Hc).
  split; [exact Hv |]. split; [exact Hc |].
  destruct (@newRound_never_raises reference_host 20 None initial_game
              (draws round_draws (1 # 2)) Hv) as (H & _).
  exact (H Hc).
Defined.

(** X21, witness: the round of [round_draws] records its question. *)
Lemma replay_restores_question_witness :
  exists (g' : game) (ref' : option question) (s' : stream),
    @newRound_ref reference_host 20 None initial_game None
      (draws round_draws (1 # 2))
    = Some (Return (g', ref'), s')
    /\ ((ref' = question_of g' (round_count None (currentLevel initial_game))
         /\ originalExpr g' <> "(3+4)*2")
        \/ (ref' = None /\ originalExpr g' = "(3+4)*2")).
Proof.
  eexists _, _, _. split; [vm_compute; reflexivity |].
  destruct (@replay_restores_question reference_host 20 initial_game None
              (draws round_draws (1 # 2))) as (_ & H & _).
  eapply H. vm_compute. reflexivity.
Defined.

(** X22, witness. *)
Lemma showHintShort_candidates_witness :
  exists (g' : game) (s' : stream),
    valid_stream (draws round_draws (1 # 2))
    /\ valid_stream (draws [7 # 10]%Q (1 # 2))
    /\ (1 <= currentLevel initial_game)%Z
    /\ @newRound reference_host 20 None initial_game (draws round_draws (1 # 2))
       = Some (Return g', s')
    /\ hint_candidates g'
       = [HintParentheses; HintFirstOperator "+"; HintOperatorCounts 1 0 1 0;
          HintStartsWithParen; HintEndsWithParen]
    /\ exists h : hint,
         showHintShort g' None (draws [7 # 10]%Q (1 # 2))
         = Some (Some h, fun n => draws [7 # 10]%Q (1 # 2) (S n))
         /\ In h (hint_candidates g').
Proof.
  assert (Hv : valid_stream (draws round_draws (1 # 2)))
    by (apply valid_draws; reflexivity).
  assert (Hv1 : valid_stream (draws [7 # 10]%Q (1 # 2)))
    by (apply valid_draws; reflexivity).
  eexists _, _. split; [exact Hv |]. split; [exact Hv1 |].
  split; [simpl; lia |]. split; [vm_compute; reflexivity |].
  split; [vm_compute; reflexivity |].
  eapply (@showHintShort_candidates reference_host 20 initial_game _ None
            (draws round_draws (1 # 2)) _ (draws [7 # 10]%Q (1 # 2)) Hv Hv1);
    [simpl; lia |].
  vm_compute. reflexivity.
Defined.

(** C8, witness: the round of [round_draws] at level 1, with three operands
    up to 3 and 70 seconds. *)
Lemma round_parameters_witness :
  exists (g' : game) (s' : stream),
    (1 <= currentLevel initial_game)%Z
    /\ valid_stream (draws round_draws (1 # 2))
    /\ @newRound reference_host 20 None initial_game (draws round_draws (1 # 2))
       = Some (Return g', s')
    /\ timeLeft g' = 70%Z
    /\ originalExpr g' = "((2+1)*3)"
    /\ (originalExpr g' = "(3+4)*2"
        \/ exists (t : tree) (numbers : list Z) (s1 s2 : stream),
             originalExpr g' = render t
             /\ leaves t ≡ₚ numbers
             /\ advances (draws round_draws (1 # 2)) s1
             /\ gen_numbers 3 3 s1 = Some (numbers, s2)
             /\ forall (i : nat) (x : Z),
                  numbers !! i = Some x ->
                  (1 <= x <= 3)%Z /\ operand_of_draw 3 (s1 i) x).
Proof.
  assert (Hv : valid_stream (draws round_draws (1 # 2)))
    by (apply valid_draws; reflexivity).
  assert (Hl : (1 <= currentLevel initial_game)%Z) by (simpl; lia).
  eexists _, _. split; [exact Hl |]. split; [exact Hv |].
  split; [vm_compute; reflexivity |].
  pose proof (fun g1 s1 =>
                @round_parameters reference_host 20 initial_game g1
                  (draws round_draws (1 # 2)) s1 Hl Hv) as Hround.
  edestruct Hround as ((Ht & _) & Hr & _); [vm_compute; reflexivity |].
  clear Hround. rename Hr into Hround.
  split; [exact Ht |]. split; [reflexivity |].
  destruct Hround as [Hf | (t & numbers & s1 & s2 & He & Hp & Ha & Hn & _
                              & _ & _ & Hx)];
    [now left | right].
  exists t, numbers, s1, s2.
  split; [exact He |]. split; [exact Hp |]. split; [exact Ha |].
  split; [exact Hn | exact Hx].
Defined.
